(** * solax: discovery, validation and sensor mapping of solar inverters

    A shallow embedding of [solax/inverter.py] and of the parts of the Python
    runtime, of the [json] module and of [voluptuous] that it calls, followed
    by the properties of the specification, each proved or refuted on the
    embedding.

    Layout:
    - [Py]       Python values, exceptions, [str.replace], [bytes.decode],
                 [int()], [float()];
    - [Json]     [json.loads];
    - [Vol]      the [voluptuous] validators used by the two schemas;
    - [Aio]      the HTTP transport as a state monad over a request log;
    - [inverter.py] itself, its definitions under their own names;
    - the theorems. *)

From Stdlib Require Import ZArith NArith String Ascii Strings.Byte List Bool Lia.
From Stdlib Require Import SpecFloat DecimalString.
Import ListNotations.

Local Open Scope Z_scope.
Set Warnings "-register-all".

(* ================================================================== *)
(** * Python values and built-ins *)
(* ================================================================== *)

Module Py.

(** A Python [str] is a sequence of code points; [bytes] a sequence of
    octets; a [float] an IEEE 754 binary64 number. *)
Definition str := list N.
Definition bytes := list byte.
Definition float := spec_float.

(** Source-code string literals (all ASCII) as [str]. *)
Definition u (s : string) : str := map N_of_ascii (list_ascii_of_string s).

Definition str_eqb (a b : str) : bool :=
  if list_eq_dec N.eq_dec a b then true else false.

(** Python objects as [json.loads] produces them and [voluptuous] returns
    them.  A [dict] keeps its items in insertion order; its keys are [str]
    (the only keys JSON has). *)
Inductive value : Type :=
| PNone
| PBool (b : bool)
| PInt (z : Z)
| PFloat (f : float)
| PStr (s : str)
| PList (l : list value)
| PDict (d : list (str * value)).

Definition dict := list (str * value).

(** [d[k]] as a lookup, [None] standing for [KeyError]. *)
Fixpoint dict_get {A} (d : list (str * A)) (k : str) : option A :=
  match d with
  | [] => None
  | (k', v) :: d' => if str_eqb k k' then Some v else dict_get d' k
  end.

(** [d[k] = v]: an existing key keeps its position, a new one goes last. *)
Fixpoint dict_set {A} (d : list (str * A)) (k : str) (v : A) : list (str * A) :=
  match d with
  | [] => [(k, v)]
  | (k', v') :: d' =>
      if str_eqb k k' then (k', v) :: d' else (k', v') :: dict_set d' k v
  end.

(** [dict(pairs)]. *)
Definition dict_of_pairs {A} (pairs : list (str * A)) : list (str * A) :=
  fold_left (fun d kv => dict_set d (fst kv) (snd kv)) pairs [].

Definition keys {A} (d : list (str * A)) : list str := map fst d.

(** Exceptions, by class.  [InverterError] carries its message and the
    exception it was raised [from] (its [__cause__]). *)
Inductive exn : Type :=
| ClientError (msg : string)        (* aiohttp.ClientError and subclasses *)
| ValueError (msg : string)
| UnicodeDecodeError (msg : string) (* a ValueError *)
| JSONDecodeError (msg : string)    (* a ValueError *)
| TypeError (msg : string)
| OverflowError (msg : string)
| IndexError (msg : string)
| KeyError (msg : string)
| RecursionError
| Invalid (errors : list string)    (* vol.Invalid; MultipleInvalid's errors *)
| InverterError (msg : string) (cause : exn)
| DiscoveryError.

(** [isinstance(e, C)] for the three classes [get_data] catches. *)
Definition is_ClientError (e : exn) : bool :=
  match e with ClientError _ => true | _ => false end.

Definition is_ValueError (e : exn) : bool :=
  match e with
  | ValueError _ | UnicodeDecodeError _ | JSONDecodeError _ => true
  | _ => false
  end.

Definition is_TypeError (e : exn) : bool :=
  match e with TypeError _ => true | _ => false end.

Definition is_Invalid (e : exn) : bool :=
  match e with Invalid _ => true | _ => false end.

Definition is_InverterError (e : exn) : bool :=
  match e with InverterError _ _ => true | _ => false end.

(** The outcome of evaluating an expression: a value or a raised exception. *)
Inductive result (A : Type) : Type :=
| Return (a : A)
| Raise (e : exn).
Arguments Return {A} a.
Arguments Raise {A} e.

Definition bind {A B} (r : result A) (k : A -> result B) : result B :=
  match r with
  | Return a => k a
  | Raise e => Raise e
  end.

Definition returns {A} (r : result A) : bool :=
  match r with Return _ => true | Raise _ => false end.

(** ** [str.replace]

    [s.replace(old, new)]: the occurrences of [old] are found from left to
    right and do not overlap; an empty [old] matches before every character
    and at the end. *)
Fixpoint starts_with (p s : str) : bool :=
  match p, s with
  | [], _ => true
  | a :: p', b :: s' => N.eqb a b && starts_with p' s'
  | _ :: _, [] => false
  end.

(** [skip] counts the characters of a matched occurrence still to be passed
    over. *)
Fixpoint replace_from (old new : str) (skip : nat) (s : str) : str :=
  match s with
  | [] => []
  | c :: s' =>
      match skip with
      | S k => replace_from old new k s'
      | O =>
          if starts_with old s
          then new ++ replace_from old new (length old - 1) s'
          else c :: replace_from old new 0 s'
      end
  end.

Definition str_replace (s old new : str) : str :=
  match old with
  | [] => new ++ flat_map (fun c => c :: new) s
  | _ :: _ => replace_from old new 0 s
  end.

(** ** [bytes.decode("utf-8")]

    Strict UTF-8: shortest forms only, no surrogates, nothing above
    U+10FFFF; anything else raises [UnicodeDecodeError]. *)
Definition in_range (lo hi b : N) : bool := (N.leb lo b && N.leb b hi)%bool.

Definition low6 (b : N) : N := N.land b 63.

Definition bad_utf8 {A} : result A :=
  Raise (UnicodeDecodeError "'utf-8' codec can't decode byte").

Fixpoint decode_utf8 (bs : bytes) : result str :=
  match bs with
  | [] => Return []
  | b0 :: r0 =>
      let n0 := Byte.to_N b0 in
      if N.ltb n0 128 then
        bind (decode_utf8 r0) (fun t => Return (n0 :: t))
      else if in_range 194 223 n0 then
        match r0 with
        | b1 :: r1 =>
            let n1 := Byte.to_N b1 in
            if in_range 128 191 n1 then
              bind (decode_utf8 r1) (fun t =>
                Return (N.lor (N.shiftl (N.land n0 31) 6) (low6 n1) :: t))
            else bad_utf8
        | _ => bad_utf8
        end
      else if in_range 224 239 n0 then
        match r0 with
        | b1 :: b2 :: r2 =>
            let n1 := Byte.to_N b1 in
            let n2 := Byte.to_N b2 in
            let lo := if N.eqb n0 224 then 160%N else 128%N in
            let hi := if N.eqb n0 237 then 159%N else 191%N in
            if (in_range lo hi n1 && in_range 128 191 n2)%bool then
              bind (decode_utf8 r2) (fun t =>
                Return (N.lor (N.shiftl (N.land n0 15) 12)
                          (N.lor (N.shiftl (low6 n1) 6) (low6 n2)) :: t))
            else bad_utf8
        | _ => bad_utf8
        end
      else if in_range 240 244 n0 then
        match r0 with
        | b1 :: b2 :: b3 :: r3 =>
            let n1 := Byte.to_N b1 in
            let n2 := Byte.to_N b2 in
            let n3 := Byte.to_N b3 in
            let lo := if N.eqb n0 240 then 144%N else 128%N in
            let hi := if N.eqb n0 244 then 143%N else 191%N in
            if (in_range lo hi n1 && in_range 128 191 n2
                && in_range 128 191 n3)%bool then
              bind (decode_utf8 r3) (fun t =>
                Return (N.lor (N.shiftl (N.land n0 7) 18)
                          (N.lor (N.shiftl (low6 n1) 12)
                             (N.lor (N.shiftl (low6 n2) 6) (low6 n3))) :: t))
            else bad_utf8
        | _ => bad_utf8
        end
      else bad_utf8
  end.

(** ** [int()] and [float()]

    Strings are read by the ASCII grammar of CPython: surrounding white
    space, a sign, digits with single underscores between them.  (CPython
    also accepts the decimal digits and white space of other scripts; those
    raise [ValueError] here.  The interpreter's limit on the number of
    digits of an integer literal is not modelled.) *)
Definition is_digit (c : N) : bool := in_range 48 57 c.

Definition is_space (c : N) : bool := (N.eqb c 32 || in_range 9 13 c)%bool.

Fixpoint lstrip (s : str) : str :=
  match s with
  | c :: s' => if is_space c then lstrip s' else s
  | [] => []
  end.

Definition strip (s : str) : str := rev (lstrip (rev (lstrip s))).

(** Underscores are allowed only between two digits; they are removed. *)
Fixpoint drop_underscores (prev : N) (s : str) : option str :=
  match s with
  | [] => if N.eqb prev 95 then None else Some []
  | c :: s' =>
      if N.eqb c 95 then
        if is_digit prev then drop_underscores c s' else None
      else if (N.eqb prev 95 && negb (is_digit c))%bool then None
      else option_map (cons c) (drop_underscores c s')
  end.

Fixpoint span_digits (s : str) : str * str :=
  match s with
  | c :: s' =>
      if is_digit c then let (ds, r) := span_digits s' in (c :: ds, r)
      else ([], s)
  | [] => ([], [])
  end.

Definition digits_to_Z (ds : str) : Z :=
  fold_left (fun acc d => 10 * acc + (Z.of_N d - 48)) ds 0.

(** An optional sign: [(negative, rest)]. *)
Definition take_sign (s : str) : bool * str :=
  match s with
  | 45%N :: r => (true, r)
  | 43%N :: r => (false, r)
  | _ => (false, s)
  end.

(** [int(s)] for a [str], base 10. *)
Definition int_of_str (s : str) : result Z :=
  let bad := Raise (ValueError "invalid literal for int() with base 10") in
  match drop_underscores 0 (strip s) with
  | None => bad
  | Some t =>
      let (neg, r) := take_sign t in
      match span_digits r with
      | ((_ :: _) as ds, []) =>
          Return (if neg then - digits_to_Z ds else digits_to_Z ds)
      | _ => bad
      end
  end.

Definition prec : Z := 53.
Definition emax : Z := 1024.

(** The binary64 number nearest to [m * 10^e] (ties to even), infinite when
    that overflows: what CPython's correctly rounded [strtod] returns. *)
Definition float_of_decimal (neg : bool) (m : Z) (e : Z) : float :=
  match m with
  | Zpos p =>
      if 0 <=? e
      then binary_normalize prec emax
             (if neg then - (m * 10 ^ e) else m * 10 ^ e) 0 false
      else match 10 ^ (- e) with
           | Zpos q => SFdiv prec emax (S754_finite neg p 0) (S754_finite false q 0)
           | _ => S754_nan
           end
  | _ => S754_zero neg
  end.

Definition lower (c : N) : N := if in_range 65 90 c then (c + 32)%N else c.

(** The exponent part [e[+-]digits] when it is all that is left. *)
Definition exponent_of (s : str) : option Z :=
  match s with
  | [] => Some 0
  | c :: r =>
      if N.eqb (lower c) 101 then
        let (neg, r') := take_sign r in
        match span_digits r' with
        | ((_ :: _) as ds, []) =>
            Some (if neg then - digits_to_Z ds else digits_to_Z ds)
        | _ => None
        end
      else None
  end.

(** [float(s)] for a [str]. *)
Definition float_of_str (s : str) : result float :=
  let bad := Raise (ValueError "could not convert string to float") in
  match drop_underscores 0 (strip s) with
  | None => bad
  | Some t =>
      let (neg, r) := take_sign t in
      let name := map lower r in
      if (str_eqb name (u "inf") || str_eqb name (u "infinity"))%bool
      then Return (S754_infinity neg)
      else if str_eqb name (u "nan") then Return S754_nan
      else
        let (ip, r1) := span_digits r in
        let (fp, r2) :=
          match r1 with
          | 46%N :: r1' => span_digits r1'
          | _ => ([], r1)
          end in
        match ip ++ fp, exponent_of r2 with
        | (_ :: _) as ds, Some e =>
            Return (float_of_decimal neg (digits_to_Z ds)
                      (e - Z.of_nat (length fp)))
        | _, _ => bad
        end
  end.

(** [float(n)] for an [int]: rounded to nearest, [OverflowError] beyond the
    largest finite float. *)
Definition float_of_int (z : Z) : result float :=
  match binary_normalize prec emax z 0 false with
  | S754_infinity _ => Raise (OverflowError "int too large to convert to float")
  | f => Return f
  end.

(** [int(x)] for a [float]: truncation towards zero. *)
Definition int_of_float (f : float) : result Z :=
  match f with
  | S754_zero _ => Return 0
  | S754_finite s m e =>
      let a := if 0 <=? e then Z.shiftl (Zpos m) e else Z.shiftr (Zpos m) (- e) in
      Return (if s then - a else a)
  | S754_infinity _ =>
      Raise (OverflowError "cannot convert float infinity to integer")
  | S754_nan => Raise (ValueError "cannot convert float NaN to integer")
  end.

(** The built-ins [float(v)] and [int(v)] on an arbitrary object. *)
Definition py_float (v : value) : result float :=
  match v with
  | PFloat f => Return f
  | PInt z => float_of_int z
  | PBool b => float_of_int (if b then 1 else 0)
  | PStr s => float_of_str s
  | PNone | PList _ | PDict _ =>
      Raise (TypeError "float() argument must be a string or a real number")
  end.

Definition py_int (v : value) : result Z :=
  match v with
  | PInt z => Return z
  | PBool b => Return (if b then 1 else 0)
  | PFloat f => int_of_float f
  | PStr s => int_of_str s
  | PNone | PList _ | PDict _ =>
      Raise (TypeError "int() argument must be a string or a real number")
  end.

(** [len(v)]. *)
Definition py_len (v : value) : result Z :=
  match v with
  | PStr s => Return (Z.of_nat (length s))
  | PList l => Return (Z.of_nat (length l))
  | PDict d => Return (Z.of_nat (length d))
  | PNone | PBool _ | PInt _ | PFloat _ =>
      Raise (TypeError "object has no len()")
  end.

(** [l[i]] for a list: a negative index counts from the end. *)
Definition list_getitem {A} (l : list A) (i : Z) : result A :=
  let n := Z.of_nat (length l) in
  let j := if i <? 0 then i + n else i in
  if (0 <=? j) && (j <? n) then
    match nth_error l (Z.to_nat j) with
    | Some a => Return a
    | None => Raise (IndexError "list index out of range")
    end
  else Raise (IndexError "list index out of range").

(** [d[k]] for a dict and [v[i]] for an object and an [int]. *)
Definition dict_getitem {A} (d : list (str * A)) (k : str) : result A :=
  match dict_get d k with
  | Some v => Return v
  | None => Raise (KeyError "key not found")
  end.

Definition subscript (v : value) (i : Z) : result value :=
  match v with
  | PList l => list_getitem l i
  | PStr s => bind (list_getitem s i) (fun c => Return (PStr [c]))
  | PDict _ => Raise (KeyError "key not found")
  | PNone | PBool _ | PInt _ | PFloat _ =>
      Raise (TypeError "object is not subscriptable")
  end.

(** [str(n)] for an [int], as a message and as a [str]. *)
Definition dec (z : Z) : string := NilEmpty.string_of_int (Z.to_int z).

Definition str_of_int (z : Z) : str := u (dec z).

(** [template.format(a, b, ...)] for a template whose only fields are [{}]. *)
Fixpoint format (template : str) (args : list str) : str :=
  match template with
  | 123%N :: ((125%N :: t) as t0) =>
      match args with
      | a :: args' => a ++ format t args'
      | [] => 123%N :: format t0 args
      end
  | c :: t => c :: format t args
  | [] => []
  end.

(** [x >= k] for a [float] and an [int], compared exactly; false for NaN. *)
Definition float_geb_int (f : float) (k : Z) : bool :=
  match f with
  | S754_zero _ => k <=? 0
  | S754_infinity s => negb s
  | S754_nan => false
  | S754_finite s m e =>
      let a := if s then Zneg m else Zpos m in
      if 0 <=? e then k <=? a * 2 ^ e else k * 2 ^ (- e) <=? a
  end.

End Py.

Import Py.

Declare Scope py_scope.
Delimit Scope py_scope with py.
Notation "x <- r ;; k" := (Py.bind r (fun x => k))
  (at level 61, r at next level, right associativity) : py_scope.
Notation "' pat <- r ;; k" := (Py.bind r (fun x => match x with pat => k end))
  (at level 61, pat pattern, r at next level, right associativity) : py_scope.

(* ================================================================== *)
(** * [json.loads] *)
(* ================================================================== *)

(** The decoder of CPython's [json] module ([json/decoder.py],
    [json/scanner.py], with the C scanner's ASCII digits), on a [str].  The
    functions take the text still to be read and return the text left over,
    where the originals pass an index.  Error messages are kept without
    their position. *)
Module Json.

Definition is_ws (c : N) : bool :=
  (N.eqb c 32 || N.eqb c 9 || N.eqb c 10 || N.eqb c 13)%bool.

Fixpoint skip_ws (s : str) : str :=
  match s with
  | c :: s' => if is_ws c then skip_ws s' else s
  | [] => []
  end.

Definition hex_digit (c : N) : option N :=
  if in_range 48 57 c then Some (c - 48)%N
  else if in_range 97 102 c then Some (c - 87)%N
  else if in_range 65 70 c then Some (c - 55)%N
  else None.

Definition hex4 (a b c d : N) : option N :=
  match hex_digit a, hex_digit b, hex_digit c, hex_digit d with
  | Some x, Some y, Some z, Some w =>
      Some (N.lor (N.shiftl x 12) (N.lor (N.shiftl y 8) (N.lor (N.shiftl z 4) w)))
  | _, _, _, _ => None
  end.

(** [BACKSLASH]: the one-letter escapes. *)
Definition backslash (c : N) : option N :=
  if N.eqb c 34 then Some 34%N          (* quote *)
  else if N.eqb c 92 then Some 92%N     (* backslash *)
  else if N.eqb c 47 then Some 47%N     (* / *)
  else if N.eqb c 98 then Some 8%N      (* b *)
  else if N.eqb c 102 then Some 12%N    (* f *)
  else if N.eqb c 110 then Some 10%N    (* n *)
  else if N.eqb c 114 then Some 13%N    (* r *)
  else if N.eqb c 116 then Some 9%N     (* t *)
  else None.

Definition decode_error {A} (msg : string) : result A :=
  Raise (JSONDecodeError msg).

Definition push {A} (c : A) (r : result (list A * str)) : result (list A * str) :=
  bind r (fun p => Return (c :: fst p, snd p)).

(** The text after [word] when [s] starts with it. *)
Fixpoint after (word s : str) : option str :=
  match word, s with
  | [], _ => Some s
  | a :: w', b :: s' => if N.eqb a b then after w' s' else None
  | _ :: _, [] => None
  end.

(** [scanstring(s, end, strict=True)]: [s] starts after the opening quote;
    the result is the decoded string and the text after the closing quote. *)
Fixpoint scanstring (s : str) : result (str * str) :=
  match s with
  | [] => decode_error "Unterminated string starting at"
  | c :: r =>
      if N.eqb c 34 then Return ([], r)
      else if N.eqb c 92 then
        match r with
        | [] => decode_error "Unterminated string starting at"
        | e :: r1 =>
            if N.eqb e 117 then
              match r1 with
              | h1 :: h2 :: h3 :: h4 :: r2 =>
                  match hex4 h1 h2 h3 h4 with
                  | None => decode_error "Invalid \uXXXX escape"
                  | Some uni =>
                      match r2 with
                      | b1 :: b2 :: r3 =>
                          if (in_range 55296 56319 uni
                              && N.eqb b1 92 && N.eqb b2 117)%bool then
                            match r3 with
                            | g1 :: g2 :: g3 :: g4 :: r4 =>
                                match hex4 g1 g2 g3 g4 with
                                | None => decode_error "Invalid \uXXXX escape"
                                | Some uni2 =>
                                    if in_range 56320 57343 uni2 then
                                      push (65536 + N.lor (N.shiftl (uni - 55296) 10)
                                                      (uni2 - 56320))%N
                                           (scanstring r4)
                                    else push uni (scanstring r2)
                                end
                            | _ => decode_error "Invalid \uXXXX escape"
                            end
                          else push uni (scanstring r2)
                      | _ => push uni (scanstring r2)
                      end
                  end
              | _ => decode_error "Invalid \uXXXX escape"
              end
            else
              match backslash e with
              | Some ch => push ch (scanstring r1)
              | None => decode_error "Invalid \escape"
              end
        end
      else if N.ltb c 32 then decode_error "Invalid control character at"
      else push c (scanstring r)
  end.

(** The digits of a fraction or of an exponent: at least one. *)
Definition digits1 (s : str) : option (str * str) :=
  match span_digits s with
  | (_ :: _, _) as p => Some p
  | _ => None
  end.

(** [NUMBER_RE]: an optional minus sign and either a single 0 or a digit
    1-9 followed by digits; then, if present, a point followed by at least
    one digit; then, if present, e or E, an optional sign and at least one
    digit.  The result is the matched text, whether a fraction or an
    exponent was matched, and the text after the match. *)
Definition match_integer (s : str) : option (str * str) :=
  match s with
  | c :: r =>
      if N.eqb c 48 then Some ([c], r)
      else if in_range 49 57 c then
        let (ds, r') := span_digits r in Some (c :: ds, r')
      else None
  | [] => None
  end.

Definition match_frac (s : str) : str * str :=
  match after (u ".") s with
  | Some r =>
      match digits1 r with
      | Some (ds, r') => (u "." ++ ds, r')
      | None => ([], s)
      end
  | None => ([], s)
  end.

Definition match_exp (s : str) : str * str :=
  match s with
  | e :: r =>
      if (N.eqb e 101 || N.eqb e 69)%bool then
        let (sg, r') :=
          match after (u "+") r, after (u "-") r with
          | Some t, _ => (u "+", t)
          | None, Some t => (u "-", t)
          | None, None => ([], r)
          end in
        match digits1 r' with
        | Some (ds, t) => (e :: sg ++ ds, t)
        | None => ([], s)
        end
      else ([], s)
  | [] => ([], s)
  end.

Definition match_number (s : str) : option (str * bool * str) :=
  let (sign, r0) :=
    match after (u "-") s with
    | Some r => (u "-", r)
    | None => ([], s)
    end in
  match match_integer r0 with
  | None => None
  | Some (integer, r1) =>
      let (frac, r2) := match_frac r1 in
      let (exp, r3) := match_exp r2 in
      Some (sign ++ integer ++ frac ++ exp,
            match frac, exp with [], [] => false | _, _ => true end,
            r3)
  end.

(** [parse_float] is [float], [parse_int] is [int]. *)
Definition number_value (tok : str) (is_float : bool) : result value :=
  if is_float
  then bind (float_of_str tok) (fun f => Return (PFloat f))
  else bind (int_of_str tok) (fun z => Return (PInt z)).

(** The literals and numbers of [_scan_once], in its order. *)
Definition scan_atom (s : str) : result (value * str) :=
  match after (u "null") s with
  | Some r => Return (PNone, r)
  | None =>
  match after (u "true") s with
  | Some r => Return (PBool true, r)
  | None =>
  match after (u "false") s with
  | Some r => Return (PBool false, r)
  | None =>
  match match_number s with
  | Some (tok, is_float, r) =>
      bind (number_value tok is_float) (fun v => Return (v, r))
  | None =>
  match after (u "NaN") s with
  | Some r => Return (PFloat S754_nan, r)
  | None =>
  match after (u "Infinity") s with
  | Some r => Return (PFloat (S754_infinity false), r)
  | None =>
  match after (u "-Infinity") s with
  | Some r => Return (PFloat (S754_infinity true), r)
  | None => decode_error "Expecting value"
  end end end end end end end.

(** [_scan_once], [JSONObject] and [JSONArray].  The loops of the last two
    are [object_items] and [array_items]: [object_items] starts after the
    opening quote of a key, [array_items] at a value.  [fuel] bounds the
    number of calls; [loads] gives two per character, which is never used
    up (every call but the first of a loop follows a consumed character),
    so the [RecursionError] of the empty case is not reached; the
    interpreter's own recursion limit is not modelled. *)
Fixpoint scan_once (fuel : nat) (s : str) {struct fuel} : result (value * str) :=
  match fuel with
  | O => Raise RecursionError
  | S n =>
      match s with
      | [] => decode_error "Expecting value"
      | c :: r =>
          if N.eqb c 34 then
            bind (scanstring r) (fun p => Return (PStr (fst p), snd p))
          else if N.eqb c 123 then
            match after (u "}") (skip_ws r), after [34%N] (skip_ws r) with
            | Some r', _ => Return (PDict [], r')
            | None, Some r' => object_items n [] r'
            | None, None =>
                decode_error "Expecting property name enclosed in double quotes"
            end
          else if N.eqb c 91 then
            match after (u "]") (skip_ws r) with
            | Some r' => Return (PList [], r')
            | None => array_items n [] (skip_ws r)
            end
          else scan_atom s
      end
  end

with object_items (fuel : nat) (pairs : list (str * value)) (s : str)
       {struct fuel} : result (value * str) :=
  match fuel with
  | O => Raise RecursionError
  | S n =>
      bind (scanstring s) (fun kr =>
      match after (u ":") (skip_ws (snd kr)) with
      | Some r1 =>
          bind (scan_once n (skip_ws r1)) (fun vr =>
          let pairs' := pairs ++ [(fst kr, fst vr)] in
          let r2 := skip_ws (snd vr) in
          match after (u "}") r2, after (u ",") r2 with
          | Some r3, _ => Return (PDict (dict_of_pairs pairs'), r3)
          | None, Some r3 =>
              match after [34%N] (skip_ws r3) with
              | Some r4 => object_items n pairs' r4
              | None =>
                  decode_error "Expecting property name enclosed in double quotes"
              end
          | None, None => decode_error "Expecting ',' delimiter"
          end)
      | None => decode_error "Expecting ':' delimiter"
      end)
  end

with array_items (fuel : nat) (values : list value) (s : str)
       {struct fuel} : result (value * str) :=
  match fuel with
  | O => Raise RecursionError
  | S n =>
      bind (scan_once n s) (fun vr =>
      let values' := values ++ [fst vr] in
      let r := skip_ws (snd vr) in
      match after (u "]") r, after (u ",") r with
      | Some r1, _ => Return (PList values', r1)
      | None, Some r1 => array_items n values' (skip_ws r1)
      | None, None => decode_error "Expecting ',' delimiter"
      end)
  end.

(** [json.loads(s)] for a [str]: [JSONDecoder.decode]. *)
Definition loads (s : str) : result value :=
  match after [65279%N] s with
  | Some _ => decode_error "Unexpected UTF-8 BOM (decode using utf-8-sig)"
  | None =>
      bind (scan_once (2 * length s + 2) (skip_ws s)) (fun p =>
      match skip_ws (snd p) with
      | [] => Return (fst p)
      | _ :: _ => decode_error "Extra data"
      end)
  end.

End Json.


(* ================================================================== *)
(** * [voluptuous] *)
(* ================================================================== *)

(** The validators the two schemas are built from, as functions from an
    object to the validated object or an exception.  [Invalid] carries the
    messages of the errors collected, without their path. *)
Module Vol.

Definition validator := value -> result value.

Definition invalid {A} (msg : string) : result A := Raise (Invalid [msg]).

(** A type used as a schema: an [isinstance] check. *)
Definition str_ : validator := fun v =>
  match v with
  | PStr _ => Return v
  | _ => invalid "expected str"
  end.

(** [float] and [int] as constructors of objects. *)
Definition float_ (v : value) : result value :=
  bind (py_float v) (fun f => Return (PFloat f)).

Definition int_ (v : value) : result value :=
  bind (py_int v) (fun z => Return (PInt z)).

(** [Coerce(type)]: [ValueError] and [TypeError] become [Invalid]; any other
    exception of the conversion passes through. *)
Definition Coerce (type_name : string) (type : value -> result value)
  : validator := fun v =>
  match type v with
  | Return x => Return x
  | Raise e =>
      if (is_ValueError e || is_TypeError e)%bool
      then invalid ("expected " ++ type_name)
      else Raise e
  end.

(** [Length(min, max)]; an object without a length is invalid. *)
Definition Length (min max : Z) : validator := fun v =>
  match py_len v with
  | Return n =>
      if n <? min then invalid ("length of value must be at least " ++ dec min)
      else if max <? n then invalid ("length of value must be at most " ++ dec max)
      else Return v
  | Raise e => if is_TypeError e then invalid "invalid value or type" else Raise e
  end.

(** [Range(min)]: the test is [not v >= min]; an object that does not
    compare with a number is invalid. *)
Definition Range (min : Z) : validator := fun v =>
  let at_least :=
    match v with
    | PInt z => Some (min <=? z)
    | PBool b => Some (min <=? (if b then 1 else 0))
    | PFloat f => Some (float_geb_int f min)
    | PNone | PStr _ | PList _ | PDict _ => None
    end in
  match at_least with
  | Some true => Return v
  | Some false => invalid ("value must be at least " ++ dec min)
  | None => invalid "invalid value or type (must have a partial ordering)"
  end.

(** [All(v1, ..., vn)]: each validator is given the output of the one
    before. *)
Fixpoint All (vs : list validator) : validator := fun v =>
  match vs with
  | [] => Return v
  | f :: vs' => bind (f v) (All vs')
  end.

(** [Any(v1, ..., vn)]: the first validator that accepts decides; when
    all refuse, the error raised is the first one (the validators used
    here report at the same path). *)
Fixpoint Any_from (error : option exn) (vs : list validator) : validator := fun v =>
  match vs with
  | [] =>
      match error with
      | Some e => Raise e
      | None => invalid "no valid value found"
      end
  | f :: vs' =>
      match f v with
      | Return x => Return x
      | Raise e =>
          if is_Invalid e
          then Any_from (match error with None => Some e | Some _ => error end) vs' v
          else Raise e
      end
  end.

Definition Any : list validator -> validator := Any_from None.

(** A one-element list [[elem]] used as a schema: a list each of whose
    elements [elem] accepts.  The errors of all the elements are collected;
    an exception other than [Invalid] ends the validation at once. *)
Fixpoint validate_sequence (elem : validator) (data : list value)
  : result (list value * list string) :=
  match data with
  | [] => Return ([], [])
  | x :: data' =>
      match elem x with
      | Return cval =>
          bind (validate_sequence elem data') (fun p =>
          Return (cval :: fst p, snd p))
      | Raise (Invalid es) =>
          bind (validate_sequence elem data') (fun p =>
          Return (fst p, es ++ snd p))
      | Raise e => Raise e
      end
  end.

Definition Seq (elem : validator) : validator := fun v =>
  match v with
  | PList data =>
      bind (validate_sequence elem data) (fun p =>
      match snd p with
      | [] => Return (PList (fst p))
      | errors => Raise (Invalid errors)
      end)
  | _ => invalid "expected a list"
  end.

(** A dict used as a schema, every key [Required], [extra=REMOVE_EXTRA]:
    [validate_mapping] goes through the items of the data; a key of the
    schema has its value validated and stored, or its errors collected;
    any other key is dropped.  [required] holds the keys not seen yet. *)
Fixpoint validate_mapping (schema : list (str * validator))
    (items : list (str * value)) (out : dict) (errors : list string)
    (required : list str) : result (dict * list string * list str) :=
  match items with
  | [] => Return (out, errors, required)
  | (key, v) :: rest =>
      match dict_get schema key with
      | None => validate_mapping schema rest out errors required
      | Some cvalue =>
          let required' := filter (fun k => negb (str_eqb k key)) required in
          match cvalue v with
          | Return cval =>
              validate_mapping schema rest (dict_set out key cval) errors required'
          | Raise (Invalid es) =>
              validate_mapping schema rest out (errors ++ es) required'
          | Raise e => Raise e
          end
      end
  end.

Definition Schema (schema : list (str * validator)) : validator := fun v =>
  match v with
  | PDict items =>
      bind (validate_mapping schema (dict_of_pairs items) [] [] (keys schema))
        (fun r =>
           let '(out, errors, required) := r in
           match errors ++ map (fun _ => "required key not provided"%string) required with
           | [] => Return (PDict out)
           | errors' => Raise (Invalid errors')
           end)
  | _ => invalid "expected a dictionary"
  end.

End Vol.

(* ================================================================== *)
(** * The HTTP transport *)
(* ================================================================== *)

(** [aiohttp] is outside the program: a request is answered by the
    environment, with the body read or with a failure of the connection
    (refused, reset, timed out), which [aiohttp] raises as a [ClientError].
    The answer may depend on the requests made before, which the world
    records in order. *)
Module Aio.

Inductive http_method := GET | POST.

Record request := { req_method : http_method; req_url : str }.

Inductive answer :=
| Body (b : bytes)
| Failed (msg : string).

Record World := {
  network : list request -> request -> answer;
  log : list request
}.

(** Computations that talk to the network: a state-and-exception monad. *)
Definition M (A : Type) := World -> result A * World.

Definition ret {A} (a : A) : M A := fun w => (Return a, w).

Definition raise {A} (e : exn) : M A := fun w => (Raise e, w).

Definition lift {A} (r : result A) : M A := fun w => (r, w).

Definition bindM {A B} (m : M A) (k : A -> M B) : M B := fun w =>
  match m w with
  | (Return a, w') => k a w'
  | (Raise e, w') => (Raise e, w')
  end.

(** [try: m except handler]: [handler e] is [None] when no clause matches
    [e], which then goes on propagating. *)
Definition try_except {A} (m : M A) (handler : exn -> option (M A)) : M A :=
  fun w =>
  match m w with
  | (Return a, w') => (Return a, w')
  | (Raise e, w') =>
      match handler e with
      | Some h => h w'
      | None => (Raise e, w')
      end
  end.

(** Opening a session, sending the request and reading the whole body. *)
Definition sent (w : World) (r : request) : World :=
  {| network := network w; log := log w ++ [r] |}.

Definition read (m : http_method) (url : str) : M bytes := fun w =>
  let r := {| req_method := m; req_url := url |} in
  (match network w (log w) r with
   | Body b => Return b
   | Failed msg => Raise (ClientError msg)
   end,
   sent w r).

End Aio.

Notation "x <-- m ;; k" := (Aio.bindM m (fun x => k))
  (at level 61, m at next level, right associativity) : py_scope.

(* ================================================================== *)
(** * [solax/inverter.py] *)
(* ================================================================== *)

Local Open Scope py_scope.
Import Vol.

(** [InverterResponse = namedtuple('InverterResponse',
    'data, serial_number, version, type')]. *)
Record InverterResponse := {
  data : dict;
  serial_number : value;
  version : value;
  type : value
}.

(** The subclasses of [Inverter], and an instance of one: the class and
    the [host] and [port] that [__init__] stores. *)
Inductive Variant := XHybrid | X3.

Record Inverter := { cls : Variant; host : str; port : Z }.

(** A sensor map: name to (index, unit). *)
Definition SensorMap := list (str * (Z * option str)).

Definition sensor (name : string) (index : Z) (unit : string)
  : str * (Z * option str) :=
  (u name, (index, Some (u unit))).

(** [Inverter.map_response]: the dict comprehension evaluates
    [resp_data[i]] for each item of the sensor map in turn. *)
Fixpoint map_response_from (out : dict) (resp_data : value)
    (items : SensorMap) : result dict :=
  match items with
  | [] => Return out
  | (sensor_name, (i, _)) :: rest =>
      x <- subscript resp_data i ;;
      map_response_from (dict_set out sensor_name x) resp_data rest
  end.

Definition map_response (resp_data : value) (sensor_map : SensorMap)
  : result dict :=
  map_response_from [] resp_data sensor_map.

(** ** [XHybrid] *)

Definition XHybrid_schema : validator :=
  Schema [
    (u "method", str_);
    (u "version", str_);
    (u "type", str_);
    (u "SN", str_);
    (u "Data", All [Seq (Coerce "float" float_);
                    Any [Length 58 58; Length 68 68]]);
    (u "Status", All [Coerce "int" int_; Range 0])
  ].

Definition XHybrid_sensor_map : SensorMap := [
  sensor "PV1 Current" 0 "A";
  sensor "PV2 Current" 1 "A";
  sensor "PV1 Voltage" 2 "V";
  sensor "PV2 Voltage" 3 "V";
  sensor "Output Current" 4 "A";
  sensor "Network Voltage" 5 "V";
  sensor "Power Now" 6 "W";
  sensor "Inverter Temperature" 7 "C";
  sensor "Today's Energy" 8 "kWh";
  sensor "Total Energy" 9 "kWh";
  sensor "Exported Power" 10 "W";
  sensor "PV1 Power" 11 "W";
  sensor "PV2 Power" 12 "W";
  sensor "Battery Voltage" 13 "V";
  sensor "Battery Current" 14 "A";
  sensor "Battery Power" 15 "W";
  sensor "Battery Temperature" 16 "C";
  sensor "Battery Remaining Capacity" 17 "%";
  sensor "Month's Energy" 19 "kWh";
  sensor "Grid Frequency" 50 "Hz";
  sensor "EPS Voltage" 53 "V";
  sensor "EPS Current" 54 "A";
  sensor "EPS Power" 55 "W";
  sensor "EPS Frequency" 56 "Hz"
].

(** The textual repair of [XHybrid.make_request] (line 140). *)
Definition repair (formatted : str) : str :=
  str_replace (str_replace formatted (u ",,") (u ",0.0,")) (u ",,") (u ",0.0,").

(** The [InverterResponse] built from the validated payload (lines 143 to
    148). *)
Definition XHybrid_InverterResponse (response : value) : result InverterResponse :=
  match response with
  | PDict response =>
      resp_data <- dict_getitem response (u "Data") ;;
      data <- map_response resp_data XHybrid_sensor_map ;;
      serial_number <- dict_getitem response (u "SN") ;;
      version <- dict_getitem response (u "version") ;;
      type <- dict_getitem response (u "type") ;;
      Return {| data := data; serial_number := serial_number;
                version := version; type := type |}
  | _ => Raise (TypeError "object is not subscriptable")
  end.

(** [XHybrid.make_request] after the body is read (lines 139 to 148). *)
Definition XHybrid_response (garbage : bytes) : result InverterResponse :=
  formatted <- decode_utf8 garbage ;;
  let formatted := repair formatted in
  json_response <- Json.loads formatted ;;
  response <- XHybrid_schema json_response ;;
  XHybrid_InverterResponse response.

Definition XHybrid_make_request (host : str) (port : Z) : Aio.M InverterResponse :=
  let base := u "http://{}:{}/api/realTimeData.htm" in
  let url := format base [host; str_of_int port] in
  garbage <-- Aio.read Aio.GET url ;;
  Aio.lift (XHybrid_response garbage).

(** ** [X3] *)

Definition X3_schema : validator :=
  Schema [
    (u "type", str_);
    (u "SN", str_);
    (u "ver", str_);
    (u "Data", All [Seq (Coerce "float" float_); Length 103 103]);
    (u "Information", All [Length 9 9])
  ].

Definition X3_sensor_map : SensorMap := [
  sensor "PV1 Current" 0 "A";
  sensor "PV2 Current" 1 "A";
  sensor "PV1 Voltage" 2 "V";
  sensor "PV2 Voltage" 3 "V";
  sensor "Output Current Phase 1" 4 "A";
  sensor "Network Voltage Phase 1" 5 "V";
  sensor "AC Power" 6 "W";
  sensor "Inverter Temperature" 7 "C";
  sensor "Today's Energy" 8 "kWh";
  sensor "Total Energy" 9 "kWh";
  sensor "Exported Power" 10 "W";
  sensor "PV1 Power" 11 "W";
  sensor "PV2 Power" 12 "W";
  sensor "Battery Voltage" 13 "V";
  sensor "Battery Current" 14 "A";
  sensor "Battery Power" 15 "W";
  sensor "Battery Temperature" 16 "C";
  sensor "Battery Remaining Capacity" 21 "%";
  sensor "Total Feed-in Energy" 41 "kWh";
  sensor "Total Consumption" 42 "kWh";
  sensor "Power Now Phase 1" 43 "W";
  sensor "Power Now Phase 2" 44 "W";
  sensor "Power Now Phase 3" 45 "W";
  sensor "Output Current Phase 2" 46 "A";
  sensor "Output Current Phase 3" 47 "A";
  sensor "Network Voltage Phase 2" 48 "V";
  sensor "Network Voltage Phase 3" 49 "V";
  sensor "Grid Frequency Phase 1" 50 "Hz";
  sensor "Grid Frequency Phase 2" 51 "Hz";
  sensor "Grid Frequency Phase 3" 52 "Hz";
  sensor "EPS Voltage" 53 "V";
  sensor "EPS Current" 54 "A";
  sensor "EPS Power" 55 "W";
  sensor "EPS Frequency" 56 "Hz"
].

(** The [InverterResponse] built from the validated payload (lines 230 to
    235). *)
Definition X3_InverterResponse (response : value) : result InverterResponse :=
  match response with
  | PDict response =>
      resp_data <- dict_getitem response (u "Data") ;;
      data <- map_response resp_data X3_sensor_map ;;
      serial_number <- dict_getitem response (u "SN") ;;
      version <- dict_getitem response (u "ver") ;;
      type <- dict_getitem response (u "type") ;;
      Return {| data := data; serial_number := serial_number;
                version := version; type := type |}
  | _ => Raise (TypeError "object is not subscriptable")
  end.

(** [X3.make_request] after the body is read (lines 227 to 235). *)
Definition X3_response (resp : bytes) : result InverterResponse :=
  raw_json <- decode_utf8 resp ;;
  json_response <- Json.loads raw_json ;;
  response <- X3_schema json_response ;;
  X3_InverterResponse response.

Definition X3_make_request (host : str) (port : Z) : Aio.M InverterResponse :=
  let base := u "http://{}:{}/?optType=ReadRealTimeData" in
  let url := format base [host; str_of_int port] in
  resp <-- Aio.read Aio.POST url ;;
  Aio.lift (X3_response resp).

(** ** Dispatch on the class *)

Definition make_request (c : Variant) : str -> Z -> Aio.M InverterResponse :=
  match c with
  | XHybrid => XHybrid_make_request
  | X3 => X3_make_request
  end.

Definition sensor_map (c : Variant) : SensorMap :=
  match c with
  | XHybrid => XHybrid_sensor_map
  | X3 => X3_sensor_map
  end.

Definition schema (c : Variant) : validator :=
  match c with
  | XHybrid => XHybrid_schema
  | X3 => X3_schema
  end.

(** The body-to-response part of [make_request], and the request sent. *)
Definition response_of (c : Variant) : bytes -> result InverterResponse :=
  match c with
  | XHybrid => XHybrid_response
  | X3 => X3_response
  end.

Definition request_of (i : Inverter) : Aio.request :=
  match cls i with
  | XHybrid =>
      {| Aio.req_method := Aio.GET;
         Aio.req_url := format (u "http://{}:{}/api/realTimeData.htm")
                          [host i; str_of_int (port i)] |}
  | X3 =>
      {| Aio.req_method := Aio.POST;
         Aio.req_url := format (u "http://{}:{}/?optType=ReadRealTimeData")
                          [host i; str_of_int (port i)] |}
  end.

(** ** [Inverter.get_data] *)

Definition get_data (self : Inverter) : Aio.M InverterResponse :=
  Aio.try_except
    (make_request (cls self) (host self) (port self))
    (fun ex =>
       if is_ClientError ex then
         Some (Aio.raise (InverterError "Could not connect to inverter endpoint" ex))
       else if is_ValueError ex then
         Some (Aio.raise (InverterError "Received non-JSON data from inverter endpoint" ex))
       else if is_Invalid ex then
         Some (Aio.raise (InverterError "Received malformed JSON from inverter" ex))
       else None).

(** ** [discover] *)

Definition REGISTRY : list Variant := [XHybrid; X3].

(** The [for] loop of [discover] over what is left of the registry. *)
Fixpoint discover_from (registry : list Variant) (host : str) (port : Z)
  : Aio.M Inverter :=
  match registry with
  | [] => Aio.raise DiscoveryError
  | inverter :: rest =>
      let i := {| cls := inverter; host := host; port := port |} in
      Aio.try_except
        (_ <-- get_data i ;; Aio.ret i)
        (fun ex =>
           if is_InverterError ex
           then Some (discover_from rest host port)
           else None)
  end.

Definition discover (host : str) (port : Z) : Aio.M Inverter :=
  discover_from REGISTRY host port.

(* ================================================================== *)
(** * Notions used to state the properties *)
(* ================================================================== *)

(** The floats the elements of a list convert to. *)
Definition floats_of (l : list value) (fs : list float) : Prop :=
  Forall2 (fun x f => py_float x = Return f) l fs.

(** The items of a payload the XHybrid schema accepts: the four strings, a
    list of 58 or 68 elements that convert to [fs], and a status that
    converts to the non-negative [status]. *)
Definition XHybrid_payload (items : dict) (sn ver ty : str) (fs : list float)
    (status : Z) : Prop :=
  (exists m, dict_get items (u "method") = Some (PStr m)) /\
  dict_get items (u "version") = Some (PStr ver) /\
  dict_get items (u "type") = Some (PStr ty) /\
  dict_get items (u "SN") = Some (PStr sn) /\
  (exists l, dict_get items (u "Data") = Some (PList l) /\ floats_of l fs /\
             (length l = 58%nat \/ length l = 68%nat)) /\
  (exists st, dict_get items (u "Status") = Some st /\
              py_int st = Return status /\ 0 <= status).

(** The items of a payload the X3 schema accepts. *)
Definition X3_payload (items : dict) (sn ver ty : str) (fs : list float) : Prop :=
  dict_get items (u "type") = Some (PStr ty) /\
  dict_get items (u "SN") = Some (PStr sn) /\
  dict_get items (u "ver") = Some (PStr ver) /\
  (exists l, dict_get items (u "Data") = Some (PList l) /\ floats_of l fs /\
             length l = 103%nat) /\
  (exists info, dict_get items (u "Information") = Some info /\
                py_len info = Return 9).

Definition payload (c : Variant) (items : dict) (sn ver ty : str)
    (fs : list float) : Prop :=
  match c with
  | XHybrid => exists status, XHybrid_payload items sn ver ty fs status
  | X3 => X3_payload items sn ver ty fs
  end.

(** The fields of the two schemas, by name. *)
Definition XHybrid_fields : list (str * validator) := [
  (u "method", str_);
  (u "version", str_);
  (u "type", str_);
  (u "SN", str_);
  (u "Data", All [Seq (Coerce "float" float_);
                  Any [Length 58 58; Length 68 68]]);
  (u "Status", All [Coerce "int" int_; Range 0])
].

Definition X3_fields : list (str * validator) := [
  (u "type", str_);
  (u "SN", str_);
  (u "ver", str_);
  (u "Data", All [Seq (Coerce "float" float_); Length 103 103]);
  (u "Information", All [Length 9 9])
].


(** A validator that refuses reports at least one error. *)
Definition sound (f : validator) : Prop :=
  forall v es, f v = Raise (Invalid es) -> es <> [].

(** The exceptions a validator lets out: [Invalid], or the [OverflowError]
    of a conversion. *)
Definition validation_error (e : exn) : bool :=
  match e with
  | Invalid _ | OverflowError _ => true
  | _ => false
  end.

Definition guarded (f : validator) : Prop :=
  forall v e, f v = Raise e -> validation_error e = true.

(** What the conversions raise. *)
Definition conversion_error (e : exn) : bool :=
  match e with
  | ValueError _ | TypeError _ | OverflowError _ => true
  | _ => false
  end.


(** The readings a sensor map selects from a data array. *)
Definition readings_of (sm : SensorMap) (d : list value) : dict :=
  map (fun e => (fst e, nth (Z.to_nat (fst (snd e))) d PNone)) sm.

(** The steps of [make_request] that differ between the classes: the text
    given to [json.loads], the key of the firmware version, and the
    response built from the validated payload. *)
Definition parsed_text (c : Variant) (text : str) : str :=
  match c with
  | XHybrid => repair text
  | X3 => text
  end.

Definition version_key (c : Variant) : str :=
  match c with
  | XHybrid => u "version"
  | X3 => u "ver"
  end.

Definition InverterResponse_of (c : Variant) : value -> result InverterResponse :=
  match c with
  | XHybrid => XHybrid_InverterResponse
  | X3 => X3_InverterResponse
  end.

(** The length of the data array a schema guarantees at least. *)
Definition data_length (c : Variant) : Z :=
  match c with
  | XHybrid => 58
  | X3 => 103
  end.

(** Whether the strings of a list are pairwise distinct. *)
Fixpoint distinct (l : list str) : bool :=
  match l with
  | [] => true
  | x :: l' => negb (existsb (str_eqb x) l') && distinct l'
  end.

Definition indices (sm : SensorMap) : list Z := map (fun e => fst (snd e)) sm.

(** A dict has one item per key. *)
Definition distinct_keys (v : value) : Prop :=
  match v with
  | PDict d => NoDup (keys d)
  | _ => True
  end.

(** What a scanning function does with the text [s]: it returns an object
    for which [P] holds and a shorter text, or raises a [ValueError]. *)
Definition scanned {A} (P : A -> Prop) (s : str) (res : result (A * str)) : Prop :=
  match res with
  | Return (a, r) => (length r < length s)%nat /\ P a
  | Raise e => is_ValueError e = true
  end.

(** The response to a validated payload. *)
Definition Response (c : Variant) (sn ver ty : str) (fs : list float)
  : InverterResponse :=
  {| data := readings_of (sensor_map c) (map PFloat fs);
     serial_number := PStr sn; version := PStr ver; type := PStr ty |}.

(** What [get_data] does with the outcome of [make_request]. *)
Definition reported (o : result InverterResponse) : result InverterResponse :=
  match o with
  | Return r => Return r
  | Raise ex =>
      if is_ClientError ex then
        Raise (InverterError "Could not connect to inverter endpoint" ex)
      else if is_ValueError ex then
        Raise (InverterError "Received non-JSON data from inverter endpoint" ex)
      else if is_Invalid ex then
        Raise (InverterError "Received malformed JSON from inverter" ex)
      else Raise ex
  end.

(** The outcome of [make_request] for an answer of the network. *)
Definition requested (c : Variant) (a : Aio.answer) : result InverterResponse :=
  match a with
  | Aio.Body b => response_of c b
  | Aio.Failed msg => Raise (ClientError msg)
  end.


(** ** The text of a payload as fields between commas *)

Definition comma : N := 44.

(** The fields written one after the other with a comma in between. *)
Definition join (fields : list str) : str :=
  match fields with
  | [] => []
  | f :: rest => f ++ flat_map (fun g => comma :: g) rest
  end.

Definition comma_free (f : str) : Prop := ~ In comma f.

(** An omitted value written out. *)
Definition fill (f : str) : str :=
  match f with
  | [] => u "0.0"
  | _ :: _ => f
  end.

(** What one [replace(",,", ",0.0,")] does to the fields: an empty field
    that follows a comma not used by the replacement before it, and is
    itself followed by a comma, is filled. *)
Fixpoint fill_pass (fields : list str) : list str :=
  match fields with
  | [] => []
  | f :: rest =>
      f :: match rest with
           | [] :: ((_ :: _) as rest') => u "0.0" :: fill_pass rest'
           | _ => fill_pass rest
           end
  end.

(** Fields that begin and end with a value and have no two omitted values
    in a row. *)
Inductive sparse : list str -> Prop :=
| sparse_nil : sparse []
| sparse_one c f : sparse [c :: f]
| sparse_cons c f l : sparse l -> l <> [] -> sparse ((c :: f) :: l)
| sparse_gap c f l : sparse l -> l <> [] -> sparse ((c :: f) :: [] :: l).

(** The fields of a text: what stands between its commas. *)
Fixpoint split_commas (s : str) : list str :=
  match s with
  | [] => [[]]
  | c :: s' =>
      if N.eqb c comma then [] :: split_commas s'
      else match split_commas s' with
           | f :: fields => (c :: f) :: fields
           | [] => [[c]]
           end
  end.

(** ** What a caller of [discover] holds *)

(** Python gives no type to what a call returns: an adapter and a response
    are both objects. *)
Inductive object :=
| AnInverter (i : Inverter)
| AResponse (r : InverterResponse).

Definition discover_result (host : str) (port : Z) (w : Aio.World) : result object :=
  match fst (discover host port w) with
  | Return i => Return (AnInverter i)
  | Raise e => Raise e
  end.

Definition raises_InverterError {A} (o : result A) : bool :=
  match o with
  | Return _ => false
  | Raise e => is_InverterError e
  end.

(** ** Payloads and devices used as examples *)

(** The bytes of a text in which an apostrophe stands for the double quote
    of JSON. *)
Definition body (s : string) : bytes :=
  map (fun b => if Byte.eqb b x27 then x22 else b) (list_byte_of_string s).

(** [n] more values, all 0. *)
Definition zeros (n : nat) : bytes := concat (repeat (body ",0") n).

(** An XHybrid payload of 68 values that omits one, two and three values in
    a row. *)
Definition XHybrid_body : bytes :=
  body "{'method':'uploadsn','version':'Solax_SI_CH_2nd_20160912_DE02','type':'AL_SE','SN':'XXXXXXX','Data':[0.5,0.4,202.0,194.3,2.0,234.0,444,40,17.0,238.2,-15,93,78,56.01,-6.36,-357,27,92,,126.0,0,,,0,,,,0"
  ++ zeros 22
  ++ body ",50.02,0,0,0.0"
  ++ zeros 14
  ++ body "],'Status':2}".

(** An X3 payload. *)
Definition X3_body : bytes :=
  body "{'type':'X3-Hybiz','SN':'YYYYYYY','ver':'2.033.20','Data':[0.0,0.0,0.0,0.0,0.9,234.0,26,31,1.5,9.7,-3,0,0,50.75,-5.9,-32,24,0.0,0.0,0.0,0.0,77"
  ++ zeros 19
  ++ body ",41.6,52.9,12,7,7,0.3,0.3,233.1,234.2,50.04,50.03,50.04,0.0,0.0"
  ++ zeros 48
  ++ body "],'Information':[8.000,5,'X3-Hybiz','YYYYYYY',1,3.25,1.09,1.10,0.00]}".

(** An XHybrid payload of 58 values whose first value is the integer
    [10^400]. *)
Definition XHybrid_big_body : bytes :=
  body "{'method':'uploadsn','version':'v1','type':'AL_SE','SN':'XXXXXXX','Data':["
  ++ list_byte_of_string (dec (10 ^ 400))
  ++ zeros 57
  ++ body "],'Status':2}".

(** The same payload with 0 as its first value. *)
Definition XHybrid_small_body : bytes :=
  body "{'method':'uploadsn','version':'v1','type':'AL_SE','SN':'XXXXXXX','Data':["
  ++ list_byte_of_string (dec 0)
  ++ zeros 57
  ++ body "],'Status':2}".

(** An XHybrid payload whose serial number holds two commas in a row. *)
Definition XHybrid_commas_body : bytes :=
  body "{'method':'uploadsn','version':'v1','type':'AL_SE','SN':'AB,,CD','Data':[0"
  ++ zeros 57
  ++ body "],'Status':2}".

(** A device that answers GET requests with [get] and POST requests with
    [post], whatever was asked before. *)
Definition device (get post : Aio.answer) : Aio.World :=
  {| Aio.network := fun _ r =>
       match Aio.req_method r with
       | Aio.GET => get
       | Aio.POST => post
       end;
     Aio.log := [] |}.

Definition refused : Aio.answer := Aio.Failed "Cannot connect to host".

Definition XHybrid_device : Aio.World := device (Aio.Body XHybrid_body) refused.

Definition X3_device : Aio.World := device refused (Aio.Body X3_body).

Definition nothing_there : Aio.World := device refused refused.

Definition address : str := u "192.168.1.20".

Definition at_address (c : Variant) : Inverter :=
  {| cls := c; host := address; port := 80 |}.

(** The items of the example payloads, as [json.loads] returns them. *)
Definition items_of (c : Variant) (b : bytes) : dict :=
  match bind (decode_utf8 b) (fun text => Json.loads (parsed_text c text)) with
  | Return (PDict items) => items
  | _ => []
  end.

Definition XHybrid_items : dict := Eval vm_compute in items_of XHybrid XHybrid_body.

Definition X3_items : dict := Eval vm_compute in items_of X3 X3_body.

(** The values of the [Data] field of some items, and their floats. *)
Definition data_of (items : dict) : list value :=
  match dict_get items (u "Data") with
  | Some (PList l) => l
  | _ => []
  end.

Definition floats (l : list value) : list float :=
  flat_map (fun x => match py_float x with Return f => [f] | Raise _ => [] end) l.

Definition text_of (v : option value) : str :=
  match v with
  | Some (PStr s) => s
  | _ => []
  end.

(** The validated array is as long as the schema guarantees. *)
Definition payload_length_ok (c : Variant) (fs : list float) : Prop :=
  data_length c <= Z.of_nat (length fs).

(** The text of a body, empty when it is not UTF-8. *)
Definition items_text (b : bytes) : str :=
  match decode_utf8 b with
  | Return text => text
  | Raise _ => []
  end.

(** ** Notions used by the further properties *)

(** Whether [i] is an index of [l], and the element [l[i]] it selects: a
    negative index counts from the end. *)
Definition valid_index (l : list value) (i : Z) : bool :=
  (- Z.of_nat (length l) <=? i) && (i <? Z.of_nat (length l)).

Definition item_at (l : list value) (i : Z) : value :=
  nth (Z.to_nat (if i <? 0 then i + Z.of_nat (length l) else i)) l PNone.

(** The readings of a sensor map whose indices may be negative. *)
Definition selected (sm : SensorMap) (l : list value) : dict :=
  map (fun e => (fst e, item_at l (fst (snd e)))) sm.

(** Whether a text holds two commas in a row. *)
Fixpoint double_comma (s : str) : bool :=
  match s with
  | [] => false
  | c :: s' =>
      match s' with
      | [] => false
      | c' :: _ => (N.eqb c comma && N.eqb c' comma) || double_comma s'
      end
  end.

(** The fields of the schema of a class. *)
Definition schema_fields (c : Variant) : list (str * validator) :=
  match c with
  | XHybrid => XHybrid_fields
  | X3 => X3_fields
  end.

(** The XHybrid example with the first 58 of its values only, another
    method and the status written as a string. *)
Definition XHybrid_short_items : dict :=
  dict_set
    (dict_set
       (dict_set XHybrid_items (u "Data") (PList (firstn 58 (data_of XHybrid_items))))
       (u "Status") (PStr (u "7")))
    (u "method") (PStr (u "other")).

(** The adapters that [discover] makes from a registry. *)
Definition adapters (registry : list Variant) (host : str) (port : Z) : list Inverter :=
  map (fun inverter => {| cls := inverter; host := host; port := port |}) registry.

(** A device whose answer to a request does not depend on the requests made
    before. *)
Definition stateless (w : Aio.World) : Prop :=
  forall l l' r, Aio.network w l r = Aio.network w l' r.

(** The method and the path of the request of a class. *)
Definition method_of (c : Variant) : Aio.http_method :=
  match c with
  | XHybrid => Aio.GET
  | X3 => Aio.POST
  end.

Definition path_of (c : Variant) : str :=
  match c with
  | XHybrid => u "/api/realTimeData.htm"
  | X3 => u "/?optType=ReadRealTimeData"
  end.

(** A device that answers every request with a JSON array. *)
Definition array_device : Aio.World :=
  device (Aio.Body (body "[0,0]")) (Aio.Body (body "[0,0]")).

(* ================================================================== *)
(** * Properties of the Python model *)
(* ================================================================== *)

Lemma str_eqb_eq (a b : str) : str_eqb a b = true <-> a = b.
Proof.
  unfold str_eqb. destruct (list_eq_dec N.eq_dec a b); split; congruence.
Qed.

Lemma str_eqb_refl (a : str) : str_eqb a a = true.
Proof. apply str_eqb_eq. reflexivity. Qed.

Lemma str_eqb_neq (a b : str) : str_eqb a b = false <-> a <> b.
Proof.
  unfold str_eqb. destruct (list_eq_dec N.eq_dec a b); split; congruence.
Qed.

Section Dicts.
Context {A : Type}.
Implicit Types (d : list (str * A)) (k : str) (v : A).

Lemma dict_get_set_same d k v : dict_get (dict_set d k v) k = Some v.
Proof.
  induction d as [|[k' v'] d IH]; simpl.
  - now rewrite str_eqb_refl.
  - destruct (str_eqb k k') eqn:E; simpl; rewrite E; auto.
Qed.

Lemma dict_get_set_other d k k' v :
  k <> k' -> dict_get (dict_set d k' v) k = dict_get d k.
Proof.
  intros Hne. induction d as [|[k0 v0] d IH]; simpl.
  - apply str_eqb_neq in Hne. now rewrite Hne.
  - destruct (str_eqb k' k0) eqn:E; simpl.
    + apply str_eqb_eq in E. subst k0. apply str_eqb_neq in Hne.
      now rewrite Hne.
    + now rewrite IH.
Qed.

Lemma dict_get_Some_In d k v : dict_get d k = Some v -> In (k, v) d.
Proof.
  induction d as [|[k' v'] d IH]; simpl; [discriminate|].
  destruct (str_eqb k k') eqn:E.
  - apply str_eqb_eq in E. intros [= ->]. subst. now left.
  - auto.
Qed.

Lemma dict_get_None d k : dict_get d k = None <-> ~ In k (keys d).
Proof.
  induction d as [|[k' v'] d IH]; simpl; [tauto|].
  destruct (str_eqb k k') eqn:E.
  - apply str_eqb_eq in E. subst. split; [discriminate | tauto].
  - apply str_eqb_neq in E. rewrite IH. intuition congruence.
Qed.

Lemma dict_get_In_keys d k : In k (keys d) <-> exists v, dict_get d k = Some v.
Proof.
  destruct (dict_get d k) as [v|] eqn:E.
  - split; [eauto|]. intros _. apply dict_get_Some_In in E.
    apply (in_map fst) in E. exact E.
  - apply dict_get_None in E. split; [tauto | intros [v Hv]; discriminate].
Qed.

Lemma In_dict_get d k v : NoDup (keys d) -> In (k, v) d -> dict_get d k = Some v.
Proof.
  induction d as [|[k' v'] d IH]; simpl; [tauto|].
  intros Hnd [Heq | Hin].
  - injection Heq as -> ->. now rewrite str_eqb_refl.
  - inversion Hnd as [|? ? Hni Hnd']; subst.
    destruct (str_eqb k k') eqn:E; [|auto].
    apply str_eqb_eq in E. subst. exfalso. apply Hni.
    apply (in_map fst) in Hin. exact Hin.
Qed.

Lemma dict_set_fresh d k v : ~ In k (keys d) -> dict_set d k v = d ++ [(k, v)].
Proof.
  induction d as [|[k' v'] d IH]; simpl; [reflexivity|].
  intros Hni. destruct (str_eqb k k') eqn:E.
  - apply str_eqb_eq in E. subst. tauto.
  - rewrite IH; tauto.
Qed.

Lemma keys_dict_set_old d k v : In k (keys d) -> keys (dict_set d k v) = keys d.
Proof.
  induction d as [|[k' v'] d IH]; simpl; [tauto|].
  destruct (str_eqb k k') eqn:E; simpl; [reflexivity|].
  apply str_eqb_neq in E. intros [Heq | Hin]; [congruence|].
  f_equal. now apply IH.
Qed.

Lemma NoDup_dict_set d k v : NoDup (keys d) -> NoDup (keys (dict_set d k v)).
Proof.
  intros Hnd. destruct (in_dec (list_eq_dec N.eq_dec) k (keys d)) as [Hin | Hni].
  - now rewrite keys_dict_set_old.
  - rewrite dict_set_fresh by assumption. unfold keys. rewrite map_app. simpl.
    apply NoDup_app; [assumption | repeat constructor; simpl; tauto |].
    intros x Hx [<- | []]. apply Hni. exact Hx.
Qed.

Lemma NoDup_fold_dict_set (pairs acc : list (str * A)) :
  NoDup (keys acc) ->
  NoDup (keys (fold_left (fun d kv => dict_set d (fst kv) (snd kv)) pairs acc)).
Proof.
  revert acc. induction pairs as [|[k v] pairs IH]; simpl; intros acc Hnd.
  - exact Hnd.
  - apply IH. now apply NoDup_dict_set.
Qed.

Lemma NoDup_dict_of_pairs (pairs : list (str * A)) : NoDup (keys (dict_of_pairs pairs)).
Proof. apply NoDup_fold_dict_set. constructor. Qed.

Lemma fold_dict_set_fresh (pairs acc : list (str * A)) :
  NoDup (keys (acc ++ pairs)) ->
  fold_left (fun d kv => dict_set d (fst kv) (snd kv)) pairs acc = acc ++ pairs.
Proof.
  revert acc. induction pairs as [|[k v] pairs IH]; simpl; intros acc Hnd.
  - now rewrite app_nil_r.
  - assert (Hni : ~ In k (keys acc)).
    { unfold keys in *. rewrite map_app in Hnd. simpl in Hnd.
      apply NoDup_remove_2 in Hnd. intros Hin. apply Hnd. apply in_or_app. now left. }
    rewrite dict_set_fresh by assumption.
    rewrite IH; rewrite <- app_assoc; simpl; [reflexivity | exact Hnd].
Qed.

(** A dict whose keys are distinct is what [dict] builds from its items. *)
Lemma dict_of_pairs_id d : NoDup (keys d) -> dict_of_pairs d = d.
Proof. intros Hnd. unfold dict_of_pairs. now rewrite fold_dict_set_fresh. Qed.

End Dicts.

(* ================================================================== *)
(** * Properties of [json.loads] *)
(* ================================================================== *)

Lemma after_length word s r :
  Json.after word s = Some r -> length s = (length word + length r)%nat.
Proof.
  revert s. induction word as [|a w IH]; simpl; intros s H.
  - now inversion H.
  - destruct s as [|b s]; [discriminate|].
    destruct (N.eqb a b); [|discriminate]. simpl. f_equal. auto.
Qed.

Lemma skip_ws_length s : (length (Json.skip_ws s) <= length s)%nat.
Proof.
  induction s as [|c s IH]; simpl; [lia|].
  destruct (Json.is_ws c); simpl; lia.
Qed.

Lemma span_digits_length s ds r :
  span_digits s = (ds, r) -> length s = (length ds + length r)%nat.
Proof.
  revert ds r. induction s as [|c s IH]; simpl; intros ds r H.
  - now inversion H.
  - destruct (is_digit c).
    + destruct (span_digits s) as [ds' r'] eqn:E. inversion H. subst.
      simpl. f_equal. now apply IH.
    + inversion H. reflexivity.
Qed.

Lemma scanned_error {A} (P : A -> Prop) s msg : scanned P s (Json.decode_error msg).
Proof. reflexivity. Qed.

Lemma scanned_push {A} (P Q : list A -> Prop) s s' c m :
  scanned P s' m -> (length s' <= length s)%nat ->
  (forall t, P t -> Q (c :: t)) ->
  scanned Q s (Json.push c m).
Proof.
  unfold scanned, Json.push. destruct m as [[t r] | e]; simpl; [|auto].
  intros [Hr Ht] Hs HQ. split; [lia | auto].
Qed.

Lemma scanned_shorter {A} (P : A -> Prop) s s' m :
  scanned P s' m -> (length s' <= length s)%nat -> scanned P s m.
Proof.
  unfold scanned. destruct m as [[a r] | e]; [|auto]. intros [Hr Ha] Hs. split; [lia | auto].
Qed.

(** A string is read up to its closing quote, or refused. *)
Lemma scanstring_scanned s : scanned (fun _ => True) s (Json.scanstring s).
Proof.
  remember (length s) as n eqn:Hn. revert s Hn.
  induction n as [n IH] using lt_wf_ind. intros s Hn.
  assert (Hrec : forall c s', (length s' < length s)%nat ->
                   scanned (fun _ : str => True) s (Json.push c (Json.scanstring s'))).
  { intros c s' Hs'. apply (scanned_push (fun _ => True) (fun _ => True) s s');
      [eapply IH; eauto; lia | lia | auto]. }
  destruct s as [|c r]; [apply scanned_error|].
  cbn [Json.scanstring].
  repeat match goal with
         | |- scanned _ _ (Json.decode_error _) => apply scanned_error
         | |- scanned _ _ (Json.push _ _) => apply Hrec; simpl in *; lia
         | |- scanned _ _ (Return _) => simpl; split; [lia | exact I]
         | |- scanned _ _ (if ?c then _ else _) => destruct c
         | |- scanned _ _ (match ?x with _ => _ end) => destruct x
         end.
Qed.

Lemma float_of_str_ValueError s e : float_of_str s = Raise e -> is_ValueError e = true.
Proof.
  unfold float_of_str. intros H.
  repeat match type of H with
         | match ?c with _ => _ end = _ => destruct c
         | (let (_, _) := ?c in _) = _ => destruct c
         end; inversion H; reflexivity.
Qed.

Lemma int_of_str_ValueError s e : int_of_str s = Raise e -> is_ValueError e = true.
Proof.
  unfold int_of_str. intros H.
  repeat match type of H with
         | match ?c with _ => _ end = _ => destruct c
         | (let (_, _) := ?c in _) = _ => destruct c
         end; inversion H; reflexivity.
Qed.

Lemma match_integer_length s tok r :
  Json.match_integer s = Some (tok, r) -> (length r < length s)%nat.
Proof.
  unfold Json.match_integer. destruct s as [|c s]; [discriminate|].
  destruct (N.eqb c 48); [intros H; inversion H; simpl; lia|].
  destruct (in_range 49 57 c); [|discriminate].
  destruct (span_digits s) as [ds r'] eqn:E. intros H. inversion H. subst.
  apply span_digits_length in E. simpl. lia.
Qed.

Lemma digits1_length s ds r :
  Json.digits1 s = Some (ds, r) -> (length r <= length s)%nat.
Proof.
  unfold Json.digits1. destruct (span_digits s) as [[|d ds'] r'] eqn:E; [discriminate|].
  intros H. inversion H. subst. apply span_digits_length in E. lia.
Qed.

Lemma match_frac_length s tok r :
  Json.match_frac s = (tok, r) -> (length r <= length s)%nat.
Proof.
  unfold Json.match_frac. destruct (Json.after (u ".") s) as [r0|] eqn:E.
  - apply after_length in E. destruct (Json.digits1 r0) as [[ds r']|] eqn:Ed.
    + apply digits1_length in Ed. intros H. inversion H. subst. lia.
    + intros H. inversion H. lia.
  - intros H. inversion H. lia.
Qed.

Lemma match_exp_length s tok r :
  Json.match_exp s = (tok, r) -> (length r <= length s)%nat.
Proof.
  unfold Json.match_exp. destruct s as [|e s]; [intros H; inversion H; simpl; lia|].
  destruct (N.eqb e 101 || N.eqb e 69)%bool; [|intros H; inversion H; lia].
  destruct (Json.after (u "+") s) as [t|] eqn:E1.
  - apply after_length in E1. destruct (Json.digits1 t) as [[ds t']|] eqn:Ed.
    + apply digits1_length in Ed. intros H. inversion H. subst. simpl. lia.
    + intros H. inversion H. lia.
  - destruct (Json.after (u "-") s) as [t|] eqn:E2.
    + apply after_length in E2. destruct (Json.digits1 t) as [[ds t']|] eqn:Ed.
      * apply digits1_length in Ed. intros H. inversion H. subst. simpl. lia.
      * intros H. inversion H. lia.
    + destruct (Json.digits1 s) as [[ds t']|] eqn:Ed.
      * apply digits1_length in Ed. intros H. inversion H. subst. simpl. lia.
      * intros H. inversion H. lia.
Qed.

Lemma match_number_length s tok b r :
  Json.match_number s = Some (tok, b, r) -> (length r < length s)%nat.
Proof.
  unfold Json.match_number.
  destruct (Json.after (u "-") s) as [r0|] eqn:E0.
  - apply after_length in E0.
    destruct (Json.match_integer r0) as [[ip r1]|] eqn:E1; [|discriminate].
    apply match_integer_length in E1.
    destruct (Json.match_frac r1) as [frac r2] eqn:E2. apply match_frac_length in E2.
    destruct (Json.match_exp r2) as [exp r3] eqn:E3. apply match_exp_length in E3.
    intros H. inversion H. subst. lia.
  - destruct (Json.match_integer s) as [[ip r1]|] eqn:E1; [|discriminate].
    apply match_integer_length in E1.
    destruct (Json.match_frac r1) as [frac r2] eqn:E2. apply match_frac_length in E2.
    destruct (Json.match_exp r2) as [exp r3] eqn:E3. apply match_exp_length in E3.
    intros H. inversion H. subst. lia.
Qed.

Lemma scan_atom_scanned s : scanned distinct_keys s (Json.scan_atom s).
Proof.
  unfold Json.scan_atom.
  repeat match goal with
         | |- scanned _ _ (match Json.after ?w s with _ => _ end) =>
             let E := fresh "E" in
             destruct (Json.after w s) eqn:E;
             [apply after_length in E; simpl in E; simpl; split; [lia | exact I]|]
         end.
  - destruct (Json.match_number s) as [[[tok b] r]|] eqn:En.
    + apply match_number_length in En. unfold Json.number_value.
      destruct b.
      * destruct (float_of_str tok) as [f | e] eqn:Ef; simpl; [split; [lia | exact I]|].
        eapply float_of_str_ValueError; eauto.
      * destruct (int_of_str tok) as [z | e] eqn:Ez; simpl; [split; [lia | exact I]|].
        eapply int_of_str_ValueError; eauto.
    + repeat match goal with
             | |- scanned _ _ (match Json.after ?w s with _ => _ end) =>
                 let E := fresh "E" in
                 destruct (Json.after w s) eqn:E;
                 [apply after_length in E; simpl in E; simpl; split; [lia | exact I]|]
             end.
      apply scanned_error.
Qed.


(** [after_len E] turns [E : after word s = Some r] into the equation
    between the lengths. *)
Ltac after_len E :=
  apply after_length in E;
  repeat match type of E with
         | context [length (u ?w)] =>
             let n := eval vm_compute in (length (u w)) in
             change (length (u w)) with n in E
         end;
  cbn [length] in E.

#[local] Arguments Json.after : simpl never.
#[local] Arguments Json.skip_ws : simpl never.
#[local] Arguments Json.scanstring : simpl never.
#[local] Arguments Json.scan_atom : simpl never.
#[local] Arguments u : simpl never.

(** With two units of fuel per character, the scanner does not run out:
    each call returns an object and a shorter text, or raises a
    [ValueError]; a dict it returns has one item per key. *)
Lemma scan_scanned (n : nat) :
  (forall s, (2 * length s + 1 <= n)%nat ->
             scanned distinct_keys s (Json.scan_once n s)) /\
  (forall pairs s, (2 * length s + 2 <= n)%nat ->
             scanned distinct_keys s (Json.object_items n pairs s)) /\
  (forall values s, (2 * length s + 2 <= n)%nat ->
             scanned distinct_keys s (Json.array_items n values s)).
Proof.
  induction n as [|n (IHs & IHo & IHa)].
  - repeat split; intros; lia.
  - repeat split.
    + (* scan_once *)
      intros s Hn. destruct s as [|c r]; [apply scanned_error|].
      cbn [Json.scan_once]. simpl in Hn.
      destruct (N.eqb c 34).
      { pose proof (scanstring_scanned r) as Hs.
        destruct (Json.scanstring r) as [[t r']|e]; simpl in *; [|exact Hs].
        split; [lia | exact I]. }
      destruct (N.eqb c 123).
      { pose proof (skip_ws_length r) as Hw.
        destruct (Json.after (u "}") (Json.skip_ws r)) as [r'|] eqn:E1.
        { after_len E1. simpl in *. split; [lia | constructor]. }
        destruct (Json.after [34%N] (Json.skip_ws r)) as [r'|] eqn:E2;
          [|apply scanned_error].
        after_len E2.
        eapply scanned_shorter; [apply IHo|]; simpl; lia. }
      destruct (N.eqb c 91).
      { pose proof (skip_ws_length r) as Hw.
        destruct (Json.after (u "]") (Json.skip_ws r)) as [r'|] eqn:E1.
        { after_len E1. simpl in *. split; [lia | exact I]. }
        eapply scanned_shorter; [apply IHa|]; simpl; lia. }
      apply scan_atom_scanned.
    + (* object_items *)
      intros pairs s Hn. cbn [Json.object_items].
      pose proof (scanstring_scanned s) as Hs.
      destruct (Json.scanstring s) as [[key r0]|e]; simpl in *; [|exact Hs].
      destruct Hs as [Hr0 _]. pose proof (skip_ws_length r0) as Hw0.
      destruct (Json.after (u ":") (Json.skip_ws r0)) as [r1|] eqn:E1;
        [|apply scanned_error].
      after_len E1.
      pose proof (skip_ws_length r1) as Hw1.
      assert (Hv : scanned distinct_keys (Json.skip_ws r1)
                     (Json.scan_once n (Json.skip_ws r1))) by (apply IHs; lia).
      destruct (Json.scan_once n (Json.skip_ws r1)) as [[v r2]|e]; simpl in *;
        [|exact Hv].
      destruct Hv as [Hr2 _]. pose proof (skip_ws_length r2) as Hw2.
      destruct (Json.after (u "}") (Json.skip_ws r2)) as [r3|] eqn:E3.
      { after_len E3. simpl in *. split; [lia|].
        apply NoDup_dict_of_pairs. }
      destruct (Json.after (u ",") (Json.skip_ws r2)) as [r3|] eqn:E4;
        [|apply scanned_error].
      after_len E4.
      pose proof (skip_ws_length r3) as Hw3.
      destruct (Json.after [34%N] (Json.skip_ws r3)) as [r4|] eqn:E5;
        [|apply scanned_error].
      after_len E5.
      eapply scanned_shorter; [apply IHo|]; lia.
    + (* array_items *)
      intros values s Hn. cbn [Json.array_items].
      assert (Hv : scanned distinct_keys s (Json.scan_once n s)) by (apply IHs; lia).
      destruct (Json.scan_once n s) as [[v r]|e]; simpl in *; [|exact Hv].
      destruct Hv as [Hr _]. pose proof (skip_ws_length r) as Hw.
      destruct (Json.after (u "]") (Json.skip_ws r)) as [r1|] eqn:E1.
      { after_len E1. simpl in *. split; [lia | exact I]. }
      destruct (Json.after (u ",") (Json.skip_ws r)) as [r1|] eqn:E2;
        [|apply scanned_error].
      after_len E2.
      pose proof (skip_ws_length r1) as Hw1.
      eapply scanned_shorter; [apply IHa|]; lia.
Qed.

(** [json.loads] returns an object or raises a [ValueError]
    ([JSONDecodeError]); a dict it returns has one item per key. *)
Lemma loads_outcome s :
  match Json.loads s with
  | Return v => distinct_keys v
  | Raise e => is_ValueError e = true
  end.
Proof.
  unfold Json.loads. destruct (Json.after [65279%N] s); [reflexivity|].
  pose proof (skip_ws_length s) as Hw.
  assert (H : scanned distinct_keys (Json.skip_ws s)
                (Json.scan_once (2 * length s + 2) (Json.skip_ws s)))
    by (apply scan_scanned; lia).
  destruct (Json.scan_once _ _) as [[v r]|e]; simpl in *; [|exact H].
  destruct (Json.skip_ws r); [tauto | reflexivity].
Qed.

Lemma loads_NoDup s items : Json.loads s = Return (PDict items) -> NoDup (keys items).
Proof. intros H. pose proof (loads_outcome s) as Ho. now rewrite H in Ho. Qed.

Lemma loads_ValueError s e : Json.loads s = Raise e -> is_ValueError e = true.
Proof. intros H. pose proof (loads_outcome s) as Ho. now rewrite H in Ho. Qed.

(** [bytes.decode] raises nothing but [UnicodeDecodeError]. *)
Lemma decode_utf8_ValueError bs e : decode_utf8 bs = Raise e -> is_ValueError e = true.
Proof.
  remember (length bs) as n eqn:Hn. revert bs Hn e.
  induction n as [n IH] using lt_wf_ind. intros bs Hn e.
  assert (Hrec : forall bs' (k : str -> result str) e,
             (length bs' < length bs)%nat ->
             (forall t e, k t <> Raise e) ->
             bind (decode_utf8 bs') k = Raise e -> is_ValueError e = true).
  { intros bs' k e' Hlt Hk H. destruct (decode_utf8 bs') as [t|e0] eqn:E; simpl in H.
    - now apply Hk in H.
    - inversion H. subst. eapply (IH (length bs')); [lia | reflexivity | exact E]. }
  destruct bs as [|b0 r0]; [discriminate|]. cbn [decode_utf8].
  intros H.
  repeat match type of H with
         | bad_utf8 = _ => inversion H; reflexivity
         | bind (decode_utf8 _) _ = _ =>
             apply Hrec in H; [exact H | simpl; lia | discriminate]
         | (if ?c then _ else _) = _ => destruct c
         | match ?x with _ => _ end = _ => destruct x
         end.
Qed.

(* ================================================================== *)
(** * Properties of the validators *)
(* ================================================================== *)

(** Decides the tests of a hypothesis [H] that is a chain of conditionals. *)
Ltac split_ifs H :=
  unfold invalid in H;
  repeat match type of H with
         | (if ?c then _ else _) = _ => destruct c eqn:?
         | match (if ?c then _ else _) with _ => _ end = _ => destruct c eqn:?
         end.

Lemma str__sound : sound str_.
Proof. intros [] es H; unfold str_, invalid in H; inversion H; easy. Qed.

Lemma str__guarded : guarded str_.
Proof. intros [] e H; unfold str_, invalid in H; inversion H; reflexivity. Qed.

Lemma float_of_str_error s e : float_of_str s = Raise e -> conversion_error e = true.
Proof.
  unfold float_of_str. intros H.
  repeat match type of H with
         | match ?c with _ => _ end = _ => destruct c
         | (let (_, _) := ?c in _) = _ => destruct c
         end; inversion H; reflexivity.
Qed.

Lemma int_of_str_error s e : int_of_str s = Raise e -> conversion_error e = true.
Proof.
  unfold int_of_str. intros H.
  repeat match type of H with
         | match ?c with _ => _ end = _ => destruct c
         | (let (_, _) := ?c in _) = _ => destruct c
         end; inversion H; reflexivity.
Qed.

Lemma float__error v e : float_ v = Raise e -> conversion_error e = true.
Proof.
  unfold float_, py_float, float_of_int. intros H.
  destruct v; simpl in H;
    try (inversion H; reflexivity);
    try (destruct (binary_normalize _ _ _ _ _); inversion H; reflexivity).
  destruct (float_of_str s) eqn:E; inversion H. subst.
  eapply float_of_str_error; eauto.
Qed.

Lemma int__error v e : int_ v = Raise e -> conversion_error e = true.
Proof.
  unfold int_, py_int, int_of_float. intros H.
  destruct v; simpl in H; try (inversion H; reflexivity).
  - destruct f; inversion H; reflexivity.
  - destruct (int_of_str s) eqn:E; inversion H. subst.
    eapply int_of_str_error; eauto.
Qed.

Lemma Coerce_sound name type :
  (forall v e, type v = Raise e -> conversion_error e = true) ->
  sound (Coerce name type).
Proof.
  intros Ht v es H. unfold Coerce in H. destruct (type v) as [x | e] eqn:E; [discriminate|].
  split_ifs H; inversion H; [easy|]. subst e. apply Ht in E. discriminate.
Qed.

Lemma Coerce_guarded name type :
  (forall v e, type v = Raise e -> conversion_error e = true) ->
  guarded (Coerce name type).
Proof.
  intros Ht v e H. unfold Coerce in H. destruct (type v) as [x | e'] eqn:E; [discriminate|].
  split_ifs H; inversion H; [reflexivity|]. subst e'. apply Ht in E.
  destruct e; try discriminate; reflexivity.
Qed.

Lemma Length_sound a b : sound (Length a b).
Proof.
  intros v es H. unfold Length in H.
  destruct v; simpl in H; split_ifs H; inversion H; easy.
Qed.

Lemma Length_guarded a b : guarded (Length a b).
Proof.
  intros v e H. unfold Length in H.
  destruct v; simpl in H; split_ifs H; inversion H; reflexivity.
Qed.

Lemma Range_sound a : sound (Range a).
Proof.
  intros v es H. unfold Range in H.
  destruct v; simpl in H; split_ifs H; inversion H; easy.
Qed.

Lemma Range_guarded a : guarded (Range a).
Proof.
  intros v e H. unfold Range in H.
  destruct v; simpl in H; split_ifs H; inversion H; reflexivity.
Qed.

Lemma All_sound vs : Forall sound vs -> sound (All vs).
Proof.
  induction 1 as [|f vs Hf _ IH]; intros v es H; simpl in H; [discriminate|].
  destruct (f v) as [x | e] eqn:E; simpl in H.
  - eapply IH; eauto.
  - inversion H. subst e. eapply Hf; eauto.
Qed.

Lemma All_guarded vs : Forall guarded vs -> guarded (All vs).
Proof.
  induction 1 as [|f vs Hf _ IH]; intros v e H; simpl in H; [discriminate|].
  destruct (f v) as [x | e'] eqn:E; simpl in H.
  - eapply IH; eauto.
  - inversion H. subst e'. eapply Hf; eauto.
Qed.

Lemma Any_from_sound error vs :
  (forall es, error = Some (Invalid es) -> es <> []) ->
  Forall sound vs -> sound (Any_from error vs).
Proof.
  intros He Hvs. revert error He.
  induction Hvs as [|f vs Hf _ IH]; intros error He v es H; simpl in H.
  - destruct error as [e|]; inversion H; [|easy]. subst e. now apply He.
  - destruct (f v) as [x | e] eqn:E; [discriminate|].
    destruct (is_Invalid e) eqn:Ei.
    + eapply IH; [|exact H]. intros es' Hes'.
      destruct error as [e0|]; [now apply He|].
      inversion Hes'. subst e. eapply Hf; eauto.
    + inversion H. subst e. discriminate.
Qed.

Lemma Any_sound vs : Forall sound vs -> sound (Any vs).
Proof. apply Any_from_sound. discriminate. Qed.

Lemma Any_from_guarded error vs :
  (forall e, error = Some e -> validation_error e = true) ->
  Forall guarded vs -> guarded (Any_from error vs).
Proof.
  intros He Hvs. revert error He.
  induction Hvs as [|f vs Hf _ IH]; intros error He v e H; simpl in H.
  - destruct error as [e0|]; inversion H; [|reflexivity]. subst e0. now apply He.
  - destruct (f v) as [x | e'] eqn:E; [discriminate|].
    destruct (is_Invalid e') eqn:Ei.
    + eapply IH; [|exact H]. intros e0 He0.
      destruct error as [e1|]; [now apply He|].
      inversion He0. subst e'. eapply Hf; eauto.
    + inversion H. subst e'. eapply Hf; eauto.
Qed.

Lemma Any_guarded vs : Forall guarded vs -> guarded (Any vs).
Proof. apply Any_from_guarded. discriminate. Qed.

(** ** Lists *)

Lemma validate_sequence_accepts elem data out :
  Forall2 (fun x y => elem x = Return y) data out ->
  validate_sequence elem data = Return (out, []).
Proof.
  induction 1 as [|x y data out Hxy _ IH]; simpl; [reflexivity|].
  now rewrite Hxy, IH.
Qed.

Lemma validate_sequence_Return elem data out :
  sound elem ->
  validate_sequence elem data = Return (out, []) ->
  Forall2 (fun x y => elem x = Return y) data out.
Proof.
  intros Hs. revert out. induction data as [|x data IH]; simpl; intros out H.
  - inversion H. constructor.
  - destruct (elem x) as [cval | e] eqn:E.
    + destruct (validate_sequence elem data) as [[o es] | e']; [|discriminate].
      simpl in H. inversion H. subst. constructor; auto.
    + destruct e; try discriminate.
      destruct (validate_sequence elem data) as [[o es] | e']; [|discriminate].
      simpl in H. inversion H. subst.
      apply Hs in E. destruct errors; [tauto | discriminate].
Qed.

Lemma validate_sequence_guarded elem data e :
  guarded elem -> validate_sequence elem data = Raise e -> validation_error e = true.
Proof.
  intros Hg. induction data as [|x data IH]; simpl; intros H; [discriminate|].
  destruct (elem x) as [cval | e0] eqn:E.
  - destruct (validate_sequence elem data) as [[o es] | e']; [discriminate|].
    inversion H. subst. auto.
  - destruct e0;
      try (inversion H; subst; apply Hg in E; exact E).
    destruct (validate_sequence elem data) as [[o es] | e']; [discriminate|].
    inversion H. subst. auto.
Qed.

Lemma Seq_accepts elem data out :
  Forall2 (fun x y => elem x = Return y) data out ->
  Seq elem (PList data) = Return (PList out).
Proof.
  intros H. unfold Seq. now rewrite (validate_sequence_accepts _ _ _ H).
Qed.

Lemma Seq_Return elem v r :
  sound elem -> Seq elem v = Return r ->
  exists data out, v = PList data /\ r = PList out /\
                   Forall2 (fun x y => elem x = Return y) data out.
Proof.
  intros Hs H. unfold Seq in H.
  destruct v as [| | | | | data |]; try discriminate.
  destruct (validate_sequence elem data) as [[out es] | e] eqn:E; [|discriminate].
  simpl in H. destruct es; [|discriminate]. inversion H. subst.
  exists data, out. repeat split. now apply validate_sequence_Return.
Qed.

Lemma Seq_sound elem : sound (Seq elem).
Proof.
  intros v es H. unfold Seq, invalid in H.
  destruct v as [| | | | | data |]; try (inversion H; easy).
  destruct (validate_sequence elem data) as [[out es'] | e] eqn:E.
  - simpl in H. destruct es'; inversion H. easy.
  - simpl in H. inversion H. subst. clear H.
    revert es E. induction data as [|x data IH]; simpl; intros es E; [discriminate|].
    destruct (elem x) as [cval | e0] eqn:Ex.
    + destruct (validate_sequence elem data) as [[o es0] | e']; [discriminate|].
      inversion E. subst. now apply IH.
    + destruct e0; try discriminate.
      destruct (validate_sequence elem data) as [[o es0] | e']; [discriminate|].
      inversion E. subst. now apply IH.
Qed.

Lemma Seq_guarded elem : guarded elem -> guarded (Seq elem).
Proof.
  intros Hg v e H. unfold Seq, invalid in H.
  destruct v as [| | | | | data |]; try (inversion H; reflexivity).
  destruct (validate_sequence elem data) as [[out es'] | e'] eqn:E.
  - simpl in H. destruct es'; inversion H. reflexivity.
  - simpl in H. inversion H. subst. eapply validate_sequence_guarded; eauto.
Qed.

(** ** Dicts *)

Section Mapping.
Variable schema : list (str * validator).

Lemma validate_mapping_errors items out errors required o e r :
  validate_mapping schema items out errors required = Return (o, e, r) ->
  exists e', e = errors ++ e'.
Proof.
  revert out errors required.
  induction items as [|[key v] rest IH]; simpl; intros out errors required H.
  - inversion H. subst. exists []. now rewrite app_nil_r.
  - destruct (dict_get schema key) as [cvalue|]; [|eauto].
    destruct (cvalue v) as [cval | ex]; [eauto|].
    destruct ex; try discriminate.
    apply IH in H. destruct H as [e' ->]. rewrite <- app_assoc. eauto.
Qed.

(** A key that is not among the items keeps the value it had. *)
Lemma validate_mapping_frame items out errors required o e r k :
  validate_mapping schema items out errors required = Return (o, e, r) ->
  ~ In k (keys items) -> dict_get o k = dict_get out k.
Proof.
  revert out errors required.
  induction items as [|[key v] rest IH]; simpl; intros out errors required H Hni.
  - now inversion H.
  - destruct (dict_get schema key) as [cvalue|]; [|eapply IH; eauto].
    destruct (cvalue v) as [cval | ex].
    + erewrite IH by eauto. apply dict_get_set_other. intuition congruence.
    + destruct ex; try discriminate. eapply IH; eauto.
Qed.

(** The keys still required at the end were required at the start and
    were not met. *)
Lemma validate_mapping_required items out errors required o e r k :
  validate_mapping schema items out errors required = Return (o, e, r) ->
  In k r -> In k required /\ (In k (keys items) -> dict_get schema k = None).
Proof.
  revert out errors required.
  induction items as [|[key v] rest IH]; simpl; intros out errors required H Hin.
  - inversion H. subst. tauto.
  - destruct (dict_get schema key) as [cvalue|] eqn:Ek.
    + assert (Hrec : In k (filter (fun k0 => negb (str_eqb k0 key)) required) /\
                     (In k (keys rest) -> dict_get schema k = None)).
      { destruct (cvalue v) as [cval | ex]; [eapply IH; eauto|].
        destruct ex; try discriminate. eapply IH; eauto. }
      destruct Hrec as [Hf Hr]. apply filter_In in Hf. destruct Hf as [Hreq Hne].
      split; [exact Hreq|]. intros [<- | Hk]; [|auto].
      now rewrite str_eqb_refl in Hne.
    + destruct (IH _ _ _ H Hin) as [Hreq Hr]. split; [exact Hreq|].
      intros [<- | Hk]; auto.
Qed.

(** Success without errors: every item whose key is in the schema was
    accepted, and its validated value is in the output. *)
Lemma validate_mapping_Return items out errors required o r :
  Forall (fun kv => sound (snd kv)) schema ->
  NoDup (keys items) ->
  validate_mapping schema items out errors required = Return (o, [], r) ->
  forall k v cvalue, In (k, v) items -> dict_get schema k = Some cvalue ->
    exists cval, cvalue v = Return cval /\ dict_get o k = Some cval.
Proof.
  intros Hs. revert out errors required.
  induction items as [|[key v0] rest IH]; simpl;
    intros out errors required Hnd H k v cvalue Hin Hk; [tauto|].
  inversion Hnd as [|? ? Hni Hnd']; subst.
  destruct Hin as [Heq | Hin].
  - injection Heq as -> ->. rewrite Hk in H.
    destruct (cvalue v) as [cval | ex] eqn:E.
    + exists cval. split; [reflexivity|].
      erewrite validate_mapping_frame by eauto. apply dict_get_set_same.
    + destruct ex; try discriminate. exfalso.
      destruct (validate_mapping_errors _ _ _ _ _ _ _ H) as [e' He'].
      symmetry in He'. apply app_eq_nil in He'. destruct He' as [He' _].
      apply app_eq_nil in He'. destruct He' as [_ He'].
      assert (Hc : sound cvalue).
      { apply dict_get_Some_In in Hk. rewrite Forall_forall in Hs.
        apply (Hs _ Hk). }
      now apply Hc in E.
  - destruct (dict_get schema key) as [cvalue0|]; [|eapply IH; eauto].
    destruct (cvalue0 v0) as [cval | ex]; [eapply IH; eauto|].
    destruct ex; try discriminate. eapply IH; eauto.
Qed.

(** Items all accepted: no error, and the keys met are no longer
    required. *)
Lemma validate_mapping_accepts items out errors required :
  (forall k v cvalue, In (k, v) items -> dict_get schema k = Some cvalue ->
     exists cval, cvalue v = Return cval) ->
  exists o r, validate_mapping schema items out errors required = Return (o, errors, r) /\
              forall k, In k r -> In k required /\ (In k (keys items) -> dict_get schema k = None).
Proof.
  revert out errors required.
  induction items as [|[key v] rest IH]; simpl; intros out errors required Hok.
  - exists out, required. split; [reflexivity | tauto].
  - assert (Hrest : forall k v cvalue, In (k, v) rest -> dict_get schema k = Some cvalue ->
                      exists cval, cvalue v = Return cval) by eauto.
    destruct (dict_get schema key) as [cvalue|] eqn:Ek.
    + destruct (Hok key v cvalue) as [cval Hcval]; auto. rewrite Hcval.
      destruct (IH (dict_set out key cval) errors
                  (filter (fun k0 => negb (str_eqb k0 key)) required) Hrest)
        as (o & r & Hvm & Hr).
      exists o, r. split; [exact Hvm|]. intros k Hk.
      destruct (Hr k Hk) as [Hf Hn]. apply filter_In in Hf. destruct Hf as [Hreq Hne].
      split; [exact Hreq|]. intros [<- | Hin]; [|auto].
      now rewrite str_eqb_refl in Hne.
    + destruct (IH out errors required Hrest) as (o & r & Hvm & Hr).
      exists o, r. split; [exact Hvm|]. intros k Hk.
      destruct (Hr k Hk) as [Hreq Hn]. split; [exact Hreq|].
      intros [<- | Hin]; auto.
Qed.

Lemma validate_mapping_guarded items out errors required e :
  Forall (fun kv => guarded (snd kv)) schema ->
  validate_mapping schema items out errors required = Raise e ->
  validation_error e = true.
Proof.
  intros Hg. revert out errors required.
  induction items as [|[key v] rest IH]; simpl; intros out errors required H;
    [discriminate|].
  destruct (dict_get schema key) as [cvalue|] eqn:Ek; [|eauto].
  destruct (cvalue v) as [cval | ex] eqn:E; [eauto|].
  assert (Hc : validation_error ex = true).
  { apply dict_get_Some_In in Ek. rewrite Forall_forall in Hg.
    apply (Hg _ Ek _ _ E). }
  destruct ex; try discriminate; [inversion H; subst; reflexivity | eauto].
Qed.

(** *** The schema as a whole *)

Lemma Schema_Return items r :
  Forall (fun kv => sound (snd kv)) schema ->
  NoDup (keys items) ->
  Schema schema (PDict items) = Return r ->
  exists out, r = PDict out /\
    forall k cvalue, dict_get schema k = Some cvalue ->
      exists v cval, dict_get items k = Some v /\ cvalue v = Return cval /\
                     dict_get out k = Some cval.
Proof.
  intros Hs Hnd H. unfold Schema in H. rewrite (dict_of_pairs_id _ Hnd) in H.
  destruct (validate_mapping schema items [] [] (keys schema))
    as [[[out errors] required] | e] eqn:E; [|discriminate].
  simpl in H.
  destruct errors as [|m errors]; [|discriminate].
  destruct required as [|k0 required]; [|discriminate].
  simpl in H. inversion H. subst r. exists out. split; [reflexivity|].
  intros k cvalue Hk.
  destruct (dict_get items k) as [v|] eqn:Ev.
  - destruct (validate_mapping_Return _ _ _ _ _ _ Hs Hnd E k v cvalue)
      as (cval & Hc & Ho); eauto using dict_get_Some_In.
  - exfalso.
    assert (Hin : In k (keys schema)) by (apply dict_get_In_keys; eauto).
    (* a required key that is never met stays required *)
    clear - E Ev Hin. apply dict_get_None in Ev.
    assert (Hgen : forall items out errors required o e r,
               validate_mapping schema items out errors required = Return (o, e, r) ->
               ~ In k (keys items) -> In k required -> In k r).
    { clear. induction items as [|[key v] rest IH]; simpl;
        intros out errors required o e r H Hni Hreq.
      - inversion H. now subst.
      - assert (Hf : In k (filter (fun k0 => negb (str_eqb k0 key)) required)).
        { apply filter_In. split; [exact Hreq|].
          destruct (str_eqb k key) eqn:Ekk; [|reflexivity].
          apply str_eqb_eq in Ekk. subst. tauto. }
        destruct (dict_get schema key) as [cvalue|]; [|eapply IH; eauto].
        destruct (cvalue v) as [cval | ex]; [eapply IH; eauto|].
        destruct ex; try discriminate. eapply IH; eauto. }
    exact (Hgen _ _ _ _ _ _ _ E Ev Hin).
Qed.

Lemma Schema_accepts items :
  NoDup (keys items) ->
  (forall k cvalue, dict_get schema k = Some cvalue ->
     exists v cval, dict_get items k = Some v /\ cvalue v = Return cval) ->
  exists out, Schema schema (PDict items) = Return (PDict out).
Proof.
  intros Hnd Hok. unfold Schema. rewrite (dict_of_pairs_id _ Hnd).
  destruct (validate_mapping_accepts items [] [] (keys schema)) as (o & r & Hvm & Hr).
  { intros k v cvalue Hin Hk. destruct (Hok k cvalue Hk) as (v' & cval & Hv & Hc).
    apply (In_dict_get _ _ _ Hnd) in Hin. rewrite Hin in Hv. inversion Hv. subst. eauto. }
  rewrite Hvm. simpl. exists o.
  destruct r as [|k r]; [reflexivity|]. exfalso.
  destruct (Hr k (or_introl eq_refl)) as [Hreq Hn].
  apply dict_get_In_keys in Hreq. destruct Hreq as [cvalue Hk].
  destruct (Hok k cvalue Hk) as (v & cval & Hv & _).
  rewrite Hn in Hk; [discriminate|]. apply dict_get_In_keys. eauto.
Qed.

Lemma Schema_guarded :
  Forall (fun kv => guarded (snd kv)) schema -> guarded (Schema schema).
Proof.
  intros Hg v e H. unfold Schema, invalid in H.
  destruct v as [| | | | | | items]; try (inversion H; reflexivity).
  destruct (validate_mapping schema (dict_of_pairs items) [] [] (keys schema))
    as [[[out errors] required] | e'] eqn:E.
  - simpl in H. destruct (errors ++ _); inversion H. reflexivity.
  - simpl in H. inversion H. subst. eapply validate_mapping_guarded; eauto.
Qed.

End Mapping.

(** ** The validators of the fields *)

Lemma str__Return v r : str_ v = Return r <-> exists s, v = PStr s /\ r = PStr s.
Proof.
  split.
  - destruct v; unfold str_, invalid; intros H; inversion H. eauto.
  - intros (s & -> & ->). reflexivity.
Qed.

Lemma Coerce_float_Return x y :
  Coerce "float" float_ x = Return y <-> exists f, py_float x = Return f /\ y = PFloat f.
Proof.
  unfold Coerce, float_. split.
  - destruct (py_float x) as [f | e]; simpl.
    + intros H. inversion H. eauto.
    + intros H. split_ifs H; discriminate.
  - intros (f & -> & ->). reflexivity.
Qed.

Lemma Coerce_floats l out :
  Forall2 (fun x y => Coerce "float" float_ x = Return y) l out <->
  exists fs, floats_of l fs /\ out = map PFloat fs.
Proof.
  split.
  - induction 1 as [|x y l out Hxy _ (fs & Hfs & ->)].
    + exists []. split; constructor.
    + apply Coerce_float_Return in Hxy. destruct Hxy as (f & Hf & ->).
      exists (f :: fs). split; [constructor; assumption | reflexivity].
  - intros (fs & Hfs & ->). induction Hfs; simpl; constructor; auto.
    apply Coerce_float_Return. eauto.
Qed.

Lemma Coerce_int_Return x y :
  Coerce "int" int_ x = Return y <-> exists z, py_int x = Return z /\ y = PInt z.
Proof.
  unfold Coerce, int_. split.
  - destruct (py_int x) as [z | e]; simpl.
    + intros H. inversion H. eauto.
    + intros H. split_ifs H; discriminate.
  - intros (z & -> & ->). reflexivity.
Qed.

Lemma Length_Return a b v r :
  Length a b v = Return r <-> r = v /\ exists n, py_len v = Return n /\ a <= n <= b.
Proof.
  unfold Length. split.
  - destruct (py_len v) as [n | e].
    + intros H. split_ifs H; try discriminate. inversion H.
      split; [reflexivity|]. exists n. split; [reflexivity | lia].
    + intros H. split_ifs H; discriminate.
  - intros (-> & n & -> & Hn).
    destruct (n <? a) eqn:E1; [lia|]. destruct (b <? n) eqn:E2; [lia|]. reflexivity.
Qed.

Lemma Any_Length_Return a b v r :
  Any [Length a a; Length b b] v = Return r <->
  r = v /\ (py_len v = Return a \/ py_len v = Return b).
Proof.
  unfold Any. simpl. split.
  - destruct (Length a a v) as [x | e] eqn:E1.
    + intros H. inversion H. subst. apply Length_Return in E1.
      destruct E1 as (-> & n & Hn & Hr). split; [reflexivity|].
      left. rewrite Hn. f_equal. lia.
    + destruct (is_Invalid e); [|discriminate].
      destruct (Length b b v) as [x | e'] eqn:E2.
      * intros H. inversion H. subst. apply Length_Return in E2.
        destruct E2 as (-> & n & Hn & Hr). split; [reflexivity|].
        right. rewrite Hn. f_equal. lia.
      * destruct (is_Invalid e'); discriminate.
  - intros (-> & [Hl | Hl]).
    + assert (E : Length a a v = Return v).
      { apply Length_Return. split; [reflexivity|]. exists a. split; [assumption | lia]. }
      now rewrite E.
    + assert (E : Length b b v = Return v).
      { apply Length_Return. split; [reflexivity|]. exists b. split; [assumption | lia]. }
      rewrite E. destruct (Length a a v) as [x | e] eqn:E1.
      * apply Length_Return in E1. now destruct E1 as [-> _].
      * assert (Hg : validation_error e = true) by (eapply Length_guarded; eauto).
        assert (Hi : is_Invalid e = true).
        { unfold Length in E1. rewrite Hl in E1. split_ifs E1; inversion E1; reflexivity. }
        now rewrite Hi.
Qed.

(** The [Data] field of XHybrid. *)
Lemma XHybrid_Data_Return v r :
  All [Seq (Coerce "float" float_); Any [Length 58 58; Length 68 68]] v = Return r <->
  exists l fs, v = PList l /\ floats_of l fs /\ r = PList (map PFloat fs) /\
               (length l = 58%nat \/ length l = 68%nat).
Proof.
  simpl. split.
  - destruct (Seq (Coerce "float" float_) v) as [x | e] eqn:E; [simpl | discriminate].
    apply Seq_Return in E; [|apply Coerce_sound, float__error].
    destruct E as (l & out & -> & -> & Hall).
    apply Coerce_floats in Hall. destruct Hall as (fs & Hfs & ->).
    intros H. destruct (Any _ _) as [y|] eqn:Ea; [|discriminate].
    simpl in H. inversion H. subst y.
    apply Any_Length_Return in Ea. destruct Ea as (-> & Hlen).
    exists l, fs. repeat split; auto.
    simpl in Hlen. rewrite length_map in Hlen.
    rewrite (Forall2_length Hfs).
    destruct Hlen as [Hl | Hl]; inversion Hl; [left | right]; lia.
  - intros (l & fs & -> & Hfs & -> & Hlen).
    rewrite (Seq_accepts _ l (map PFloat fs)) by (apply Coerce_floats; eauto).
    simpl.
    assert (Ea : Any [Length 58 58; Length 68 68] (PList (map PFloat fs))
                 = Return (PList (map PFloat fs))).
    { apply Any_Length_Return. split; [reflexivity|]. simpl.
      rewrite length_map, <- (Forall2_length Hfs).
      destruct Hlen as [-> | ->]; [left | right]; reflexivity. }
    now rewrite Ea.
Qed.

(** The [Data] field of X3. *)
Lemma X3_Data_Return v r :
  All [Seq (Coerce "float" float_); Length 103 103] v = Return r <->
  exists l fs, v = PList l /\ floats_of l fs /\ r = PList (map PFloat fs) /\
               length l = 103%nat.
Proof.
  simpl. split.
  - destruct (Seq (Coerce "float" float_) v) as [x | e] eqn:E; [simpl | discriminate].
    apply Seq_Return in E; [|apply Coerce_sound, float__error].
    destruct E as (l & out & -> & -> & Hall).
    apply Coerce_floats in Hall. destruct Hall as (fs & Hfs & ->).
    intros H. destruct (Length _ _ _) as [y|] eqn:Ea; [|discriminate].
    simpl in H. inversion H. subst y.
    apply Length_Return in Ea. destruct Ea as (-> & n & Hn & Hr).
    exists l, fs. repeat split; auto.
    simpl in Hn. rewrite length_map in Hn. rewrite (Forall2_length Hfs).
    inversion Hn. lia.
  - intros (l & fs & -> & Hfs & -> & Hlen).
    rewrite (Seq_accepts _ l (map PFloat fs)) by (apply Coerce_floats; eauto).
    simpl.
    assert (Ea : Length 103 103 (PList (map PFloat fs)) = Return (PList (map PFloat fs))).
    { apply Length_Return. split; [reflexivity|]. exists 103. split; [|lia]. simpl.
      now rewrite length_map, <- (Forall2_length Hfs), Hlen. }
    now rewrite Ea.
Qed.

(** The [Status] field of XHybrid. *)
Lemma XHybrid_Status_Return v r :
  All [Coerce "int" int_; Range 0] v = Return r <->
  exists z, py_int v = Return z /\ 0 <= z /\ r = PInt z.
Proof.
  simpl. split.
  - destruct (Coerce "int" int_ v) as [x | e] eqn:E; [simpl | discriminate].
    apply Coerce_int_Return in E. destruct E as (z & Hz & ->).
    unfold Range, invalid. destruct (0 <=? z) eqn:Ez; [|discriminate].
    intros H. inversion H. exists z. repeat split; auto. lia.
  - intros (z & Hz & Hpos & ->).
    assert (E : Coerce "int" int_ v = Return (PInt z))
      by (apply Coerce_int_Return; eauto).
    rewrite E. simpl. unfold Range. destruct (0 <=? z) eqn:Ez; [reflexivity | lia].
Qed.

(** The [Information] field of X3. *)
Lemma X3_Information_Return v r :
  All [Length 9 9] v = Return r <-> r = v /\ py_len v = Return 9.
Proof.
  simpl. split.
  - destruct (Length 9 9 v) as [x | e] eqn:E; [simpl | discriminate].
    intros H. inversion H. subst x. apply Length_Return in E.
    destruct E as (-> & n & Hn & Hr). split; [reflexivity|]. rewrite Hn. f_equal. lia.
  - intros (-> & Hl).
    assert (E : Length 9 9 v = Return v).
    { apply Length_Return. split; [reflexivity|]. exists 9. split; [assumption | lia]. }
    now rewrite E.
Qed.

(** ** The two schemas *)

Lemma XHybrid_schema_fields : XHybrid_schema = Schema XHybrid_fields.
Proof. reflexivity. Qed.

Lemma X3_schema_fields : X3_schema = Schema X3_fields.
Proof. reflexivity. Qed.

Lemma data_sound vs : Forall sound vs -> sound (All (Seq (Coerce "float" float_) :: vs)).
Proof. intros H. apply All_sound. constructor; [apply Seq_sound | exact H]. Qed.

Lemma data_guarded vs :
  Forall guarded vs -> guarded (All (Seq (Coerce "float" float_) :: vs)).
Proof.
  intros H. apply All_guarded. constructor; [|exact H].
  apply Seq_guarded, Coerce_guarded, float__error.
Qed.

Lemma status_sound : sound (All [Coerce "int" int_; Range 0]).
Proof.
  apply All_sound. repeat apply Forall_cons; try apply Forall_nil.
  - apply Coerce_sound, int__error.
  - apply Range_sound.
Qed.

Lemma status_guarded : guarded (All [Coerce "int" int_; Range 0]).
Proof.
  apply All_guarded. repeat apply Forall_cons; try apply Forall_nil.
  - apply Coerce_guarded, int__error.
  - apply Range_guarded.
Qed.

Lemma XHybrid_fields_sound : Forall (fun kv => sound (snd kv)) XHybrid_fields.
Proof.
  unfold XHybrid_fields. repeat apply Forall_cons; try apply Forall_nil; cbn [snd];
    try apply str__sound.
  - apply data_sound. repeat apply Forall_cons; try apply Forall_nil.
    apply Any_sound. repeat apply Forall_cons; try apply Forall_nil; apply Length_sound.
  - apply status_sound.
Qed.

Lemma XHybrid_fields_guarded : Forall (fun kv => guarded (snd kv)) XHybrid_fields.
Proof.
  unfold XHybrid_fields. repeat apply Forall_cons; try apply Forall_nil; cbn [snd];
    try apply str__guarded.
  - apply data_guarded. repeat apply Forall_cons; try apply Forall_nil.
    apply Any_guarded. repeat apply Forall_cons; try apply Forall_nil; apply Length_guarded.
  - apply status_guarded.
Qed.

Lemma X3_fields_sound : Forall (fun kv => sound (snd kv)) X3_fields.
Proof.
  unfold X3_fields. repeat apply Forall_cons; try apply Forall_nil; cbn [snd];
    try apply str__sound.
  - apply data_sound. repeat apply Forall_cons; try apply Forall_nil. apply Length_sound.
  - apply All_sound. repeat apply Forall_cons; try apply Forall_nil. apply Length_sound.
Qed.

Lemma X3_fields_guarded : Forall (fun kv => guarded (snd kv)) X3_fields.
Proof.
  unfold X3_fields. repeat apply Forall_cons; try apply Forall_nil; cbn [snd];
    try apply str__guarded.
  - apply data_guarded. repeat apply Forall_cons; try apply Forall_nil. apply Length_guarded.
  - apply All_guarded. repeat apply Forall_cons; try apply Forall_nil. apply Length_guarded.
Qed.

(** What a schema raises is [Invalid] or [OverflowError]. *)
Lemma schema_guarded c : guarded (schema c).
Proof.
  destruct c; simpl.
  - rewrite XHybrid_schema_fields. apply Schema_guarded, XHybrid_fields_guarded.
  - rewrite X3_schema_fields. apply Schema_guarded, X3_fields_guarded.
Qed.

(** Only a dict passes a dict schema. *)
Lemma Schema_dict fields v r : Schema fields v = Return r -> exists items, v = PDict items.
Proof. destruct v; unfold Schema, invalid; intros H; inversion H. eauto. Qed.

(** The payloads XHybrid accepts, and what the schema returns for them. *)
Lemma XHybrid_schema_Return items r :
  NoDup (keys items) ->
  XHybrid_schema (PDict items) = Return r ->
  exists out sn ver ty fs status,
    r = PDict out /\ XHybrid_payload items sn ver ty fs status /\
    dict_get out (u "Data") = Some (PList (map PFloat fs)) /\
    dict_get out (u "SN") = Some (PStr sn) /\
    dict_get out (u "version") = Some (PStr ver) /\
    dict_get out (u "type") = Some (PStr ty) /\
    dict_get out (u "Status") = Some (PInt status).
Proof.
  intros Hnd H. rewrite XHybrid_schema_fields in H.
  apply Schema_Return in H; [|apply XHybrid_fields_sound | exact Hnd].
  destruct H as (out & -> & H).
  destruct (H (u "method") _ eq_refl) as (v1 & c1 & Hv1 & Hc1 & Ho1).
  destruct (H (u "version") _ eq_refl) as (v2 & c2 & Hv2 & Hc2 & Ho2).
  destruct (H (u "type") _ eq_refl) as (v3 & c3 & Hv3 & Hc3 & Ho3).
  destruct (H (u "SN") _ eq_refl) as (v4 & c4 & Hv4 & Hc4 & Ho4).
  destruct (H (u "Data") _ eq_refl) as (v5 & c5 & Hv5 & Hc5 & Ho5).
  destruct (H (u "Status") _ eq_refl) as (v6 & c6 & Hv6 & Hc6 & Ho6).
  apply str__Return in Hc1, Hc2, Hc3, Hc4.
  destruct Hc1 as (m & -> & ->). destruct Hc2 as (ver & -> & ->).
  destruct Hc3 as (ty & -> & ->). destruct Hc4 as (sn & -> & ->).
  apply XHybrid_Data_Return in Hc5. destruct Hc5 as (l & fs & -> & Hfs & -> & Hlen).
  apply XHybrid_Status_Return in Hc6. destruct Hc6 as (z & Hz & Hpos & ->).
  exists out, sn, ver, ty, fs, z. unfold XHybrid_payload.
  repeat split; eauto 6.
Qed.

Lemma XHybrid_schema_accepts items sn ver ty fs status :
  NoDup (keys items) ->
  XHybrid_payload items sn ver ty fs status ->
  exists out, XHybrid_schema (PDict items) = Return (PDict out).
Proof.
  intros Hnd ((m & Hm) & Hver & Hty & Hsn & (l & Hl & Hfs & Hlen) & (st & Hst & Hz & Hpos)).
  rewrite XHybrid_schema_fields. apply Schema_accepts; [exact Hnd|].
  intros k cvalue Hk. unfold XHybrid_fields in Hk. simpl in Hk.
  repeat match type of Hk with
         | (if str_eqb k ?s then _ else _) = _ =>
             let E := fresh "E" in
             destruct (str_eqb k s) eqn:E;
             [apply str_eqb_eq in E; subst k; inversion Hk; subst cvalue; clear Hk|]
         end; try discriminate.
  - exists (PStr m), (PStr m). split; [assumption | reflexivity].
  - exists (PStr ver), (PStr ver). split; [assumption | reflexivity].
  - exists (PStr ty), (PStr ty). split; [assumption | reflexivity].
  - exists (PStr sn), (PStr sn). split; [assumption | reflexivity].
  - exists (PList l), (PList (map PFloat fs)). split; [assumption|].
    apply XHybrid_Data_Return. eauto 8.
  - exists st, (PInt status). split; [assumption|].
    apply XHybrid_Status_Return. eauto.
Qed.

(** The payloads X3 accepts, and what the schema returns for them. *)
Lemma X3_schema_Return items r :
  NoDup (keys items) ->
  X3_schema (PDict items) = Return r ->
  exists out sn ver ty fs,
    r = PDict out /\ X3_payload items sn ver ty fs /\
    dict_get out (u "Data") = Some (PList (map PFloat fs)) /\
    dict_get out (u "SN") = Some (PStr sn) /\
    dict_get out (u "ver") = Some (PStr ver) /\
    dict_get out (u "type") = Some (PStr ty).
Proof.
  intros Hnd H. rewrite X3_schema_fields in H.
  apply Schema_Return in H; [|apply X3_fields_sound | exact Hnd].
  destruct H as (out & -> & H).
  destruct (H (u "type") _ eq_refl) as (v1 & c1 & Hv1 & Hc1 & Ho1).
  destruct (H (u "SN") _ eq_refl) as (v2 & c2 & Hv2 & Hc2 & Ho2).
  destruct (H (u "ver") _ eq_refl) as (v3 & c3 & Hv3 & Hc3 & Ho3).
  destruct (H (u "Data") _ eq_refl) as (v4 & c4 & Hv4 & Hc4 & Ho4).
  destruct (H (u "Information") _ eq_refl) as (v5 & c5 & Hv5 & Hc5 & Ho5).
  apply str__Return in Hc1, Hc2, Hc3.
  destruct Hc1 as (ty & -> & ->). destruct Hc2 as (sn & -> & ->).
  destruct Hc3 as (ver & -> & ->).
  apply X3_Data_Return in Hc4. destruct Hc4 as (l & fs & -> & Hfs & -> & Hlen).
  apply X3_Information_Return in Hc5. destruct Hc5 as (-> & Hinfo).
  exists out, sn, ver, ty, fs. unfold X3_payload.
  repeat split; eauto 6.
Qed.

Lemma X3_schema_accepts items sn ver ty fs :
  NoDup (keys items) ->
  X3_payload items sn ver ty fs ->
  exists out, X3_schema (PDict items) = Return (PDict out).
Proof.
  intros Hnd (Hty & Hsn & Hver & (l & Hl & Hfs & Hlen) & (info & Hinfo & Hlen9)).
  rewrite X3_schema_fields. apply Schema_accepts; [exact Hnd|].
  intros k cvalue Hk. unfold X3_fields in Hk. simpl in Hk.
  repeat match type of Hk with
         | (if str_eqb k ?s then _ else _) = _ =>
             let E := fresh "E" in
             destruct (str_eqb k s) eqn:E;
             [apply str_eqb_eq in E; subst k; inversion Hk; subst cvalue; clear Hk|]
         end; try discriminate.
  - exists (PStr ty), (PStr ty). split; [assumption | reflexivity].
  - exists (PStr sn), (PStr sn). split; [assumption | reflexivity].
  - exists (PStr ver), (PStr ver). split; [assumption | reflexivity].
  - exists (PList l), (PList (map PFloat fs)). split; [assumption|].
    apply X3_Data_Return. eauto 8.
  - exists info, info. split; [assumption|].
    apply X3_Information_Return. auto.
Qed.

(* ================================================================== *)
(** * Properties of the sensor maps and of [map_response] *)
(* ================================================================== *)

Lemma distinct_NoDup l : distinct l = true -> NoDup l.
Proof.
  induction l as [|x l IH]; simpl; intros H; constructor.
  - apply andb_prop in H. destruct H as [H _].
    intros Hin. apply negb_true_iff in H.
    assert (existsb (str_eqb x) l = true); [|congruence].
    apply existsb_exists. exists x. split; [exact Hin | apply str_eqb_refl].
  - apply andb_prop in H. tauto.
Qed.

Lemma sensor_map_keys_NoDup c : NoDup (keys (sensor_map c)).
Proof. destruct c; apply distinct_NoDup; vm_compute; reflexivity. Qed.

Lemma sensor_map_bounds c i :
  In i (indices (sensor_map c)) -> 0 <= i < data_length c.
Proof.
  intros Hin.
  assert (H : forallb (fun i => (0 <=? i) && (i <? data_length c)) (indices (sensor_map c)) = true)
    by (destruct c; vm_compute; reflexivity).
  rewrite forallb_forall in H. apply H in Hin.
  apply andb_prop in Hin. destruct Hin as [H1 H2]. lia.
Qed.

Lemma list_getitem_nth {A} (l : list A) (i : Z) (default : A) :
  0 <= i < Z.of_nat (length l) ->
  list_getitem l i = Return (nth (Z.to_nat i) l default).
Proof.
  intros Hi. unfold list_getitem.
  destruct (i <? 0) eqn:E1; [lia|].
  destruct (0 <=? i) eqn:E2; [|lia].
  destruct (i <? Z.of_nat (length l)) eqn:E3; [|lia]. simpl.
  destruct (nth_error l (Z.to_nat i)) as [a|] eqn:E.
  - now rewrite (nth_error_nth _ _ _ E).
  - apply nth_error_None in E. lia.
Qed.

(** Within the bounds of the array, [map_response] does not fail and
    returns the selected readings, one per sensor name. *)
Lemma map_response_from_ok (d : list value) (items : SensorMap) (out : dict) :
  (forall i, In i (indices items) -> 0 <= i < Z.of_nat (length d)) ->
  NoDup (keys out ++ keys items) ->
  map_response_from out (PList d) items = Return (out ++ readings_of items d).
Proof.
  revert out. induction items as [|[name [i unit]] items IH]; simpl; intros out Hb Hnd.
  - now rewrite app_nil_r.
  - rewrite (list_getitem_nth d i PNone) by (apply Hb; now left). simpl.
    assert (Hni : ~ In name (keys out)).
    { apply NoDup_remove_2 in Hnd. intros Hin. apply Hnd. apply in_or_app. now left. }
    rewrite dict_set_fresh by exact Hni.
    rewrite IH.
    + now rewrite <- app_assoc.
    + intros j Hj. apply Hb. now right.
    + unfold keys in *. rewrite map_app. simpl. rewrite <- app_assoc. exact Hnd.
Qed.

Lemma map_response_ok (d : list value) (sm : SensorMap) :
  (forall i, In i (indices sm) -> 0 <= i < Z.of_nat (length d)) ->
  NoDup (keys sm) ->
  map_response (PList d) sm = Return (readings_of sm d).
Proof.
  intros Hb Hnd. unfold map_response. now rewrite map_response_from_ok.
Qed.

Lemma keys_readings_of sm d : keys (readings_of sm d) = keys sm.
Proof. unfold keys, readings_of. rewrite map_map. reflexivity. Qed.

Lemma dict_get_readings_of sm d name i unit :
  NoDup (keys sm) -> In (name, (i, unit)) sm ->
  dict_get (readings_of sm d) name = Some (nth (Z.to_nat i) d PNone).
Proof.
  intros Hnd Hin. apply In_dict_get.
  - now rewrite keys_readings_of.
  - unfold readings_of. apply in_map_iff. exists (name, (i, unit)). auto.
Qed.

Lemma response_of_steps c body :
  response_of c body =
  (text <- decode_utf8 body ;;
   json_response <- Json.loads (parsed_text c text) ;;
   response <- schema c json_response ;;
   InverterResponse_of c response).
Proof. destruct c; reflexivity. Qed.

(** The response built from a validated payload. *)
Lemma InverterResponse_of_Return c out d sn ver ty :
  dict_get out (u "Data") = Some (PList d) ->
  data_length c <= Z.of_nat (length d) ->
  dict_get out (u "SN") = Some sn ->
  dict_get out (version_key c) = Some ver ->
  dict_get out (u "type") = Some ty ->
  InverterResponse_of c (PDict out) =
  Return {| data := readings_of (sensor_map c) d; serial_number := sn;
            version := ver; type := ty |}.
Proof.
  intros Hd Hlen Hsn Hver Hty.
  assert (Hm : map_response (PList d) (sensor_map c) = Return (readings_of (sensor_map c) d)).
  { apply map_response_ok; [|apply sensor_map_keys_NoDup].
    intros i Hi. apply sensor_map_bounds in Hi. lia. }
  destruct c; simpl in *; unfold XHybrid_InverterResponse, X3_InverterResponse, dict_getitem;
    rewrite Hd; simpl; rewrite Hm; simpl; rewrite Hsn; simpl; rewrite Hver; simpl;
    rewrite Hty; reflexivity.
Qed.

(* ================================================================== *)
(** * From the body to the response *)
(* ================================================================== *)

Lemma floats_of_unique l fs fs' : floats_of l fs -> floats_of l fs' -> fs = fs'.
Proof.
  intros H. revert fs'. induction H as [|x f l fs Hx _ IH]; intros fs' H'.
  - now inversion H'.
  - inversion H' as [|? f' ? fs'' Hx' Hl']; subst. f_equal; [congruence | auto].
Qed.

Lemma floats_of_PFloat fs : floats_of (map PFloat fs) fs.
Proof. induction fs; simpl; constructor; auto. Qed.

(** A schema looks at the dict its argument stands for. *)
Lemma Schema_dict_of_pairs fields items :
  Schema fields (PDict items) = Schema fields (PDict (dict_of_pairs items)).
Proof.
  unfold Schema. now rewrite (dict_of_pairs_id (dict_of_pairs items))
    by apply NoDup_dict_of_pairs.
Qed.

Lemma schema_dict_of_pairs c items :
  schema c (PDict items) = schema c (PDict (dict_of_pairs items)).
Proof. destruct c; apply Schema_dict_of_pairs. Qed.

Lemma schema_dict c j r : schema c j = Return r -> exists items, j = PDict items.
Proof. destruct c; apply Schema_dict. Qed.

(** What either schema returns, and for which payloads. *)
Lemma schema_Return c items r :
  NoDup (keys items) ->
  schema c (PDict items) = Return r ->
  exists out sn ver ty fs,
    r = PDict out /\ payload c items sn ver ty fs /\
    dict_get out (u "Data") = Some (PList (map PFloat fs)) /\
    dict_get out (u "SN") = Some (PStr sn) /\
    dict_get out (version_key c) = Some (PStr ver) /\
    dict_get out (u "type") = Some (PStr ty).
Proof.
  intros Hnd H. destruct c; simpl in H.
  - apply XHybrid_schema_Return in H; [|exact Hnd].
    destruct H as (out & sn & ver & ty & fs & status & -> & Hp & Hd & Hsn & Hver & Hty & _).
    exists out, sn, ver, ty, fs. simpl. eauto 10.
  - apply X3_schema_Return in H; [|exact Hnd].
    destruct H as (out & sn & ver & ty & fs & -> & Hp & Hd & Hsn & Hver & Hty).
    exists out, sn, ver, ty, fs. simpl. eauto 10.
Qed.

Lemma schema_accepts c items sn ver ty fs :
  NoDup (keys items) ->
  payload c items sn ver ty fs ->
  exists out, schema c (PDict items) = Return (PDict out).
Proof.
  intros Hnd Hp. destruct c; simpl in *.
  - destruct Hp as [status Hp]. eapply XHybrid_schema_accepts; eauto.
  - eapply X3_schema_accepts; eauto.
Qed.

(** A payload determines what it holds. *)
Lemma payload_unique c items sn ver ty fs sn' ver' ty' fs' :
  payload c items sn ver ty fs -> payload c items sn' ver' ty' fs' ->
  sn = sn' /\ ver = ver' /\ ty = ty' /\ fs = fs'.
Proof.
  destruct c; simpl.
  - intros [st (_ & Hver & Hty & Hsn & (l & Hl & Hfs & _) & _)]
           [st' (_ & Hver' & Hty' & Hsn' & (l' & Hl' & Hfs' & _) & _)].
    rewrite Hver in Hver'. rewrite Hty in Hty'. rewrite Hsn in Hsn'. rewrite Hl in Hl'.
    inversion Hver'. inversion Hty'. inversion Hsn'. inversion Hl'. subst.
    repeat split. eapply floats_of_unique; eauto.
  - intros (Hty & Hsn & Hver & (l & Hl & Hfs & _) & _)
           (Hty' & Hsn' & Hver' & (l' & Hl' & Hfs' & _) & _).
    rewrite Hver in Hver'. rewrite Hty in Hty'. rewrite Hsn in Hsn'. rewrite Hl in Hl'.
    inversion Hver'. inversion Hty'. inversion Hsn'. inversion Hl'. subst.
    repeat split. eapply floats_of_unique; eauto.
Qed.

Lemma payload_length c items sn ver ty fs :
  payload c items sn ver ty fs -> data_length c <= Z.of_nat (length fs).
Proof.
  destruct c; simpl.
  - intros [st (_ & _ & _ & _ & (l & _ & Hfs & Hlen) & _)].
    rewrite <- (Forall2_length Hfs). lia.
  - intros (_ & _ & _ & (l & _ & Hfs & Hlen) & _).
    rewrite <- (Forall2_length Hfs). lia.
Qed.

(** The fields of the payload a response reports. *)
Lemma payload_fields c items sn ver ty fs :
  payload c items sn ver ty fs ->
  dict_get items (u "SN") = Some (PStr sn) /\
  dict_get items (version_key c) = Some (PStr ver) /\
  dict_get items (u "type") = Some (PStr ty) /\
  exists l, dict_get items (u "Data") = Some (PList l) /\ floats_of l fs.
Proof.
  destruct c; simpl.
  - intros [st (_ & Hver & Hty & Hsn & (l & Hl & Hfs & _) & _)]. eauto 8.
  - intros (Hty & Hsn & Hver & (l & Hl & Hfs & _) & _). eauto 8.
Qed.

Lemma validated_response c items r :
  NoDup (keys items) ->
  (response <- schema c (PDict items) ;; InverterResponse_of c response) = Return r ->
  exists sn ver ty fs, payload c items sn ver ty fs /\ r = Response c sn ver ty fs.
Proof.
  intros Hnd H. destruct (schema c (PDict items)) as [response|] eqn:E; [|discriminate].
  simpl in H. pose proof E as Hp. apply schema_Return in Hp; [|exact Hnd].
  destruct Hp as (out & sn & ver & ty & fs & -> & Hp & Hd & Hsn & Hver & Hty).
  rewrite (InverterResponse_of_Return c out _ (PStr sn) (PStr ver) (PStr ty) Hd) in H; auto.
  - inversion H. subst. eauto 8.
  - rewrite length_map. eapply payload_length; eauto.
Qed.

Lemma payload_response c items sn ver ty fs :
  NoDup (keys items) ->
  payload c items sn ver ty fs ->
  (response <- schema c (PDict items) ;; InverterResponse_of c response)
  = Return (Response c sn ver ty fs).
Proof.
  intros Hnd Hp. destruct (schema_accepts c items sn ver ty fs Hnd Hp) as [out Hout].
  pose proof Hout as H. apply schema_Return in H; [|exact Hnd].
  destruct H as (out' & sn' & ver' & ty' & fs' & Heq & Hp' & Hd & Hsn & Hver & Hty).
  inversion Heq. subst out'.
  destruct (payload_unique _ _ _ _ _ _ _ _ _ _ Hp Hp') as (<- & <- & <- & <-).
  rewrite Hout. simpl.
  apply InverterResponse_of_Return; auto.
  rewrite length_map. eapply payload_length; eauto.
Qed.

(** After a schema has accepted, nothing fails any more. *)
Lemma validated_returns c j response :
  schema c j = Return response ->
  exists r, InverterResponse_of c response = Return r.
Proof.
  intros H. destruct (schema_dict c j _ H) as [items ->].
  rewrite schema_dict_of_pairs in H.
  pose proof H as Hp. apply schema_Return in Hp; [|apply NoDup_dict_of_pairs].
  destruct Hp as (out & sn & ver & ty & fs & -> & Hp & Hd & Hsn & Hver & Hty).
  eexists. apply (InverterResponse_of_Return c out _ (PStr sn) (PStr ver) (PStr ty) Hd); eauto.
  rewrite length_map. eapply payload_length; eauto.
Qed.

(** The exceptions of the three stages of a response. *)
Lemma response_of_Raise c body e :
  response_of c body = Raise e ->
  (decode_utf8 body = Raise e /\ is_ValueError e = true) \/
  (exists text, decode_utf8 body = Return text /\
                Json.loads (parsed_text c text) = Raise e /\ is_ValueError e = true) \/
  (exists text j, decode_utf8 body = Return text /\
                  Json.loads (parsed_text c text) = Return j /\
                  schema c j = Raise e /\ validation_error e = true).
Proof.
  rewrite response_of_steps. intros H.
  destruct (decode_utf8 body) as [text|e0] eqn:Ed; simpl in H.
  - destruct (Json.loads (parsed_text c text)) as [j|e1] eqn:El; simpl in H.
    + destruct (schema c j) as [response|e2] eqn:Es; simpl in H.
      * destruct (validated_returns c j response Es) as [r Hr]. congruence.
      * inversion H. subst. right. right. exists text, j. repeat split; auto.
        eapply schema_guarded; eauto.
    + inversion H. subst. right. left. exists text. repeat split; auto.
      eapply loads_ValueError; eauto.
  - inversion H. subst. left. split; [reflexivity|].
    eapply decode_utf8_ValueError; eauto.
Qed.

Lemma response_of_Return c body r :
  response_of c body = Return r ->
  exists text items sn ver ty fs,
    decode_utf8 body = Return text /\
    Json.loads (parsed_text c text) = Return (PDict items) /\
    NoDup (keys items) /\
    payload c items sn ver ty fs /\ r = Response c sn ver ty fs.
Proof.
  rewrite response_of_steps. intros H.
  destruct (decode_utf8 body) as [text|] eqn:Ed; [|discriminate]. simpl in H.
  destruct (Json.loads (parsed_text c text)) as [j|] eqn:El; [|discriminate]. simpl in H.
  destruct (schema c j) as [response|] eqn:Es; [|discriminate].
  destruct (schema_dict c j _ Es) as [items ->].
  pose proof (loads_NoDup _ _ El) as Hnd.
  rewrite <- Es in H.
  apply validated_response in H; [|exact Hnd].
  destruct H as (sn & ver & ty & fs & Hp & ->).
  exists text, items, sn, ver, ty, fs. auto.
Qed.

Lemma response_of_payload c body text items sn ver ty fs :
  decode_utf8 body = Return text ->
  Json.loads (parsed_text c text) = Return (PDict items) ->
  payload c items sn ver ty fs ->
  response_of c body = Return (Response c sn ver ty fs).
Proof.
  intros Hd Hl Hp. rewrite response_of_steps, Hd. simpl. rewrite Hl. simpl.
  apply payload_response; [|exact Hp]. eapply loads_NoDup; eauto.
Qed.

(** ** [get_data] and the transport *)

Lemma make_request_answer self w :
  make_request (cls self) (host self) (port self) w =
  (requested (cls self) (Aio.network w (Aio.log w) (request_of self)),
   Aio.sent w (request_of self)).
Proof.
  destruct self as [c h p]. unfold request_of. simpl.
  destruct c; simpl;
    unfold XHybrid_make_request, X3_make_request, Aio.bindM, Aio.read, Aio.lift, requested;
    simpl; destruct (Aio.network w _ _); reflexivity.
Qed.

Lemma get_data_answer self w :
  get_data self w =
  (reported (requested (cls self) (Aio.network w (Aio.log w) (request_of self))),
   Aio.sent w (request_of self)).
Proof.
  unfold get_data, Aio.try_except. rewrite make_request_answer.
  destruct (requested _ _) as [r|ex]; simpl; [reflexivity|].
  destruct (is_ClientError ex); [reflexivity|].
  destruct (is_ValueError ex); [reflexivity|].
  destruct (is_Invalid ex); reflexivity.
Qed.

(* ================================================================== *)
(** * The textual repair of XHybrid *)
(* ================================================================== *)

Section Repair.

Let old : str := [comma; comma].
Let new : str := [comma; 48; 46; 48; comma]%N.

Lemma replace_other c s :
  c <> comma -> replace_from old new 0 (c :: s) = c :: replace_from old new 0 s.
Proof.
  intros Hc. cbn [replace_from old starts_with].
  destruct (N.eqb comma c) eqn:E; [|reflexivity].
  apply N.eqb_eq in E. congruence.
Qed.

Lemma replace_pair s :
  replace_from old new 0 (comma :: comma :: s) = new ++ replace_from old new 0 s.
Proof. reflexivity. Qed.

Lemma replace_single c s :
  c <> comma ->
  replace_from old new 0 (comma :: c :: s) = comma :: replace_from old new 0 (c :: s).
Proof.
  intros Hc. cbn [replace_from old starts_with length Nat.sub].
  rewrite N.eqb_refl. cbn [andb].
  destruct (N.eqb comma c) eqn:E; [apply N.eqb_eq in E; congruence|].
  cbn [andb]. reflexivity.
Qed.

Lemma replace_field f s :
  comma_free f ->
  replace_from old new 0 (f ++ s) = f ++ replace_from old new 0 s.
Proof.
  induction f as [|c f IH]; intros Hf; [reflexivity|].
  simpl app. rewrite replace_other.
  - f_equal. apply IH. intros Hin. apply Hf. now right.
  - intros ->. apply Hf. now left.
Qed.

Lemma join_cons f g rest : join (f :: g :: rest) = f ++ comma :: join (g :: rest).
Proof. reflexivity. Qed.

(** One replacement, on the fields. *)
Lemma replace_fill_pass fields :
  Forall comma_free fields ->
  replace_from old new 0 (join fields) = join (fill_pass fields).
Proof.
  remember (length fields) as n eqn:Hn. revert fields Hn.
  induction n as [n IH] using lt_wf_ind. intros fields Hn Hcf.
  destruct fields as [|f rest]; [reflexivity|].
  inversion Hcf as [|? ? Hf Hrest]; subst.
  destruct rest as [|g rest'].
  - cbn [join fill_pass flat_map]. rewrite replace_field by exact Hf. reflexivity.
  - rewrite join_cons, replace_field by exact Hf.
    inversion Hrest as [|? ? Hg Hrest']; subst.
    destruct g as [|c g].
    + destruct rest' as [|h rest''].
      * reflexivity.
      * change (join ([] :: h :: rest'')) with (comma :: join (h :: rest'')).
        rewrite replace_pair.
        rewrite (IH (length (h :: rest''))); [|simpl; lia | reflexivity | exact Hrest'].
        change (fill_pass (f :: [] :: h :: rest''))
          with (f :: u "0.0" :: fill_pass (h :: rest'')).
        change (fill_pass (h :: rest''))
          with (h :: match rest'' with
                     | [] :: (_ :: _) as r => u "0.0" :: fill_pass r
                     | _ => fill_pass rest''
                     end).
        reflexivity.
    + assert (Hc : c <> comma) by (intros ->; apply Hg; now left).
      change (join ((c :: g) :: rest'))
        with (c :: (g ++ flat_map (fun g => comma :: g) rest')).
      rewrite replace_single by exact Hc.
      change (c :: (g ++ flat_map (fun g => comma :: g) rest'))
        with (join ((c :: g) :: rest')).
      rewrite (IH (length ((c :: g) :: rest'))); [|unfold str; simpl; lia | reflexivity | exact Hrest].
      change (fill_pass (f :: (c :: g) :: rest'))
        with (f :: fill_pass ((c :: g) :: rest')).
      change (fill_pass ((c :: g) :: rest'))
        with ((c :: g) :: match rest' with
                          | [] :: (_ :: _) as r => u "0.0" :: fill_pass r
                          | _ => fill_pass rest'
                          end).
      reflexivity.
Qed.

Lemma fill_pass_comma_free fields :
  Forall comma_free fields -> Forall comma_free (fill_pass fields).
Proof.
  remember (length fields) as n eqn:Hn. revert fields Hn.
  induction n as [n IH] using lt_wf_ind. intros fields Hn Hcf.
  destruct fields as [|f rest]; [constructor|].
  inversion Hcf as [|? ? Hf Hrest]; subst. cbn [fill_pass]. constructor; [exact Hf|].
  destruct rest as [|g rest']; [constructor|].
  inversion Hrest as [|? ? Hg Hrest']; subst.
  destruct g as [|c g].
  - destruct rest' as [|h rest''].
    + apply (IH 1%nat); [unfold str; simpl; lia | reflexivity | exact Hrest].
    + constructor.
      * unfold comma_free, comma. vm_compute. intuition discriminate.
      * apply (IH (length (h :: rest''))); [unfold str; simpl; lia | reflexivity | exact Hrest'].
  - apply (IH (length ((c :: g) :: rest'))); [unfold str; simpl; lia | reflexivity | exact Hrest].
Qed.

Lemma sparse_head l : sparse l -> l <> [] -> exists c f l', l = (c :: f) :: l'.
Proof. intros H Hne. destruct H; [tauto | eauto | eauto | eauto]. Qed.

(** On sparse fields one replacement fills every omitted value. *)
Lemma fill_pass_sparse l : sparse l -> fill_pass l = map fill l.
Proof.
  induction 1 as [| c f | c f l Hl IH Hne | c f l Hl IH Hne].
  - reflexivity.
  - reflexivity.
  - destruct (sparse_head l Hl Hne) as (c' & f' & l' & ->).
    cbn [fill_pass map fill]. f_equal. exact IH.
  - destruct (sparse_head l Hl Hne) as (c' & f' & l' & ->).
    cbn [fill_pass map fill]. f_equal. f_equal. exact IH.
Qed.

(** After one replacement, fields that end with a value are sparse from
    the second on, and hold the values they held. *)
Lemma fill_pass_once l :
  l <> [] -> last l [] <> [] ->
  exists X, fill_pass l = hd [] l :: X /\ sparse X /\ map fill X = map fill (tl l).
Proof.
  remember (length l) as n eqn:Hn. revert l Hn.
  induction n as [n IH] using lt_wf_ind. intros l Hn Hne Hlast.
  destruct l as [|h rest]; [tauto|]. clear Hne.
  destruct rest as [|g rest'].
  - exists []. repeat split. constructor.
  - destruct g as [|c g].
    + destruct rest' as [|k rest'']; [simpl in Hlast; tauto|].
      destruct (IH (length (k :: rest''))) with (l := k :: rest'') as (X & HX & Hs & Hm);
        [rewrite Hn; unfold str; simpl; lia | reflexivity | discriminate | exact Hlast |].
      simpl in HX, Hm. cbn [fill_pass hd tl]. rewrite HX.
      exists (u "0.0" :: k :: X). split; [reflexivity|]. split.
      * destruct k as [|c k].
        -- destruct rest'' as [|k' rest3]; [simpl in Hlast; tauto|].
           destruct X as [|x X]; [discriminate|].
           apply (sparse_gap 48%N (u ".0")); [exact Hs | discriminate].
        -- apply (sparse_cons 48%N (u ".0")); [|discriminate].
           destruct X as [|x X]; [constructor|].
           apply sparse_cons; [exact Hs | discriminate].
      * simpl. now rewrite Hm.
    + destruct (IH (length ((c :: g) :: rest'))) with (l := (c :: g) :: rest')
        as (X & HX & Hs & Hm);
        [rewrite Hn; unfold str; simpl; lia | reflexivity | discriminate | exact Hlast |].
      simpl in HX, Hm. cbn [fill_pass hd tl].
      exists ((c :: g) :: X). split.
      * destruct rest'; simpl in HX |- *; now rewrite HX.
      * split; [|simpl; now rewrite Hm].
        destruct X as [|x X]; [constructor|].
        apply sparse_cons; [exact Hs | discriminate].
Qed.

(** Two replacements fill every omitted value of fields that begin and
    end with a value, however many are omitted in a row. *)
Lemma fill_pass_twice c f rest :
  last ((c :: f) :: rest) [] <> [] ->
  fill_pass (fill_pass ((c :: f) :: rest)) = map fill ((c :: f) :: rest).
Proof.
  intros Hlast.
  destruct (fill_pass_once ((c :: f) :: rest)) as (X & HX & Hs & Hm);
    [discriminate | exact Hlast |].
  cbn [hd tl] in HX, Hm. rewrite HX.
  assert (Hsp : sparse ((c :: f) :: X)).
  { destruct X as [|x X]; [constructor|]. apply sparse_cons; [exact Hs | discriminate]. }
  rewrite (fill_pass_sparse _ Hsp). simpl. now rewrite Hm.
Qed.

Lemma repair_fields c f rest :
  Forall comma_free ((c :: f) :: rest) ->
  last ((c :: f) :: rest) [] <> [] ->
  repair (join ((c :: f) :: rest)) = join (map fill ((c :: f) :: rest)).
Proof.
  intros Hcf Hlast. unfold repair, str_replace.
  change (u ",,") with old. change (u ",0.0,") with new.
  lazy beta iota delta [old].
  change [comma; comma] with old.
  rewrite replace_fill_pass by exact Hcf.
  rewrite replace_fill_pass by (apply fill_pass_comma_free; exact Hcf).
  now rewrite fill_pass_twice.
Qed.

End Repair.

Lemma split_commas_cons s : exists f fields, split_commas s = f :: fields.
Proof.
  induction s as [|c s (f & fields & IH)]; simpl; [eauto|].
  destruct (N.eqb c comma); [eauto|]. rewrite IH. eauto.
Qed.

(** A text is its fields joined by commas, and no field holds a comma. *)
Lemma join_split_commas s : join (split_commas s) = s.
Proof.
  induction s as [|c s IH]; [reflexivity|]. simpl.
  destruct (split_commas_cons s) as (f & fields & E). rewrite E in *.
  destruct (N.eqb c comma) eqn:Ec.
  - apply N.eqb_eq in Ec. subst c. simpl in *. now rewrite IH.
  - simpl in *. now rewrite IH.
Qed.

Lemma split_commas_comma_free s : Forall comma_free (split_commas s).
Proof.
  induction s as [|c s IH]; simpl.
  - constructor; [intros [] | constructor].
  - destruct (N.eqb c comma) eqn:Ec.
    + constructor; [intros [] | exact IH].
    + destruct (split_commas s) as [|f fields]; [repeat constructor|].
      * intros [H | []]. apply N.eqb_neq in Ec. congruence.
      * inversion IH as [|? ? Hf Hfields]; subst. constructor; [|exact Hfields].
        intros [H | H]; [|exact (Hf H)]. apply N.eqb_neq in Ec. congruence.
Qed.

Lemma fill_fill f : fill (fill f) = fill f.
Proof. destruct f; reflexivity. Qed.

Lemma fill_comma_free f : comma_free f -> comma_free (fill f).
Proof.
  destruct f; [|auto]. intros _. unfold comma_free, comma. vm_compute.
  intuition discriminate.
Qed.

Lemma fill_nonempty f : fill f <> [].
Proof. destruct f; discriminate. Qed.

Lemma last_map_fill l : l <> [] -> last (map fill l) [] = fill (last l []).
Proof.
  induction l as [|f l IH]; [tauto|]. intros _.
  destruct l as [|g l]; [reflexivity|].
  change (last (map fill (f :: g :: l)) []) with (last (map fill (g :: l)) []).
  rewrite IH by discriminate. reflexivity.
Qed.

(** A text without omitted values is left as it is. *)
Lemma repair_filled fields :
  fields <> [] -> Forall comma_free fields ->
  repair (join (map fill fields)) = join (map fill fields).
Proof.
  intros Hne Hcf. destruct fields as [|f rest]; [tauto|].
  assert (E : exists c g, fill f = c :: g).
  { destruct f as [|c g]; [vm_compute; eauto | simpl; eauto]. }
  destruct E as (c & g & E). cbn [map]. rewrite E.
  rewrite repair_fields.
  - cbn [map]. rewrite <- E, fill_fill, map_map.
    f_equal. f_equal. apply map_ext. intros a. apply fill_fill.
  - rewrite <- E. change (fill f :: map fill rest) with (map fill (f :: rest)).
    apply Forall_forall. intros x Hx. apply in_map_iff in Hx.
    destruct Hx as (y & <- & Hy). apply fill_comma_free.
    rewrite Forall_forall in Hcf. auto.
  - rewrite <- E. change (fill f :: map fill rest) with (map fill (f :: rest)).
    rewrite last_map_fill by discriminate. apply fill_nonempty.
Qed.

(* ================================================================== *)
(** * The properties of the specification *)
(* ================================================================== *)

Lemma example_items_distinct : NoDup (keys XHybrid_items) /\ NoDup (keys X3_items).
Proof. split; apply distinct_NoDup; vm_compute; reflexivity. Qed.

Lemma floats_of_floats l :
  forallb (fun x => returns (py_float x)) l = true -> floats_of l (floats l).
Proof.
  induction l as [|x l IH]; simpl; intros H; [constructor|].
  apply andb_prop in H. destruct H as [Hx Hl].
  unfold floats. simpl. destruct (py_float x) as [f|] eqn:E; [|discriminate].
  simpl. constructor; [exact E | now apply IH].
Qed.

Lemma XHybrid_items_payload :
  XHybrid_payload XHybrid_items
    (text_of (dict_get XHybrid_items (u "SN")))
    (text_of (dict_get XHybrid_items (u "version")))
    (text_of (dict_get XHybrid_items (u "type")))
    (floats (data_of XHybrid_items)) 2.
Proof.
  unfold XHybrid_payload. repeat split.
  - eexists. vm_compute. reflexivity.
  - exists (data_of XHybrid_items). split; [reflexivity|]. split.
    + apply floats_of_floats. vm_compute. reflexivity.
    + right. reflexivity.
  - exists (PInt 2). repeat split. discriminate.
Qed.

Lemma X3_items_payload :
  X3_payload X3_items
    (text_of (dict_get X3_items (u "SN")))
    (text_of (dict_get X3_items (u "ver")))
    (text_of (dict_get X3_items (u "type")))
    (floats (data_of X3_items)).
Proof.
  unfold X3_payload. repeat split.
  - exists (data_of X3_items). split; [reflexivity|]. split.
    + apply floats_of_floats. vm_compute. reflexivity.
    + reflexivity.
  - eexists. split; vm_compute; reflexivity.
Qed.

(** ** C7: the sensor maps *)

(** C7, as the specification states it, fails: the XHybrid sensor map does
    not have 23 entries and the X3 sensor map does not have 31. *)
Lemma sensor_map_sizes_differ_from_spec :
  length XHybrid_sensor_map <> 23%nat /\ length X3_sensor_map <> 31%nat.
Proof. split; vm_compute; discriminate. Qed.

(** C7, amended: the XHybrid sensor map has exactly 24 entries, with
    distinct names, at the indices 0 to 17, 19, 50 and 53 to 56; the X3
    sensor map has exactly 34 entries, with distinct names, at indices
    between 0 and 56; in X3 index 21 is the battery remaining capacity, and
    no other name has that index. *)
Theorem sensor_map_entries :
  length XHybrid_sensor_map = 24%nat /\
  NoDup (keys XHybrid_sensor_map) /\
  indices XHybrid_sensor_map
  = map Z.of_nat (seq 0 18) ++ [19; 50] ++ map Z.of_nat (seq 53 4) /\
  length X3_sensor_map = 34%nat /\
  NoDup (keys X3_sensor_map) /\
  Forall (fun i => 0 <= i <= 56) (indices X3_sensor_map) /\
  dict_get X3_sensor_map (u "Battery Remaining Capacity") = Some (21, Some (u "%")) /\
  keys (filter (fun e => fst (snd e) =? 21) X3_sensor_map)
    = [u "Battery Remaining Capacity"].
Proof.
  repeat split; try reflexivity.
  - apply (sensor_map_keys_NoDup XHybrid).
  - apply (sensor_map_keys_NoDup X3).
  - apply Forall_forall. intros i Hi.
    assert (H : forallb (fun i => (0 <=? i) && (i <=? 56)) (indices X3_sensor_map) = true)
      by (vm_compute; reflexivity).
    rewrite forallb_forall in H. apply H in Hi. apply andb_prop in Hi. lia.
Qed.

(** ** C6: the indices are within the validated array *)

(** C6: every index of a sensor map is below the length its schema
    guarantees (58 for XHybrid, 103 for X3); so for a payload the schema
    accepted, each access [resp_data[i]] of [map_response] is within the
    validated [Data] array and [map_response] returns the readings. *)
Theorem sensor_indices_within_validated_data c j response
    (Hvalid : schema c j = Return response) :
  data_length XHybrid = 58 /\ data_length X3 = 103 /\
  Forall (fun i => 0 <= i < data_length c) (indices (sensor_map c)) /\
  exists out d,
    response = PDict out /\
    dict_get out (u "Data") = Some (PList d) /\
    data_length c <= Z.of_nat (length d) /\
    (forall i, In i (indices (sensor_map c)) ->
               list_getitem d i = Return (nth (Z.to_nat i) d PNone)) /\
    map_response (PList d) (sensor_map c) = Return (readings_of (sensor_map c) d).
Proof.
  split; [reflexivity|]. split; [reflexivity|]. split.
  { apply Forall_forall. intros i Hi. now apply sensor_map_bounds. }
  destruct (schema_dict c j _ Hvalid) as [items ->].
  rewrite schema_dict_of_pairs in Hvalid.
  apply schema_Return in Hvalid; [|apply NoDup_dict_of_pairs].
  destruct Hvalid as (out & sn & ver & ty & fs & -> & Hp & Hd & _).
  apply payload_length in Hp.
  exists out, (map PFloat fs). rewrite length_map.
  split; [reflexivity|]. split; [exact Hd|]. split; [exact Hp|]. split.
  - intros i Hi. apply list_getitem_nth. rewrite length_map.
    apply sensor_map_bounds in Hi. lia.
  - apply map_response_ok; [|apply sensor_map_keys_NoDup].
    intros i Hi. rewrite length_map. apply sensor_map_bounds in Hi. lia.
Qed.

Lemma sensor_indices_within_validated_data_witness :
  exists response,
    schema XHybrid (PDict XHybrid_items) = Return response /\
    exists out d,
      response = PDict out /\
      dict_get out (u "Data") = Some (PList d) /\
      map_response (PList d) (sensor_map XHybrid)
      = Return (readings_of (sensor_map XHybrid) d).
Proof.
  destruct (schema XHybrid (PDict XHybrid_items)) as [response|] eqn:E;
    [|vm_compute in E; discriminate].
  exists response. split; [reflexivity|].
  destruct (sensor_indices_within_validated_data XHybrid _ _ E)
    as (_ & _ & _ & out & d & H1 & H2 & _ & _ & H3).
  exists out, d. auto.
Defined.

(** ** C4: exact lengths *)

(** C4: the length constraint of the XHybrid [Data] field accepts a list of
    exactly 58 or exactly 68 elements and nothing else; a payload with
    [Data] of any other length is not accepted by the XHybrid schema, and
    one of a right length is accepted when the rest of it is as the schema
    asks.  The X3 schema accepts a payload only if its [Data] has exactly
    103 elements and its [Information] has length exactly 9; any other
    length of either makes it raise. *)
Theorem exact_array_lengths (items : dict) (Hdict : NoDup (keys items)) :
  (* the length constraint of XHybrid *)
  (forall l : list value,
     (exists r, Any [Length 58 58; Length 68 68] (PList l) = Return r) <->
     (length l = 58%nat \/ length l = 68%nat)) /\
  (* XHybrid, any other length fails *)
  (forall l, dict_get items (u "Data") = Some (PList l) ->
             length l <> 58%nat -> length l <> 68%nat ->
             exists e, XHybrid_schema (PDict items) = Raise e /\
                       validation_error e = true) /\
  (* XHybrid, both lengths succeed *)
  (forall sn ver ty fs status,
     XHybrid_payload items sn ver ty fs status ->
     (length fs = 58%nat \/ length fs = 68%nat) /\
     exists out, XHybrid_schema (PDict items) = Return (PDict out)) /\
  (* X3 passes only with the two lengths *)
  (forall r, X3_schema (PDict items) = Return r ->
             (exists l, dict_get items (u "Data") = Some (PList l) /\
                        length l = 103%nat) /\
             (exists info, dict_get items (u "Information") = Some info /\
                           py_len info = Return 9)) /\
  (* X3, any other length of either fails *)
  (forall l, dict_get items (u "Data") = Some (PList l) ->
             length l <> 103%nat ->
             exists e, X3_schema (PDict items) = Raise e /\
                       validation_error e = true) /\
  (forall info, dict_get items (u "Information") = Some info ->
                py_len info <> Return 9 ->
                exists e, X3_schema (PDict items) = Raise e /\
                          validation_error e = true).
Proof.
  repeat split.
  - intros [r Hr]. apply Any_Length_Return in Hr. destruct Hr as [_ Hr].
    simpl in Hr. destruct Hr as [Hr | Hr]; inversion Hr; [left | right]; lia.
  - intros Hl. exists (PList l). apply Any_Length_Return. split; [reflexivity|].
    simpl. destruct Hl as [-> | ->]; [left | right]; reflexivity.
  - intros l Hl H58 H68.
    destruct (XHybrid_schema (PDict items)) as [r|e] eqn:E.
    + exfalso. apply XHybrid_schema_Return in E; [|exact Hdict].
      destruct E as (out & sn & ver & ty & fs & st & _ & Hp & _).
      destruct Hp as (_ & _ & _ & _ & (l' & Hl' & _ & Hlen) & _).
      rewrite Hl in Hl'. inversion Hl'. subst l'. tauto.
    + exists e. split; [reflexivity|]. apply (schema_guarded XHybrid _ _ E).
  - destruct H as (_ & _ & _ & _ & (l & _ & Hfs & Hlen) & _).
    now rewrite <- (Forall2_length Hfs).
  - eapply XHybrid_schema_accepts; eauto.
  - apply X3_schema_Return in H; [|exact Hdict].
    destruct H as (out & sn & ver & ty & fs & _ & Hp & _).
    destruct Hp as (_ & _ & _ & (l & Hl & _ & Hlen) & _). eauto.
  - apply X3_schema_Return in H; [|exact Hdict].
    destruct H as (out & sn & ver & ty & fs & _ & Hp & _).
    destruct Hp as (_ & _ & _ & _ & Hinfo). exact Hinfo.
  - intros l Hl H103.
    destruct (X3_schema (PDict items)) as [r|e] eqn:E.
    + exfalso. apply X3_schema_Return in E; [|exact Hdict].
      destruct E as (out & sn & ver & ty & fs & _ & Hp & _).
      destruct Hp as (_ & _ & _ & (l' & Hl' & _ & Hlen) & _).
      rewrite Hl in Hl'. inversion Hl'. subst l'. tauto.
    + exists e. split; [reflexivity|]. apply (schema_guarded X3 _ _ E).
  - intros info Hinfo Hlen.
    destruct (X3_schema (PDict items)) as [r|e] eqn:E.
    + exfalso. apply X3_schema_Return in E; [|exact Hdict].
      destruct E as (out & sn & ver & ty & fs & _ & Hp & _).
      destruct Hp as (_ & _ & _ & _ & (info' & Hinfo' & Hlen')).
      rewrite Hinfo in Hinfo'. inversion Hinfo'. subst info'. tauto.
    + exists e. split; [reflexivity|]. apply (schema_guarded X3 _ _ E).
Qed.

(** The X3 example payload, which the XHybrid schema refuses for its 103
    values, passes the X3 schema. *)
Lemma exact_array_lengths_witness :
  NoDup (keys X3_items) /\
  (exists e, XHybrid_schema (PDict X3_items) = Raise e /\ validation_error e = true) /\
  (exists l, dict_get X3_items (u "Data") = Some (PList l) /\ length l = 103%nat).
Proof.
  pose proof (exact_array_lengths X3_items (proj2 example_items_distinct))
    as (_ & Hother & _ & Hx3 & _).
  split; [exact (proj2 example_items_distinct)|]. split.
  - apply (Hother (data_of X3_items)); [reflexivity | | ]; vm_compute; discriminate.
  - destruct (X3_schema (PDict X3_items)) as [r|] eqn:E; [|vm_compute in E; discriminate].
    exact (proj1 (Hx3 r eq_refl)).
Defined.

(** ** C2: the response to a well-formed payload *)

Lemma Response_readings c sn ver ty fs name i unit :
  payload_length_ok c fs ->
  In (name, (i, unit)) (sensor_map c) ->
  exists f, nth_error fs (Z.to_nat i) = Some f /\
            dict_get (data (Response c sn ver ty fs)) name = Some (PFloat f).
Proof.
  unfold payload_length_ok. intros Hlen Hin.
  assert (Hi : 0 <= i < data_length c).
  { apply sensor_map_bounds. unfold indices. apply in_map_iff.
    exists (name, (i, unit)). auto. }
  destruct (nth_error fs (Z.to_nat i)) as [f|] eqn:E.
  - exists f. split; [reflexivity|]. simpl.
    rewrite (dict_get_readings_of _ _ name i unit (sensor_map_keys_NoDup c) Hin).
    f_equal. apply nth_error_nth. rewrite nth_error_map, E. reflexivity.
  - apply nth_error_None in E. lia.
Qed.

(** C2: for either variant, when the body decodes to a text that
    [json.loads] (after the repair, for XHybrid) turns into a payload the
    schema accepts, [get_data] returns a response whose [data] has exactly
    the names of the variant's sensor map, in its order and each once, each
    bound to the float at its index in the validated [Data] array [fs];
    [serial_number] is the payload's [SN], [version] its [version]
    (XHybrid) or [ver] (X3), and [type] its [type]. *)
Theorem response_of_well_formed_payload
    (self : Inverter) (w : Aio.World) (garbage : bytes) (text : str)
    (items : dict) (sn ver ty : str) (fs : list float)
    (Hanswer : Aio.network w (Aio.log w) (request_of self) = Aio.Body garbage)
    (Hdecode : decode_utf8 garbage = Return text)
    (Hloads : Json.loads (parsed_text (cls self) text) = Return (PDict items))
    (Hpayload : payload (cls self) items sn ver ty fs) :
  exists r,
    fst (get_data self w) = Return r /\
    keys (data r) = keys (sensor_map (cls self)) /\
    NoDup (keys (data r)) /\
    (forall name i unit, In (name, (i, unit)) (sensor_map (cls self)) ->
       exists f, nth_error fs (Z.to_nat i) = Some f /\
                 dict_get (data r) name = Some (PFloat f)) /\
    dict_get items (u "SN") = Some (serial_number r) /\
    dict_get items (match cls self with XHybrid => u "version" | X3 => u "ver" end)
      = Some (version r) /\
    dict_get items (u "type") = Some (type r).
Proof.
  exists (Response (cls self) sn ver ty fs).
  rewrite get_data_answer, Hanswer. cbn [fst requested].
  rewrite (response_of_payload _ _ _ _ _ _ _ _ Hdecode Hloads Hpayload).
  split; [reflexivity|].
  destruct (payload_fields _ _ _ _ _ _ Hpayload) as (Hsn & Hver & Hty & _).
  assert (Hk : keys (data (Response (cls self) sn ver ty fs)) = keys (sensor_map (cls self)))
    by apply keys_readings_of.
  split; [exact Hk|]. split; [rewrite Hk; apply sensor_map_keys_NoDup|]. split.
  - intros name i unit Hin.
    apply (Response_readings _ _ _ _ _ name i unit); [|exact Hin].
    eapply payload_length; eauto.
  - repeat split; assumption.
Qed.

Lemma response_of_well_formed_payload_witness :
  exists r,
    fst (get_data (at_address X3) X3_device) = Return r /\
    keys (data r) = keys X3_sensor_map /\
    dict_get (data r) (u "Battery Remaining Capacity")
      = option_map PFloat (nth_error (floats (data_of X3_items)) 21) /\
    serial_number r = PStr (u "YYYYYYY").
Proof.
  destruct (decode_utf8 X3_body) as [text|] eqn:Ed; [|vm_compute in Ed; discriminate].
  assert (Hloads : Json.loads (parsed_text X3 text) = Return (PDict X3_items)).
  { vm_compute in Ed. inversion Ed. subst text. vm_compute. reflexivity. }
  destruct (response_of_well_formed_payload (at_address X3) X3_device X3_body text
              X3_items _ _ _ _ eq_refl Ed Hloads X3_items_payload)
    as (r & Hr & Hk & _ & Hdata & Hsn & _).
  exists r. split; [exact Hr|]. split; [exact Hk|]. split.
  - destruct (Hdata (u "Battery Remaining Capacity") 21 (Some (u "%")))
      as (f & Hf & Hget).
    + vm_compute. intuition.
    + rewrite Hget. change (Z.to_nat 21) with 21%nat in Hf. now rewrite Hf.
  - vm_compute in Hsn. now inversion Hsn.
Defined.

(** ** C10: no range check on the data *)

Lemma key_neq (a b : string) : str_eqb (u a) (u b) = false -> u a <> u b.
Proof. apply str_eqb_neq. Qed.

Lemma payload_set_Data c items sn ver ty fs l' fs' :
  payload c items sn ver ty fs ->
  floats_of l' fs' -> length l' = length fs ->
  payload c (dict_set items (u "Data") (PList l')) sn ver ty fs'.
Proof.
  intros Hp Hfs' Hlen.
  assert (Hother : forall k, str_eqb (u k) (u "Data") = false ->
            dict_get (dict_set items (u "Data") (PList l')) (u k) = dict_get items (u k)).
  { intros k Hk. apply dict_get_set_other. now apply key_neq. }
  assert (Hdata : dict_get (dict_set items (u "Data") (PList l')) (u "Data")
                  = Some (PList l')) by apply dict_get_set_same.
  destruct c; simpl in *.
  - destruct Hp as [st ((m & Hm) & Hver & Hty & Hsn & (l & Hl & Hfs & Hl58) & (s & Hs & Hz))].
    exists st. unfold XHybrid_payload. rewrite !Hother by reflexivity.
    split; [exists m; try rewrite Hother by reflexivity; exact Hm|].
    split; [exact Hver|]. split; [exact Hty|]. split; [exact Hsn|].
    split; [|exists s; try rewrite Hother by reflexivity; tauto].
    exists l'. split; [exact Hdata|]. split; [exact Hfs'|].
    rewrite Hlen, <- (Forall2_length Hfs). exact Hl58.
  - destruct Hp as (Hty & Hsn & Hver & (l & Hl & Hfs & Hl103) & (info & Hinfo & Hlen9)).
    unfold X3_payload. rewrite !Hother by reflexivity.
    split; [exact Hty|]. split; [exact Hsn|]. split; [exact Hver|].
    split; [|exists info; try rewrite Hother by reflexivity; tauto].
    exists l'. split; [exact Hdata|]. split; [exact Hfs'|].
    rewrite Hlen, <- (Forall2_length Hfs). exact Hl103.
Qed.

(** C10, as the specification states it, fails: of two XHybrid payloads
    that differ in their first data value only, the one with 0 is answered
    by a response, and the one with the integer [10^400] does not pass
    validation: the conversion to [float] raises [OverflowError]. *)
Lemma arbitrarily_large_integer_does_not_validate :
  returns (XHybrid_response XHybrid_small_body) = true /\
  XHybrid_response XHybrid_big_body
  = Raise (OverflowError "int too large to convert to float") /\
  exists text items,
    decode_utf8 XHybrid_big_body = Return text /\
    Json.loads (repair text) = Return (PDict items) /\
    nth_error (data_of items) 0 = Some (PInt (10 ^ 400)) /\
    XHybrid_schema (PDict items)
    = Raise (OverflowError "int too large to convert to float").
Proof.
  split; [vm_compute; reflexivity|]. split; [vm_compute; reflexivity|].
  destruct (decode_utf8 XHybrid_big_body) as [text|] eqn:Ed;
    [|vm_compute in Ed; discriminate].
  exists text, (items_of XHybrid XHybrid_big_body).
  split; [reflexivity|].
  vm_compute in Ed. inversion Ed. subst text.
  repeat split; vm_compute; reflexivity.
Qed.

(** C10, amended: a schema accepts exactly the payloads described by
    [payload], whose only condition on a number is that the [Status] of
    XHybrid is not negative; a payload with a negative [Status] is refused
    by XHybrid.  The elements of [Data] are only converted: in a payload
    that validates, any other [Data] array of the same length whose
    elements convert to floats, whatever their sign and magnitude,
    validates too, and the floats appear in the readings at the indices of
    the sensor map; floats themselves convert to themselves. *)
Theorem data_values_are_only_converted
    (c : Variant) (items : dict) (sn ver ty : str) (fs : list float)
    (Hdict : NoDup (keys items))
    (Hpayload : payload c items sn ver ty fs) :
  (forall items', NoDup (keys items') ->
     (exists r, schema c (PDict items') = Return r) <->
     (exists sn' ver' ty' fs', payload c items' sn' ver' ty' fs')) /\
  (forall items' st z,
     NoDup (keys items') ->
     dict_get items' (u "Status") = Some st -> py_int st = Return z -> z < 0 ->
     exists e, XHybrid_schema (PDict items') = Raise e) /\
  (forall l' fs',
     floats_of l' fs' -> length l' = length fs ->
     (response <- schema c (PDict (dict_set items (u "Data") (PList l'))) ;;
      InverterResponse_of c response) = Return (Response c sn ver ty fs') /\
     forall name i unit, In (name, (i, unit)) (sensor_map c) ->
       exists f, nth_error fs' (Z.to_nat i) = Some f /\
                 dict_get (data (Response c sn ver ty fs')) name = Some (PFloat f)) /\
  (forall xs : list float, floats_of (map PFloat xs) xs).
Proof.
  split; [|split; [|split]].
  - intros items' Hnd. split.
    + intros [r Hr]. apply schema_Return in Hr; [|exact Hnd].
      destruct Hr as (out & sn' & ver' & ty' & fs' & _ & Hp & _). eauto 6.
    + intros (sn' & ver' & ty' & fs' & Hp).
      destruct (schema_accepts _ _ _ _ _ _ Hnd Hp) as [out Hout]. eauto.
  - intros items' st z Hnd Hst Hz Hneg.
    destruct (XHybrid_schema (PDict items')) as [r|e] eqn:E; [|eauto].
    exfalso. apply XHybrid_schema_Return in E; [|exact Hnd].
    destruct E as (out & sn' & ver' & ty' & fs' & status & _ & Hp & _).
    destruct Hp as (_ & _ & _ & _ & _ & (st' & Hst' & Hz' & Hpos)).
    rewrite Hst in Hst'. inversion Hst'. subst st'. rewrite Hz in Hz'.
    inversion Hz'. lia.
  - intros l' fs' Hfs' Hlen.
    pose proof (payload_set_Data _ _ _ _ _ _ _ _ Hpayload Hfs' Hlen) as Hp'.
    split.
    + apply payload_response; [apply NoDup_dict_set; exact Hdict | exact Hp'].
    + intros name i unit Hin.
      apply (Response_readings _ _ _ _ _ name i unit); [|exact Hin].
      eapply payload_length; eauto.
  - apply floats_of_PFloat.
Qed.

(** The data of the XHybrid example replaced by 68 times minus infinity. *)
Lemma data_values_are_only_converted_witness :
  (response <- schema XHybrid
     (PDict (dict_set XHybrid_items (u "Data")
               (PList (repeat (PFloat (S754_infinity true)) 68)))) ;;
   InverterResponse_of XHybrid response)
  = Return (Response XHybrid (u "XXXXXXX") (u "Solax_SI_CH_2nd_20160912_DE02")
              (u "AL_SE") (repeat (S754_infinity true) 68)).
Proof.
  destruct (data_values_are_only_converted XHybrid XHybrid_items _ _ _ _
              (proj1 example_items_distinct)
              (ex_intro _ 2 XHybrid_items_payload)) as (_ & _ & H & _).
  destruct (H (repeat (PFloat (S754_infinity true)) 68) (repeat (S754_infinity true) 68))
    as [Hr _].
  - apply (floats_of_PFloat (repeat (S754_infinity true) 68)).
  - vm_compute. reflexivity.
  - exact Hr.
Defined.

(** ** C5: the outcomes of [get_data] *)

(** The outcome of [get_data] is a response, an [InverterError] or an
    [OverflowError]. *)
Lemma get_data_outcome self w :
  match fst (get_data self w) with
  | Return _ => True
  | Raise e => is_InverterError e = true \/ exists msg, e = OverflowError msg
  end.
Proof.
  rewrite get_data_answer. cbn [fst].
  destruct (Aio.network w (Aio.log w) (request_of self)) as [b|msg]; simpl; [|now left].
  destruct (response_of (cls self) b) as [r|e] eqn:E; simpl; [exact I|].
  apply response_of_Raise in E.
  destruct E as [[_ Hv] | [(text & _ & _ & Hv) | (text & j & _ & _ & _ & Hv)]].
  - destruct (is_ClientError e); [now left|]. rewrite Hv. now left.
  - destruct (is_ClientError e); [now left|]. rewrite Hv. now left.
  - destruct e; try discriminate; simpl; [right; eauto | now left].
Qed.

(** C5, evaluated where it fails: the XHybrid payload whose first data
    value is the integer [10^400] is valid JSON and is neither answered by
    a response nor reported as an [InverterError]: the [OverflowError] of
    the conversion to [float] leaves [get_data] as it is. *)
Theorem get_data_lets_OverflowError_through :
  let w := device (Aio.Body XHybrid_big_body) refused in
  fst (get_data (at_address XHybrid) w)
  = Raise (OverflowError "int too large to convert to float") /\
  fst (discover address 80 w)
  = Raise (OverflowError "int too large to convert to float").
Proof. split; vm_compute; reflexivity. Qed.

(** X1, what [get_data] does report: a failed connection, a body that is not
    UTF-8 or not JSON, and a payload the schema refuses are each raised as
    an [InverterError] with its own message and the original exception as
    its cause; one request is sent. *)
Theorem get_data_reports_failures self w :
  let answer := Aio.network w (Aio.log w) (request_of self) in
  let outcome := fst (get_data self w) in
  (forall msg, answer = Aio.Failed msg ->
     outcome = Raise (InverterError "Could not connect to inverter endpoint"
                        (ClientError msg))) /\
  (forall b e, answer = Aio.Body b ->
     (decode_utf8 b = Raise e \/
      exists text, decode_utf8 b = Return text /\
                   Json.loads (parsed_text (cls self) text) = Raise e) ->
     outcome = Raise (InverterError "Received non-JSON data from inverter endpoint" e)) /\
  (forall b text j errors, answer = Aio.Body b ->
     decode_utf8 b = Return text ->
     Json.loads (parsed_text (cls self) text) = Return j ->
     schema (cls self) j = Raise (Invalid errors) ->
     outcome = Raise (InverterError "Received malformed JSON from inverter"
                        (Invalid errors))) /\
  (forall b text j msg, answer = Aio.Body b ->
     decode_utf8 b = Return text ->
     Json.loads (parsed_text (cls self) text) = Return j ->
     schema (cls self) j = Raise (OverflowError msg) ->
     outcome = Raise (OverflowError msg)) /\
  Aio.log (snd (get_data self w)) = Aio.log w ++ [request_of self].
Proof.
  cbv zeta. rewrite get_data_answer. cbn [fst snd]. repeat split.
  - intros msg ->. reflexivity.
  - intros b e -> H. cbn [requested]. rewrite response_of_steps.
    destruct H as [Hd | (text & Hd & Hl)].
    + rewrite Hd. simpl. rewrite (decode_utf8_ValueError _ _ Hd).
      destruct e; try reflexivity; discriminate (decode_utf8_ValueError _ _ Hd).
    + rewrite Hd. simpl. rewrite Hl. simpl. rewrite (loads_ValueError _ _ Hl).
      destruct e; try reflexivity; discriminate (loads_ValueError _ _ Hl).
  - intros b text j errors -> Hd Hl Hs. cbn [requested]. rewrite response_of_steps.
    rewrite Hd. simpl. rewrite Hl. simpl. rewrite Hs. reflexivity.
  - intros b text j msg -> Hd Hl Hs. cbn [requested]. rewrite response_of_steps.
    rewrite Hd. simpl. rewrite Hl. simpl. rewrite Hs. reflexivity.
Qed.

(** ** C8: the response is a function of the body *)

(** C8: what [get_data] returns or raises is determined by the class and
    the bytes of the body, whatever the host, the port and the state of
    the world: two fetches that read the same body have the same
    outcome. *)
Theorem response_is_a_function_of_the_body
    (c : Variant) (h h' : str) (p p' : Z) (w w' : Aio.World) (b : bytes)
    (Hfirst : Aio.network w (Aio.log w)
                (request_of {| cls := c; host := h; port := p |}) = Aio.Body b)
    (Hsecond : Aio.network w' (Aio.log w')
                 (request_of {| cls := c; host := h'; port := p' |}) = Aio.Body b) :
  fst (get_data {| cls := c; host := h; port := p |} w)
  = fst (get_data {| cls := c; host := h'; port := p' |} w') /\
  fst (get_data {| cls := c; host := h; port := p |} w) = reported (response_of c b).
Proof.
  rewrite !get_data_answer. cbn [fst cls]. rewrite Hfirst, Hsecond. split; reflexivity.
Qed.

(** Two fetches in a row from the XHybrid example. *)
Lemma response_is_a_function_of_the_body_witness :
  let w := XHybrid_device in
  let w' := snd (get_data (at_address XHybrid) w) in
  fst (get_data (at_address XHybrid) w) = fst (get_data (at_address XHybrid) w').
Proof.
  exact (proj1 (response_is_a_function_of_the_body XHybrid address address 80 80
                  XHybrid_device (snd (get_data (at_address XHybrid) XHybrid_device))
                  XHybrid_body eq_refl eq_refl)).
Defined.

(** ** C3: the repair of omitted values *)

(** C3: the repair is two [replace(",,", ",0.0,")] in succession on the
    whole text, before [json.loads].  A text is the fields between its
    commas; when it neither begins nor ends with a comma, the repair
    writes 0.0 in every empty field and leaves the others as they are,
    however many fields are empty in a row (so for one, two or three);
    [json.loads] and the whole of [XHybrid.make_request] then do with the
    raw text what they do with the text in which the omitted values are
    written out: parsing succeeds with every omitted value read as zero
    wherever the text written out is valid JSON. *)
Theorem repair_writes_omitted_values_as_zero (text : str)
    (Hfirst : hd [] (split_commas text) <> [])
    (Hlast : last (split_commas text) [] <> []) :
  let written_out := join (map fill (split_commas text)) in
  repair text
  = str_replace (str_replace text (u ",,") (u ",0.0,")) (u ",,") (u ",0.0,") /\
  join (split_commas text) = text /\
  repair text = written_out /\
  Json.loads (repair text) = Json.loads written_out /\
  (forall garbage garbage',
     decode_utf8 garbage = Return text ->
     decode_utf8 garbage' = Return written_out ->
     XHybrid_response garbage = XHybrid_response garbage').
Proof.
  cbv zeta.
  assert (Hrepair : repair text = join (map fill (split_commas text))).
  { rewrite <- (join_split_commas text) at 1.
    pose proof (split_commas_comma_free text) as Hcf.
    destruct (split_commas text) as [|[|c f] rest]; [easy | now simpl in Hfirst |].
    apply repair_fields; [exact Hcf | exact Hlast]. }
  split; [reflexivity|]. split; [apply join_split_commas|]. split; [exact Hrepair|].
  split; [now rewrite Hrepair|].
  intros garbage garbage' Hd Hd'. unfold XHybrid_response. rewrite Hd, Hd'. simpl.
  rewrite Hrepair, repair_filled; [reflexivity | | apply split_commas_comma_free].
  destruct (split_commas_cons text) as (f & fields & ->). discriminate.
Qed.

(** The XHybrid example omits one, two and three values in a row. *)
Lemma repair_writes_omitted_values_as_zero_witness :
  let text := items_text XHybrid_body in
  decode_utf8 XHybrid_body = Return text /\
  (exists a b, text = a ++ u "92,,126.0,0,,,0,,,,0," ++ b) /\
  Json.loads (repair text) = Return (PDict XHybrid_items) /\
  firstn 8 (skipn 18 (data_of XHybrid_items))
  = [PFloat (S754_zero false); PFloat (float_of_decimal false 126 0); PInt 0;
     PFloat (S754_zero false); PFloat (S754_zero false); PInt 0;
     PFloat (S754_zero false); PFloat (S754_zero false)].
Proof.
  cbv zeta.
  assert (Hfirst : hd [] (split_commas (items_text XHybrid_body)) <> [])
    by (vm_compute; discriminate).
  assert (Hlast : last (split_commas (items_text XHybrid_body)) [] <> [])
    by (vm_compute; discriminate).
  destruct (repair_writes_omitted_values_as_zero (items_text XHybrid_body) Hfirst Hlast)
    as (_ & _ & _ & Hloads & _).
  split; [vm_compute; reflexivity|]. split.
  - exists (firstn 179 (items_text XHybrid_body)), (skipn 200 (items_text XHybrid_body)).
    vm_compute. reflexivity.
  - split; [|vm_compute; reflexivity].
    rewrite Hloads. vm_compute. reflexivity.
Defined.

(** ** C9: the repair is applied to the whole text *)

(** C9: the repair does not look at where the commas are: there is a body
    whose [SN] string holds two commas in a row, which is valid JSON as it
    is, and for which the serial number of the response is not the string
    the device sent but that string with 0.0 between the two commas. *)
Theorem repair_rewrites_strings :
  exists (garbage : bytes) (text : str) (items : dict) (sent : str)
         (r : InverterResponse),
    decode_utf8 garbage = Return text /\
    Json.loads text = Return (PDict items) /\
    dict_get items (u "SN") = Some (PStr sent) /\
    sent = u "AB,,CD" /\
    XHybrid_response garbage = Return r /\
    serial_number r = PStr (u "AB,0.0,CD") /\
    serial_number r = PStr (str_replace sent (u ",,") (u ",0.0,")) /\
    serial_number r <> PStr sent.
Proof.
  destruct (decode_utf8 XHybrid_commas_body) as [text|] eqn:Ed;
    [|vm_compute in Ed; discriminate].
  destruct (Json.loads text) as [[| | | | | |items]|] eqn:El;
    try (vm_compute in Ed; inversion Ed; subst text; vm_compute in El; discriminate).
  destruct (XHybrid_response XHybrid_commas_body) as [r|] eqn:Er;
    [|vm_compute in Er; discriminate].
  exists XHybrid_commas_body, text, items, (u "AB,,CD"), r.
  vm_compute in Ed. inversion Ed. subst text. clear Ed.
  vm_compute in El. inversion El. subst items. clear El.
  vm_compute in Er. inversion Er. subst r. clear Er.
  repeat split; try (vm_compute; reflexivity).
  vm_compute. discriminate.
Qed.

(** ** C1: discovery *)

(** [discover], unfolded over the two entries of the registry. *)
Lemma discover_unfold host port w :
  discover host port w =
  let i1 := {| cls := XHybrid; host := host; port := port |} in
  let i2 := {| cls := X3; host := host; port := port |} in
  match get_data i1 w with
  | (Return _, w1) => (Return i1, w1)
  | (Raise e1, w1) =>
      if is_InverterError e1 then
        match get_data i2 w1 with
        | (Return _, w2) => (Return i2, w2)
        | (Raise e2, w2) =>
            if is_InverterError e2 then (Raise DiscoveryError, w2)
            else (Raise e2, w2)
        end
      else (Raise e1, w1)
  end.
Proof.
  unfold discover, REGISTRY, discover_from, Aio.try_except, Aio.bindM, Aio.ret, Aio.raise.
  cbv zeta.
  destruct (get_data _ w) as [[r1|e1] w1]; [reflexivity|].
  destruct (is_InverterError e1); [|reflexivity].
  destruct (get_data _ w1) as [[r2|e2] w2]; [reflexivity|].
  destruct (is_InverterError e2); reflexivity.
Qed.

Lemma get_data_log self w :
  Aio.log (snd (get_data self w)) = Aio.log w ++ [request_of self].
Proof. rewrite get_data_answer. reflexivity. Qed.

Lemma get_data_not_DiscoveryError self w :
  fst (get_data self w) <> Raise DiscoveryError.
Proof.
  pose proof (get_data_outcome self w) as H. intros E. rewrite E in H.
  destruct H as [H | [msg H]]; discriminate.
Qed.

(** Where nothing answers, both probes are made and fail, and [discover]
    raises [DiscoveryError]; where only X3 answers, the XHybrid probe is
    made first and the X3 probe second. *)
Example discover_examples :
  fst (discover address 80 nothing_there) = Raise DiscoveryError /\
  Aio.log (snd (discover address 80 nothing_there))
  = [request_of (at_address XHybrid); request_of (at_address X3)] /\
  fst (discover address 80 X3_device) = Return (at_address X3) /\
  Aio.log (snd (discover address 80 X3_device))
  = [request_of (at_address XHybrid); request_of (at_address X3)] /\
  fst (discover address 80 XHybrid_device) = Return (at_address XHybrid) /\
  Aio.log (snd (discover address 80 XHybrid_device))
  = [request_of (at_address XHybrid)].
Proof. repeat split; vm_compute; reflexivity. Qed.

(** C1, as the specification states it, fails: at a host that only X3
    matches, [discover] does not return the response of the X3 adapter; it
    returns the adapter. *)
Lemma discover_returns_the_adapter_not_its_response :
  exists r,
    fst (get_data (at_address X3) (snd (get_data (at_address XHybrid) X3_device)))
    = Return r /\
    discover_result address 80 X3_device = Return (AnInverter (at_address X3)) /\
    discover_result address 80 X3_device <> Return (AResponse r).
Proof.
  destruct (fst (get_data (at_address X3) (snd (get_data (at_address XHybrid) X3_device))))
    as [r|] eqn:E; [|vm_compute in E; discriminate].
  exists r. split; [reflexivity|].
  assert (H : discover_result address 80 X3_device = Return (AnInverter (at_address X3)))
    by (vm_compute; reflexivity).
  split; [exact H|]. rewrite H. discriminate.
Qed.

(** C1, amended: [discover] goes through the registry [XHybrid; X3] in
    that order, with one request for each entry it tries.  When the XHybrid
    fetch returns, [discover] returns the XHybrid adapter at once, and no
    request is sent for X3.  When the XHybrid fetch raises an
    [InverterError], that error is dropped and X3 is tried in the world the
    first request left: if that fetch returns, [discover] returns the X3
    adapter.  [discover] raises [DiscoveryError] if and only if both
    fetches raised an [InverterError].  What is returned is the adapter
    bound to the host and port; the response of the fetch is dropped. *)
Theorem discover_probes_the_registry_in_order (host : str) (port : Z) (w : Aio.World) :
  let i1 := {| cls := XHybrid; host := host; port := port |} in
  let i2 := {| cls := X3; host := host; port := port |} in
  let o1 := fst (get_data i1 w) in
  let w1 := snd (get_data i1 w) in
  let o2 := fst (get_data i2 w1) in
  let w2 := snd (get_data i2 w1) in
  REGISTRY = [XHybrid; X3] /\
  (returns o1 = true ->
     discover host port w = (Return i1, w1) /\
     Aio.log w1 = Aio.log w ++ [request_of i1]) /\
  (raises_InverterError o1 = true -> returns o2 = true ->
     discover host port w = (Return i2, w2) /\
     Aio.log w2 = Aio.log w ++ [request_of i1; request_of i2]) /\
  (raises_InverterError o1 = true -> raises_InverterError o2 = true ->
     discover host port w = (Raise DiscoveryError, w2) /\
     Aio.log w2 = Aio.log w ++ [request_of i1; request_of i2]) /\
  (fst (discover host port w) = Raise DiscoveryError <->
     raises_InverterError o1 = true /\ raises_InverterError o2 = true).
Proof.
  cbv zeta.
  set (i1 := {| cls := XHybrid; host := host; port := port |}).
  set (i2 := {| cls := X3; host := host; port := port |}).
  pose proof (get_data_log i1 w) as Hlog1.
  pose proof (get_data_log i2 (snd (get_data i1 w))) as Hlog2.
  pose proof (get_data_not_DiscoveryError i1 w) as Hnd1.
  pose proof (get_data_not_DiscoveryError i2 (snd (get_data i1 w))) as Hnd2.
  rewrite Hlog1, <- app_assoc in Hlog2. simpl in Hlog2.
  rewrite discover_unfold. cbv zeta. fold i1 i2.
  destruct (get_data i1 w) as [[r1|e1] w1]; cbn [fst snd] in *;
    [|destruct (is_InverterError e1) eqn:E1;
      [destruct (get_data i2 w1) as [[r2|e2] w2]; cbn [fst snd] in *;
       [|destruct (is_InverterError e2) eqn:E2]|]];
    cbn [raises_InverterError returns]; rewrite ?E1, ?E2;
    (split; [reflexivity|]);
    repeat match goal with
           | |- _ /\ _ => split
           | |- _ <-> _ => split
           | |- _ -> _ => intro
           | H : _ /\ _ |- _ => destruct H
           end;
    try discriminate; try reflexivity; try assumption.
  all: cbn [fst] in *;
    match goal with
    | H : Raise _ = Raise DiscoveryError |- _ => inversion H; subst
    end; congruence.
Qed.

(* ================================================================== *)
(** * Further properties of the code *)
(* ================================================================== *)

(** ** [map_response] on any list and sensor map *)

Lemma list_getitem_item_at (l : list value) (i : Z) :
  list_getitem l i =
  if valid_index l i then Return (item_at l i)
  else Raise (IndexError "list index out of range").
Proof.
  unfold list_getitem, valid_index, item_at.
  destruct (i <? 0) eqn:E1.
  - destruct (0 <=? i + Z.of_nat (length l)) eqn:E2;
      destruct (i + Z.of_nat (length l) <? Z.of_nat (length l)) eqn:E3;
      destruct (- Z.of_nat (length l) <=? i) eqn:E4;
      destruct (i <? Z.of_nat (length l)) eqn:E5; simpl; try lia; try reflexivity.
    destruct (nth_error l (Z.to_nat (i + Z.of_nat (length l)))) as [a|] eqn:E.
    + now rewrite (nth_error_nth _ _ _ E).
    + apply nth_error_None in E. lia.
  - destruct (0 <=? i) eqn:E2; destruct (i <? Z.of_nat (length l)) eqn:E3;
      destruct (- Z.of_nat (length l) <=? i) eqn:E4; simpl; try lia; try reflexivity.
    destruct (nth_error l (Z.to_nat i)) as [a|] eqn:E.
    + now rewrite (nth_error_nth _ _ _ E).
    + apply nth_error_None in E. lia.
Qed.

Lemma map_response_from_selected (d : list value) (items : SensorMap) (out : dict) :
  forallb (valid_index d) (indices items) = true ->
  NoDup (keys out ++ keys items) ->
  map_response_from out (PList d) items = Return (out ++ selected items d).
Proof.
  revert out. induction items as [|[name [i unit]] items IH]; simpl; intros out Hb Hnd.
  - now rewrite app_nil_r.
  - apply andb_prop in Hb. destruct Hb as [Hi Hb].
    rewrite list_getitem_item_at, Hi. simpl.
    assert (Hni : ~ In name (keys out)).
    { apply NoDup_remove_2 in Hnd. intros Hin. apply Hnd. apply in_or_app. now left. }
    rewrite dict_set_fresh by exact Hni.
    rewrite IH.
    + now rewrite <- app_assoc.
    + exact Hb.
    + unfold keys in *. rewrite map_app. simpl. rewrite <- app_assoc. exact Hnd.
Qed.

Lemma map_response_from_IndexError (d : list value) (items : SensorMap) (out : dict) :
  forallb (valid_index d) (indices items) = false ->
  map_response_from out (PList d) items = Raise (IndexError "list index out of range").
Proof.
  revert out. induction items as [|[name [i unit]] items IH]; simpl; intros out Hb.
  - discriminate.
  - rewrite list_getitem_item_at.
    destruct (valid_index d i); simpl in *; [now apply IH | reflexivity].
Qed.

(** X2: [map_response], for any list and any sensor map with distinct
    names.  When every index of the map is an index of the list (from
    [-len] to [len - 1], the negative ones counting from the end), the
    result has the names of the map in its order, each bound to the element
    at its index; as soon as one index is not, [IndexError] is raised.  The
    unit of a sensor plays no part. *)
Theorem map_response_selects_by_index (d : list value) (sm : SensorMap)
    (Hnames : NoDup (keys sm)) :
  (forallb (valid_index d) (indices sm) = true ->
   map_response (PList d) sm = Return (selected sm d) /\
   forall name i unit, In (name, (i, unit)) sm ->
     dict_get (selected sm d) name = Some (item_at d i)) /\
  (forallb (valid_index d) (indices sm) = false ->
   map_response (PList d) sm = Raise (IndexError "list index out of range")) /\
  (forall sm', keys sm' = keys sm -> indices sm' = indices sm ->
   map_response (PList d) sm' = map_response (PList d) sm).
Proof.
  split; [|split].
  - intros Hb. split.
    + unfold map_response. now rewrite map_response_from_selected.
    + intros name i unit Hin. apply In_dict_get.
      * unfold selected, keys. rewrite map_map. exact Hnames.
      * unfold selected. apply in_map_iff. exists (name, (i, unit)). auto.
  - intros Hb. now apply map_response_from_IndexError.
  - intros sm' Hk Hi. unfold map_response. generalize (@nil (str * value)).
    revert sm' Hk Hi. clear Hnames.
    induction sm as [|[name [i unit]] sm IH]; intros [|[name' [i' unit']] sm'] Hk Hi out;
      try discriminate; [reflexivity|].
    simpl in *. inversion Hk. inversion Hi. subst.
    destruct (list_getitem d i); simpl; [|reflexivity]. now apply IH.
Qed.

Lemma map_response_selects_by_index_witness :
  map_response (PList [PInt 10; PInt 20; PInt 30])
    [sensor "first" 0 "A"; sensor "last" (-1) "V"]
  = Return [(u "first", PInt 10); (u "last", PInt 30)] /\
  map_response (PList [PInt 10; PInt 20; PInt 30])
    [sensor "first" 0 "A"; sensor "beyond" 3 "V"; sensor "last" (-1) "V"]
  = Raise (IndexError "list index out of range").
Proof.
  split.
  - destruct (map_response_selects_by_index [PInt 10; PInt 20; PInt 30]
                [sensor "first" 0 "A"; sensor "last" (-1) "V"]
                (distinct_NoDup [u "first"; u "last"] eq_refl))
      as (H & _ & _).
    exact (proj1 (H eq_refl)).
  - destruct (map_response_selects_by_index [PInt 10; PInt 20; PInt 30]
                [sensor "first" 0 "A"; sensor "beyond" 3 "V"; sensor "last" (-1) "V"]
                (distinct_NoDup [u "first"; u "beyond"; u "last"] eq_refl))
      as (_ & H & _).
    exact (H eq_refl).
Defined.

(** ** The repair on any text *)

Lemma double_comma_tail c s : double_comma (c :: s) = false -> double_comma s = false.
Proof.
  destruct s as [|c' s]; [reflexivity|]. cbn [double_comma].
  intros H. apply orb_false_elim in H. tauto.
Qed.

Lemma double_comma_prefix s t : double_comma (s ++ t) = false -> double_comma s = false.
Proof.
  induction s as [|c s IH]; [reflexivity|].
  destruct s as [|c' s]; [reflexivity|].
  change ((c :: c' :: s) ++ t) with (c :: c' :: (s ++ t)). cbn [double_comma].
  intros H. apply orb_false_elim in H. destruct H as [H1 H2].
  rewrite H1. apply IH. exact H2.
Qed.

(** One replacement changes nothing in a text without two commas in a
    row. *)
Lemma replace_no_double_comma s :
  double_comma s = false ->
  replace_from [comma; comma] [comma; 48; 46; 48; comma]%N 0 s = s.
Proof.
  induction s as [|c s IH]; [reflexivity|]. intros H.
  pose proof (double_comma_tail _ _ H) as Ht.
  destruct (N.eq_dec c comma) as [-> | Hc].
  - destruct s as [|c' s]; [reflexivity|].
    destruct (N.eq_dec c' comma) as [-> | Hc'].
    + cbn [double_comma] in H. rewrite N.eqb_refl in H. discriminate.
    + rewrite replace_single by exact Hc'. f_equal. now apply IH.
  - rewrite replace_other by exact Hc. f_equal. now apply IH.
Qed.

Lemma repair_unfold s :
  repair s =
  replace_from [comma; comma] [comma; 48; 46; 48; comma]%N 0
    (replace_from [comma; comma] [comma; 48; 46; 48; comma]%N 0 s).
Proof. reflexivity. Qed.

(** A replacement stops at a character that is not a comma. *)
Lemma replace_before_other x s :
  x <> comma ->
  replace_from [comma; comma] [comma; 48; 46; 48; comma]%N 0 (s ++ [x])
  = replace_from [comma; comma] [comma; 48; 46; 48; comma]%N 0 s ++ [x].
Proof.
  intros Hx. remember (length s) as n eqn:Hn. revert s Hn.
  induction n as [n IH] using lt_wf_ind. intros s Hn.
  destruct s as [|c s]; [simpl app; now rewrite replace_other|].
  destruct (N.eq_dec c comma) as [-> | Hc].
  - destruct s as [|c' s].
    + simpl app. rewrite replace_single by exact Hx. now rewrite replace_other.
    + destruct (N.eq_dec c' comma) as [-> | Hc'].
      * change ((comma :: comma :: s) ++ [x]) with (comma :: comma :: (s ++ [x])).
        rewrite !replace_pair. rewrite (IH (length s)); [|simpl in Hn; lia | reflexivity].
        now rewrite app_assoc.
      * change ((comma :: c' :: s) ++ [x]) with (comma :: (c' :: s) ++ [x]).
        change (comma :: (c' :: s) ++ [x]) with (comma :: c' :: (s ++ [x])).
        rewrite !replace_single by exact Hc'.
        change (c' :: s ++ [x]) with ((c' :: s) ++ [x]).
        rewrite (IH (length (c' :: s))); [reflexivity | simpl in *; lia | reflexivity].
  - change ((c :: s) ++ [x]) with (c :: (s ++ [x])).
    rewrite !replace_other by exact Hc.
    rewrite (IH (length s)); [reflexivity | simpl in Hn; lia | reflexivity].
Qed.

Lemma repair_between x y s :
  x <> comma -> y <> comma -> repair (x :: s ++ [y]) = x :: repair s ++ [y].
Proof.
  intros Hx Hy. rewrite !repair_unfold.
  rewrite replace_other by exact Hx. rewrite replace_before_other by exact Hy.
  rewrite replace_other by exact Hx. rewrite replace_before_other by exact Hy.
  reflexivity.
Qed.

Lemma last_split_commas x s : x <> comma -> last (split_commas (s ++ [x])) [] <> [].
Proof.
  intros Hx. induction s as [|c s IH].
  - simpl. destruct (N.eqb x comma) eqn:E; [apply N.eqb_eq in E; congruence | easy].
  - simpl app. cbn [split_commas].
    destruct (split_commas_cons (s ++ [x])) as (f & fields & E).
    rewrite E in *. destruct (N.eqb c comma); [exact IH|].
    destruct fields; [easy | exact IH].
Qed.

(** Fields that hold a value and no comma, joined, have no two commas in a
    row. *)
Lemma double_comma_field f c t :
  comma_free f -> c <> comma ->
  double_comma (f ++ comma :: c :: t) = double_comma (c :: t).
Proof.
  intros Hf Hc.
  assert (Hcc : double_comma (comma :: c :: t) = double_comma (c :: t)).
  { cbn [double_comma]. apply N.eqb_neq in Hc. rewrite Hc.
    rewrite andb_false_r. reflexivity. }
  induction f as [|a f IH]; [exact Hcc|].
  assert (Ha : N.eqb a comma = false).
  { apply N.eqb_neq. intros ->. apply Hf. now left. }
  assert (Hf' : comma_free f) by (intros Hin; apply Hf; now right).
  destruct f as [|b f].
  - simpl app. change (double_comma (a :: comma :: c :: t))
      with ((N.eqb a comma && N.eqb comma comma) || double_comma (comma :: c :: t)).
    rewrite Ha. exact Hcc.
  - change (double_comma ((a :: b :: f) ++ comma :: c :: t))
      with ((N.eqb a comma && N.eqb b comma) || double_comma ((b :: f) ++ comma :: c :: t)).
    rewrite Ha. simpl orb. apply IH. exact Hf'.
Qed.

Lemma double_comma_comma_free f : comma_free f -> double_comma f = false.
Proof.
  induction f as [|a f IH]; [reflexivity|]. intros Hf.
  destruct f as [|b f]; [reflexivity|]. cbn [double_comma].
  assert (Ha : N.eqb a comma = false).
  { apply N.eqb_neq. intros ->. apply Hf. now left. }
  rewrite Ha. simpl. apply IH. intros Hin. apply Hf. now right.
Qed.

Lemma double_comma_join l :
  Forall (fun f => f <> [] /\ comma_free f) l -> double_comma (join l) = false.
Proof.
  induction l as [|f l IH]; [reflexivity|]. intros H.
  inversion H as [|? ? [Hne Hf] Hl]. subst.
  destruct l as [|g l].
  - simpl. rewrite app_nil_r. now apply double_comma_comma_free.
  - rewrite join_cons. specialize (IH Hl).
    inversion Hl as [|? ? [Hgne Hg] _]. subst.
    destruct g as [|c g]; [congruence|].
    assert (Hc : c <> comma) by (intros ->; apply Hg; now left).
    change (join ((c :: g) :: l)) with (c :: (g ++ flat_map (fun g0 => comma :: g0) l)) in *.
    rewrite double_comma_field; assumption.
Qed.

Lemma repair_no_double_comma s : double_comma (repair s) = false.
Proof.
  assert (Hx : 120%N <> comma) by discriminate.
  pose proof (repair_between 120%N 120%N s Hx Hx) as H.
  pose proof (split_commas_comma_free (120%N :: s ++ [120%N])) as Hcf.
  pose proof (last_split_commas 120%N (120%N :: s) Hx) as Hlast.
  change ((120%N :: s) ++ [120%N]) with (120%N :: s ++ [120%N]) in Hlast.
  rewrite <- (join_split_commas (120%N :: s ++ [120%N])) in H at 1.
  destruct (split_commas (120%N :: s ++ [120%N])) as [|[|c f] rest] eqn:E.
  - destruct (split_commas_cons (120%N :: s ++ [120%N])) as (f & fields & E').
    rewrite E' in E. discriminate E.
  - exfalso. cbn [split_commas] in E. change (N.eqb 120 comma) with false in E.
    destruct (split_commas_cons (s ++ [120%N])) as (f & fields & E').
    rewrite E' in E. discriminate.
  - rewrite repair_fields in H by assumption.
    assert (Hd : double_comma (120%N :: repair s ++ [120%N]) = false).
    { rewrite <- H. apply double_comma_join.
      apply Forall_forall. intros g Hg. apply in_map_iff in Hg.
      destruct Hg as (g' & <- & Hg'). split; [apply fill_nonempty|].
      apply fill_comma_free. rewrite Forall_forall in Hcf. now apply Hcf. }
    apply double_comma_tail in Hd. now apply double_comma_prefix in Hd.
Qed.

Lemma repair_same s : double_comma s = false -> repair s = s.
Proof.
  intros H. rewrite repair_unfold.
  rewrite (replace_no_double_comma s H). exact (replace_no_double_comma s H).
Qed.

(** X3: the repair of [XHybrid.make_request] on any text.  Its result never
    has two commas in a row; it changes a text if and only if the text has
    two commas in a row, so that a body without any is parsed as the device
    sent it; and repairing twice is repairing once. *)
Theorem repair_leaves_no_two_commas_in_a_row (text : str) :
  double_comma (repair text) = false /\
  (repair text = text <-> double_comma text = false) /\
  repair (repair text) = repair text /\
  (forall garbage,
     decode_utf8 garbage = Return text -> double_comma text = false ->
     XHybrid_response garbage =
     (json_response <- Json.loads text ;;
      response <- XHybrid_schema json_response ;;
      XHybrid_InverterResponse response)).
Proof.
  split; [apply repair_no_double_comma|]. split; [|split].
  - split; [|apply repair_same].
    intros H. rewrite <- H. apply repair_no_double_comma.
  - apply repair_same, repair_no_double_comma.
  - intros garbage Hd Hc. unfold XHybrid_response. rewrite Hd. simpl.
    now rewrite repair_same.
Qed.

(** ** The shape of a response *)

Lemma Response_floats c sn ver ty fs :
  payload_length_ok c fs ->
  Forall (fun kv => exists f, snd kv = PFloat f) (data (Response c sn ver ty fs)).
Proof.
  unfold payload_length_ok. intros Hlen. apply Forall_forall.
  intros [name v] Hin. simpl in Hin. unfold readings_of in Hin.
  apply in_map_iff in Hin. destruct Hin as ([name' [i unit]] & E & Hin).
  inversion E. subst. clear E. simpl.
  assert (Hi : 0 <= i < data_length c).
  { apply sensor_map_bounds. unfold indices. apply in_map_iff.
    exists (name, (i, unit)). auto. }
  destruct (nth_error fs (Z.to_nat i)) as [f|] eqn:E.
  - exists f. apply nth_error_nth. now rewrite nth_error_map, E.
  - apply nth_error_None in E. lia.
Qed.

(** X4: whatever the device sent, a response that [get_data] returns has
    one reading for each name of the sensor map of its class, in the order
    of the map, every reading is a [float], and the serial number, the
    version and the type are strings. *)
Theorem get_data_returns_floats_and_strings
    (self : Inverter) (w : Aio.World) (r : InverterResponse)
    (Hreturn : fst (get_data self w) = Return r) :
  keys (data r) = keys (sensor_map (cls self)) /\
  Forall (fun kv => exists f, snd kv = PFloat f) (data r) /\
  (exists sn, serial_number r = PStr sn) /\
  (exists ver, version r = PStr ver) /\
  (exists ty, type r = PStr ty).
Proof.
  rewrite get_data_answer in Hreturn. cbn [fst] in Hreturn.
  destruct (Aio.network w (Aio.log w) (request_of self)) as [b|msg];
    [|discriminate]. cbn [requested] in Hreturn.
  destruct (response_of (cls self) b) as [r'|e] eqn:E.
  - simpl in Hreturn. inversion Hreturn. subst r'. clear Hreturn.
    apply response_of_Return in E.
    destruct E as (text & items & sn & ver & ty & fs & _ & _ & _ & Hp & ->).
    split; [apply keys_readings_of|]. split.
    + apply Response_floats. eapply payload_length; eauto.
    + simpl. repeat split; eexists; reflexivity.
  - exfalso. simpl in Hreturn.
    destruct (is_ClientError e); [discriminate|].
    destruct (is_ValueError e); [discriminate|].
    destruct (is_Invalid e); discriminate.
Qed.

Lemma get_data_returns_floats_and_strings_witness :
  exists r,
    fst (get_data (at_address XHybrid) XHybrid_device) = Return r /\
    keys (data r) = keys XHybrid_sensor_map /\
    Forall (fun kv => exists f, snd kv = PFloat f) (data r).
Proof.
  destruct (fst (get_data (at_address XHybrid) XHybrid_device)) as [r|] eqn:E;
    [|vm_compute in E; discriminate].
  exists r. split; [reflexivity|].
  destruct (get_data_returns_floats_and_strings (at_address XHybrid) XHybrid_device r E)
    as (Hk & Hf & _).
  split; assumption.
Defined.

(** ** Keys that the schema does not know, keys that are missing *)

Lemma schema_schema_fields c : schema c = Schema (schema_fields c).
Proof. destruct c; reflexivity. Qed.

Lemma schema_fields_sound c : Forall (fun kv => sound (snd kv)) (schema_fields c).
Proof. destruct c; [apply XHybrid_fields_sound | apply X3_fields_sound]. Qed.

Lemma validate_mapping_unknown schema items k v out errors required :
  dict_get schema k = None ->
  validate_mapping schema (dict_set items k v) out errors required
  = validate_mapping schema items out errors required.
Proof.
  intros Hk. revert out errors required.
  induction items as [|[k' v'] items IH]; intros out errors required.
  - simpl. now rewrite Hk.
  - simpl dict_set. destruct (str_eqb k k') eqn:E.
    + apply str_eqb_eq in E. subst k'. simpl. now rewrite Hk.
    + simpl. destruct (dict_get schema k') as [cvalue|]; [|apply IH].
      destruct (cvalue v') as [cval|[]]; try reflexivity; apply IH.
Qed.

Lemma validate_mapping_keys schema items out errors required o e r k :
  validate_mapping schema items out errors required = Return (o, e, r) ->
  In k (keys o) -> In k (keys out) \/ dict_get schema k <> None.
Proof.
  revert out errors required.
  induction items as [|[k' v'] items IH]; simpl; intros out errors required H Hin.
  - inversion H. subst. now left.
  - destruct (dict_get schema k') as [cvalue|] eqn:Ek; [|eapply IH; eauto].
    destruct (cvalue v') as [cval|ex].
    + destruct (IH _ _ _ H Hin) as [Hout | Hs]; [|now right].
      destruct (list_eq_dec N.eq_dec k k') as [-> | Hne].
      * right. congruence.
      * left. apply dict_get_In_keys in Hout. destruct Hout as [x Hx].
        rewrite dict_get_set_other in Hx by exact Hne.
        apply dict_get_In_keys. eauto.
    + destruct ex; try discriminate. eapply IH; eauto.
Qed.

(** X5: both schemas are built with [extra=REMOVE_EXTRA].  A key that is
    not a field of the schema, added to a payload or given another value,
    changes nothing to what the schema returns or raises; and the keys of a
    validated payload are exactly the fields of the schema. *)
Theorem unknown_keys_are_dropped
    (c : Variant) (items : dict) (k : str) (v : value)
    (Hitems : NoDup (keys items))
    (Hunknown : dict_get (schema_fields c) k = None) :
  schema c (PDict (dict_set items k v)) = schema c (PDict items) /\
  (response <- schema c (PDict (dict_set items k v)) ;; InverterResponse_of c response)
  = (response <- schema c (PDict items) ;; InverterResponse_of c response) /\
  forall out, schema c (PDict items) = Return (PDict out) ->
    forall k', In k' (keys out) <-> In k' (keys (schema_fields c)).
Proof.
  assert (Hsame : schema c (PDict (dict_set items k v)) = schema c (PDict items)).
  { rewrite schema_schema_fields. unfold Schema.
    rewrite !dict_of_pairs_id by (try apply NoDup_dict_set; exact Hitems).
    now rewrite validate_mapping_unknown. }
  split; [exact Hsame|]. split; [now rewrite Hsame|].
  intros out Hout k'. split.
  - intros Hin. rewrite schema_schema_fields in Hout. unfold Schema in Hout.
    rewrite dict_of_pairs_id in Hout by exact Hitems.
    destruct (validate_mapping (schema_fields c) items [] [] (keys (schema_fields c)))
      as [[[o e] r]|] eqn:E; [|discriminate].
    simpl in Hout.
    destruct (e ++ map (fun _ => "required key not provided"%string) r); [|discriminate].
    inversion Hout. subst o.
    destruct (validate_mapping_keys _ _ _ _ _ _ _ _ k' E Hin) as [[] | Hs].
    apply dict_get_In_keys. destruct (dict_get (schema_fields c) k'); [eauto | congruence].
  - intros Hin. apply dict_get_In_keys in Hin. destruct Hin as [cvalue Hc].
    rewrite schema_schema_fields in Hout.
    destruct (Schema_Return _ _ _ (schema_fields_sound c) Hitems Hout) as (out' & E & Hall).
    inversion E. subst out'.
    destruct (Hall k' cvalue Hc) as (x & cval & _ & _ & Hget).
    apply dict_get_In_keys. eauto.
Qed.

Lemma unknown_keys_are_dropped_witness :
  schema X3 (PDict (dict_set X3_items (u "Status") (PInt (-1))))
  = schema X3 (PDict X3_items).
Proof.
  exact (proj1 (unknown_keys_are_dropped X3 X3_items (u "Status") (PInt (-1))
                  (distinct_NoDup (keys X3_items) eq_refl) eq_refl)).
Defined.

Lemma validate_mapping_missing schema items out errors required o e r k :
  validate_mapping schema items out errors required = Return (o, e, r) ->
  In k required -> ~ In k (keys items) -> In k r.
Proof.
  revert out errors required.
  induction items as [|[k' v'] items IH]; simpl; intros out errors required H Hin Hk.
  - inversion H. now subst.
  - assert (Hne : k <> k') by (intros ->; apply Hk; now left).
    assert (Hk' : ~ In k (keys items)) by (intros Hx; apply Hk; now right).
    assert (Hf : In k (filter (fun k0 => negb (str_eqb k0 k')) required)).
    { apply filter_In. split; [exact Hin|].
      apply str_eqb_neq in Hne. now rewrite Hne. }
    destruct (dict_get schema k') as [cvalue|]; [|eapply IH; eauto].
    destruct (cvalue v') as [cval|ex]; [eapply IH; eauto|].
    destruct ex; try discriminate. eapply IH; eauto.
Qed.

Lemma validate_mapping_not_Invalid schema items out errors required e :
  validate_mapping schema items out errors required = Raise e -> is_Invalid e = false.
Proof.
  revert out errors required.
  induction items as [|[k' v'] items IH]; simpl; intros out errors required H;
    [discriminate|].
  destruct (dict_get schema k') as [cvalue|]; [|eapply IH; eauto].
  destruct (cvalue v') as [cval|ex]; [eapply IH; eauto|].
  destruct ex; try (inversion H; reflexivity). eapply IH; eauto.
Qed.

Lemma schema_fields_guarded c : Forall (fun kv => guarded (snd kv)) (schema_fields c).
Proof. destruct c; [apply XHybrid_fields_guarded | apply X3_fields_guarded]. Qed.

(** X6: every key of a schema is [Required].  A payload that lacks one of
    them (for XHybrid: method, version, type, SN, Data, Status; for X3:
    type, SN, ver, Data, Information) is refused, whatever else it holds:
    the schema raises [Invalid] with the error of the missing key among its
    errors, unless a conversion of another field raised [OverflowError]
    first. *)
Theorem missing_key_is_refused
    (c : Variant) (items : dict) (k : str)
    (Hitems : NoDup (keys items))
    (Hfield : In k (keys (schema_fields c)))
    (Hmissing : dict_get items k = None) :
  keys (schema_fields XHybrid)
  = [u "method"; u "version"; u "type"; u "SN"; u "Data"; u "Status"] /\
  keys (schema_fields X3) = [u "type"; u "SN"; u "ver"; u "Data"; u "Information"] /\
  ((exists errors, schema c (PDict items) = Raise (Invalid errors) /\
                   In "required key not provided"%string errors) \/
   (exists msg, schema c (PDict items) = Raise (OverflowError msg))).
Proof.
  split; [reflexivity|]. split; [reflexivity|].
  rewrite schema_schema_fields. unfold Schema.
  rewrite dict_of_pairs_id by exact Hitems.
  destruct (validate_mapping (schema_fields c) items [] [] (keys (schema_fields c)))
    as [[[o e] r]|ex] eqn:E.
  - left. simpl.
    assert (Hr : In k r).
    { eapply validate_mapping_missing; eauto. now apply dict_get_None. }
    assert (Hin : In "required key not provided"%string
                    (e ++ map (fun _ => "required key not provided"%string) r)).
    { apply in_or_app. right. apply in_map_iff. eauto. }
    destruct (e ++ map (fun _ => "required key not provided"%string) r) as [|x l];
      [destruct Hin|]. eauto.
  - right. simpl.
    pose proof (validate_mapping_not_Invalid _ _ _ _ _ _ E) as Hni.
    pose proof (validate_mapping_guarded _ _ _ _ _ _ (schema_fields_guarded c) E) as Hg.
    destruct ex; try discriminate. eauto.
Qed.

Lemma missing_key_is_refused_witness :
  exists errors,
    schema XHybrid (PDict X3_items) = Raise (Invalid errors) /\
    In "required key not provided"%string errors.
Proof.
  destruct (missing_key_is_refused XHybrid X3_items (u "Status")
              (distinct_NoDup (keys X3_items) eq_refl)
              (or_intror (or_intror (or_intror (or_intror (or_intror (or_introl eq_refl))))))
              eq_refl) as (_ & _ & [H | [msg H]]).
  - exact H.
  - vm_compute in H. discriminate H.
Defined.

(** ** A payload is of one class at most *)

Lemma schemas_exclude j r r' : XHybrid_schema j = Return r -> X3_schema j = Return r' -> False.
Proof.
  intros H H'.
  destruct (schema_dict XHybrid j r H) as [items ->].
  change (schema XHybrid (PDict items) = Return r) in H.
  change (schema X3 (PDict items) = Return r') in H'.
  rewrite schema_dict_of_pairs in H, H'.
  apply XHybrid_schema_Return in H; [|apply NoDup_dict_of_pairs].
  apply X3_schema_Return in H'; [|apply NoDup_dict_of_pairs].
  destruct H as (out & sn & ver & ty & fs & st & _ & Hp & _).
  destruct H' as (out' & sn' & ver' & ty' & fs' & _ & Hp' & _).
  destruct Hp as (_ & _ & _ & _ & (l & Hl & _ & Hlen) & _).
  destruct Hp' as (_ & _ & _ & (l' & Hl' & _ & Hlen') & _).
  rewrite Hl in Hl'. inversion Hl'. subst l'. lia.
Qed.

(** X7: no object is accepted by the schema of XHybrid and by the schema of
    X3 (the lengths required of [Data] differ); so a body without omitted
    values, which both classes parse as it is, is answered by a response
    for one class at most. *)
Theorem no_payload_is_of_both_classes (j : value) :
  returns (XHybrid_schema j) && returns (X3_schema j) = false /\
  forall body text,
    decode_utf8 body = Return text -> Json.loads text = Return j ->
    double_comma text = false ->
    returns (response_of XHybrid body) && returns (response_of X3 body) = false.
Proof.
  assert (H : returns (XHybrid_schema j) && returns (X3_schema j) = false).
  { destruct (XHybrid_schema j) as [r|] eqn:E; [|reflexivity].
    destruct (X3_schema j) as [r'|] eqn:E'; [|reflexivity].
    destruct (schemas_exclude j r r' E E'). }
  split; [exact H|].
  intros body text Hd Hl Hc. rewrite !response_of_steps. rewrite Hd. simpl.
  rewrite repair_same by exact Hc. rewrite Hl. simpl.
  destruct (XHybrid_schema j) as [r|]; [|reflexivity].
  destruct (X3_schema j) as [r'|]; [discriminate H|].
  simpl. now rewrite andb_false_r.
Qed.

(** ** What a response depends on *)

Lemma nth_map_PFloat fs fs' n :
  nth_error fs n = nth_error fs' n ->
  nth n (map PFloat fs) PNone = nth n (map PFloat fs') PNone.
Proof.
  intros H.
  assert (E : forall l, nth n (map PFloat l) PNone
                        = match nth_error l n with Some f => PFloat f | None => PNone end).
  { intros l. destruct (nth_error l n) as [f|] eqn:E.
    - apply nth_error_nth. now rewrite nth_error_map, E.
    - apply nth_overflow. rewrite length_map. now apply nth_error_None. }
  now rewrite !E, H.
Qed.

(** X8: of a validated payload the response keeps the serial number, the
    version, the type and the values of [Data] at the indices of the sensor
    map, and nothing else: two payloads that a schema accepts and that agree
    on these have the same response, whatever their other values of
    [Data], its length (58 or 68), their [method], [Status] or
    [Information] and their other keys. *)
Theorem response_keeps_the_mapped_values_only
    (c : Variant) (items items' : dict) (sn ver ty : str) (fs fs' : list float)
    (Hitems : NoDup (keys items)) (Hitems' : NoDup (keys items'))
    (Hpayload : payload c items sn ver ty fs)
    (Hpayload' : payload c items' sn ver ty fs')
    (Hsame : forall i, In i (indices (sensor_map c)) ->
               nth_error fs (Z.to_nat i) = nth_error fs' (Z.to_nat i)) :
  (response <- schema c (PDict items) ;; InverterResponse_of c response)
  = (response <- schema c (PDict items') ;; InverterResponse_of c response).
Proof.
  rewrite (payload_response _ _ _ _ _ _ Hitems Hpayload).
  rewrite (payload_response _ _ _ _ _ _ Hitems' Hpayload').
  f_equal. unfold Response. f_equal. unfold readings_of.
  apply map_ext_in. intros [name [i unit]] Hin. simpl. f_equal.
  apply nth_map_PFloat. apply Hsame. unfold indices. apply in_map_iff.
  exists (name, (i, unit)). auto.
Qed.

Lemma XHybrid_short_items_payload :
  XHybrid_payload XHybrid_short_items
    (text_of (dict_get XHybrid_items (u "SN")))
    (text_of (dict_get XHybrid_items (u "version")))
    (text_of (dict_get XHybrid_items (u "type")))
    (floats (firstn 58 (data_of XHybrid_items))) 7.
Proof.
  unfold XHybrid_payload. repeat split.
  - eexists. vm_compute. reflexivity.
  - exists (firstn 58 (data_of XHybrid_items)). split; [reflexivity|]. split.
    + apply floats_of_floats. vm_compute. reflexivity.
    + left. reflexivity.
  - exists (PStr (u "7")). repeat split. discriminate.
Qed.

Lemma response_keeps_the_mapped_values_only_witness :
  (response <- schema XHybrid (PDict XHybrid_items) ;;
   InverterResponse_of XHybrid response)
  = (response <- schema XHybrid (PDict XHybrid_short_items) ;;
     InverterResponse_of XHybrid response).
Proof.
  apply (response_keeps_the_mapped_values_only XHybrid XHybrid_items XHybrid_short_items
           _ _ _ _ _
           (distinct_NoDup (keys XHybrid_items) eq_refl)
           (distinct_NoDup (keys XHybrid_short_items) eq_refl)
           (ex_intro _ 2 XHybrid_items_payload)
           (ex_intro _ 7 XHybrid_short_items_payload)).
  intros i Hi. vm_compute in Hi.
  repeat (destruct Hi as [<- | Hi]; [vm_compute; reflexivity|]).
  destruct Hi.
Defined.

(** ** Discovery over any registry *)

Lemma get_data_network self w : Aio.network (snd (get_data self w)) = Aio.network w.
Proof. rewrite get_data_answer. reflexivity. Qed.

Lemma discover_from_cons c rest h p w :
  discover_from (c :: rest) h p w =
  let i := {| cls := c; host := h; port := p |} in
  match get_data i w with
  | (Return _, w1) => (Return i, w1)
  | (Raise e, w1) =>
      if is_InverterError e then discover_from rest h p w1 else (Raise e, w1)
  end.
Proof.
  cbn [discover_from]. unfold Aio.try_except, Aio.bindM, Aio.ret. cbv zeta.
  destruct (get_data _ w) as [[r|e] w1]; [reflexivity|].
  destruct (is_InverterError e); reflexivity.
Qed.

Lemma discover_from_network registry h p w :
  Aio.network (snd (discover_from registry h p w)) = Aio.network w.
Proof.
  revert w. induction registry as [|c rest IH]; intros w; [reflexivity|].
  rewrite discover_from_cons. cbv zeta.
  pose proof (get_data_network {| cls := c; host := h; port := p |} w) as Hnet.
  destruct (get_data {| cls := c; host := h; port := p |} w) as [[r|e] w1];
    cbn [fst snd] in *; [exact Hnet|].
  destruct (is_InverterError e); [|exact Hnet]. rewrite IH. exact Hnet.
Qed.


Lemma discover_from_found registry h p w i :
  fst (discover_from registry h p w) = Return i ->
  In i (adapters registry h p) /\
  exists w0 r, Aio.network w0 = Aio.network w /\ fst (get_data i w0) = Return r.
Proof.
  revert w. induction registry as [|c rest IH]; intros w; [discriminate|].
  rewrite discover_from_cons. cbv zeta.
  pose proof (get_data_network {| cls := c; host := h; port := p |} w) as Hnet.
  destruct (get_data {| cls := c; host := h; port := p |} w) as [[r|e] w1] eqn:E;
    cbn [fst snd] in *.
  - intros H. inversion H. subst i. split; [now left|].
    exists w, r. split; [reflexivity|]. now rewrite E.
  - destruct (is_InverterError e); [|discriminate].
    intros H. destruct (IH w1 H) as (Hin & w0 & r & Hw0 & Hr).
    split; [now right|]. exists w0, r. split; [congruence | exact Hr].
Qed.

(** X10: at a device whose answers do not depend on what was asked before,
    the adapter that [discover] returns is one of the registry, bound to
    the host and the port given, and its next [get_data] returns a
    response. *)
Theorem discovered_adapter_answers
    (h : str) (p : Z) (w : Aio.World) (i : Inverter)
    (Hstateless : stateless w)
    (Hfound : fst (discover h p w) = Return i) :
  In (cls i) REGISTRY /\ host i = h /\ port i = p /\
  exists r, fst (get_data i (snd (discover h p w))) = Return r.
Proof.
  unfold discover in *.
  destruct (discover_from_found _ _ _ _ _ Hfound) as (Hin & w0 & r & Hw0 & Hr).
  pose proof (discover_from_network REGISTRY h p w) as Hnet.
  unfold adapters in Hin. apply in_map_iff in Hin. destruct Hin as (c & <- & Hc).
  split; [exact Hc|]. split; [reflexivity|]. split; [reflexivity|].
  exists r. rewrite get_data_answer in *. cbn [fst] in *.
  rewrite Hnet, (Hstateless _ (Aio.log w0)), <- Hw0. exact Hr.
Qed.

Lemma discovered_adapter_answers_witness :
  fst (discover address 80 X3_device) = Return (at_address X3) /\
  exists r, fst (get_data (at_address X3) (snd (discover address 80 X3_device))) = Return r.
Proof.
  assert (Hfound : fst (discover address 80 X3_device) = Return (at_address X3))
    by (vm_compute; reflexivity).
  split; [exact Hfound|].
  exact (proj2 (proj2 (proj2
    (discovered_adapter_answers address 80 X3_device (at_address X3)
       (fun l l' r => eq_refl) Hfound)))).
Defined.

(** ** The request of a class *)

(** X11: the request of [make_request], for any host and port.  XHybrid
    sends one GET and X3 one POST, to the URL made of [http://], the host
    as it is (braces in it are not fields), a colon, the port in decimal
    and the path of the class; the outcome is what the class makes of the
    body read, or the [ClientError] of the connection; the request is
    recorded whether or not a response comes out of it. *)
Theorem make_request_sends_one_request
    (c : Variant) (h : str) (p : Z) (w : Aio.World) :
  let request :=
    {| Aio.req_method := method_of c;
       Aio.req_url := u "http://" ++ h ++ u ":" ++ str_of_int p ++ path_of c |} in
  request_of {| cls := c; host := h; port := p |} = request /\
  Aio.log (snd (make_request c h p w)) = Aio.log w ++ [request] /\
  Aio.network (snd (make_request c h p w)) = Aio.network w /\
  fst (make_request c h p w)
  = match Aio.network w (Aio.log w) request with
    | Aio.Body b => response_of c b
    | Aio.Failed msg => Raise (ClientError msg)
    end /\
  snd (get_data {| cls := c; host := h; port := p |} w) = snd (make_request c h p w).
Proof.
  cbv zeta.
  assert (Hreq : request_of {| cls := c; host := h; port := p |}
                 = {| Aio.req_method := method_of c;
                      Aio.req_url := u "http://" ++ h ++ u ":" ++ str_of_int p ++ path_of c |}).
  { destruct c; unfold request_of; cbn [cls host port method_of path_of]; f_equal;
      cbn; rewrite <- !app_assoc; reflexivity. }
  split; [exact Hreq|]. rewrite <- Hreq.
  pose proof (make_request_answer {| cls := c; host := h; port := p |} w) as H.
  cbn [cls host port] in H. rewrite H. cbn [fst snd].
  split; [reflexivity|]. split; [reflexivity|]. split; [reflexivity|].
  now rewrite get_data_answer.
Qed.

(** ** A body that is not an object *)

(** X12: a body that is valid JSON but not an object (an array, a number,
    a string, [true], [false] or [null]) is not subscripted: the schema
    refuses it and [get_data] raises the [InverterError] of a malformed
    payload. *)
Theorem non_object_is_malformed
    (self : Inverter) (w : Aio.World) (b : bytes) (text : str) (j : value)
    (Hanswer : Aio.network w (Aio.log w) (request_of self) = Aio.Body b)
    (Hdecode : decode_utf8 b = Return text)
    (Hloads : Json.loads (parsed_text (cls self) text) = Return j)
    (Hother : match j with PDict _ => False | _ => True end) :
  fst (get_data self w)
  = Raise (InverterError "Received malformed JSON from inverter"
             (Invalid ["expected a dictionary"%string])).
Proof.
  rewrite get_data_answer, Hanswer. cbn [fst requested].
  rewrite response_of_steps, Hdecode. simpl. rewrite Hloads. simpl.
  destruct (cls self); destruct j; try contradiction; reflexivity.
Qed.

Lemma non_object_is_malformed_witness :
  fst (get_data (at_address X3) array_device)
  = Raise (InverterError "Received malformed JSON from inverter"
             (Invalid ["expected a dictionary"%string])).
Proof.
  apply (non_object_is_malformed (at_address X3) array_device (body "[0,0]")
           (u "[0,0]") (PList [PInt 0; PInt 0])); (reflexivity || exact I).
Defined.

(** ** What [get_data] raises *)

